(** * img_bank_acconcepts: the image-bank to PDF pipeline of [src/index.js]

    A shallow embedding of the script: the file system and the console are
    an explicit state, JavaScript exceptions are results threaded through a
    small state-and-exception monad, and the external packages ([sharp],
    [pdfkit], [pdf-lib]) appear through the interface the script uses. *)

From Stdlib Require Import ZArith QArith Lia ZifyNat Ascii String Floats.
From stdpp Require Import base option list gmap strings pretty fin_maps.
From Equations Require Import Equations.

Set Warnings "-inexact-float".
Local Open Scope Z_scope.

(** ** Paths and file names *)

(** A path is the list of its components below the working directory;
    [path.join(folder, file)] appends one component (the names returned by
    [readdirSync] hold no separator). *)
Abbreviation path := (list string).

Definition path_join (folder : path) (file : string) : path := folder ++ [file].

(** [String.prototype.toLowerCase], on the ASCII letters. *)
Definition lower_ascii (c : ascii) : ascii :=
  let n := nat_of_ascii c in
  if ((65 <=? n)%nat && (n <=? 90)%nat)%bool then ascii_of_nat (n + 32) else c.

Fixpoint toLowerCase (s : string) : string :=
  match s with
  | EmptyString => EmptyString
  | String c r => String (lower_ascii c) (toLowerCase r)
  end.

(** The suffix of [s] that starts at its last dot, if it has a dot. *)
Fixpoint from_last_dot (s : string) : option string :=
  match s with
  | EmptyString => None
  | String c r =>
      match from_last_dot r with
      | Some e => Some e
      | None => if Ascii.eqb c "."%char then Some s else None
      end
  end.

(** [path.extname] on a bare file name: the text from the last dot on; empty
    when there is no dot, when the only dot is the first character, and for
    the name [".."]. *)
Definition extname (file : string) : string :=
  match file with
  | EmptyString => EmptyString
  | String _ r =>
      match from_last_dot r with
      | Some e => if String.eqb file ".." then EmptyString else e
      | None => EmptyString
      end
  end.

(** [path.basename] of a directory entry is the entry itself. *)
Definition basename (file : string) : string := file.

(** [['.jpg', '.jpeg', '.png'].includes(path.extname(file).toLowerCase())] *)
Definition isImageFile (file : string) : bool :=
  bool_decide (toLowerCase (extname file) ∈ [".jpg"; ".jpeg"; ".png"]%string).

(** ** Constants of the script *)

Definition MAX_IMAGE_SIZE_MB : Z := 2.
Definition TARGET_WIDTH : Z := 1920.
Definition JPEG_QUALITY : Z := 80.
Definition IMAGES_PER_FILE : nat := 15.

Definition PAGE_WIDTH : Z := 600.
Definition PAGE_HEIGHT : Z := 800.
Definition IMAGE_MAX_WIDTH : Z := 150.
Definition IMAGE_MAX_HEIGHT : Z := 100.
Definition MARGIN_X : Z := 25.
Definition MARGIN_Y : Z := 25.
Definition SPACING_X : Z := 10.
Definition SPACING_Y : Z := 10.

(** ** Numbers *)

(** A JavaScript number is a double.  The cursor of the layout and the sizes
    of the images in pixels are integers, far below [2^53], and are kept as
    integers; what the script computes by division is a double.  [Number z]
    is the double nearest to the integer [z]: [z] itself below [2^53]. *)
Definition Number (z : Z) : float :=
  SF2Prim (binary_normalize prec emax z 0 false).

(** [Math.min(a, b)]: [NaN] when an argument is, and [-0] below [+0]. *)
Definition Math_min (a b : float) : float :=
  if (PrimFloat.is_nan a || PrimFloat.is_nan b)%bool then PrimFloat.nan
  else if PrimFloat.ltb a b then a
  else if PrimFloat.ltb b a then b
  else if PrimFloat.get_sign a then a else b.

(** ** Documents *)

(** What is drawn on a page: the two calls of the script, [doc.image] and
    [doc.text], with their arguments (the cursor is an integer, the scaled
    sizes are doubles), each on the page that is current when it is made;
    and the rest of a caption that [pdfkit] continues on a page it opened by
    itself. *)
Inductive drawOp :=
| DrawImage (src : path) (x y : Z) (width height : float)
| DrawText (text : string) (x : Z) (y : float) (width : Z)
| ContinueText (text : string).

(** A page, of a size in points, and what was drawn on it. *)
Record page := { page_size : float * float; page_ops : list drawOp }.

(** Errors thrown by the file system and by the packages. *)
Inductive error :=
| ENOENT (p : path)
| ENOTDIR (p : path)
| EISDIR (p : path)
| EEXIST (p : path)
| ENOTEMPTY (p : path)
| UnsupportedImage (p : path)
| ResizeFailed (p : path)
| NoCurrentPage
| InvalidPDF
| NoSuchPage
| NeverSettled
| OutOfFuel.

(** Lines written by [console.log] and [console.error]. *)
Inductive logline :=
| LogInvalidImage (inputPath : path) (e : error)
| LogCompressed (outputPath : path)
| LogCompressError (inputPath : path) (e : error)
| LogCompressing (file : string) (bytes : Z)
| LogCopied (file : string)
| LogAddImageError (filePath : path) (e : error)
| LogGenerated (pdfs : list path)
| LogMerged (final : path)
| LogStart
| LogSuccess
| LogFailure (e : error).

(** ** Results and the monad *)

(** [Throw] is a JavaScript exception, which [try]/[catch] handles;
    [Crash] ends the process: an error event nobody listens to, or a
    promise that never settles. *)
Inductive result (A : Type) :=
| Ok (a : A)
| Throw (e : error)
| Crash (e : error).
Arguments Ok {A} a.
Arguments Throw {A} e.
Arguments Crash {A} e.

Definition ST (St A : Type) : Type := St → result A * St.

Definition ret {St A} (a : A) : ST St A := λ s, (Ok a, s).

Definition throw {St A} (e : error) : ST St A := λ s, (Throw e, s).

Definition bind {St A B} (m : ST St A) (k : A → ST St B) : ST St B :=
  λ s, match m s with
       | (Ok a, s') => k a s'
       | (Throw e, s') => (Throw e, s')
       | (Crash e, s') => (Crash e, s')
       end.

(** [try { m } catch (error) { h error }]: the state reached when the
    exception was thrown is kept. *)
Definition try_catch {St A} (m : ST St A) (h : error → ST St A) : ST St A :=
  λ s, match m s with
       | (Throw e, s') => h e s'
       | r => r
       end.

Declare Scope js_scope.
Delimit Scope js_scope with js.
Notation "x <- m ;; k" := (bind m (λ x, k))
  (at level 100, m at next level, right associativity) : js_scope.
Notation "m ;; k" := (bind m (λ _, k))
  (at level 100, right associativity) : js_scope.
Local Open Scope js_scope.

(** [for (const x of l) body(x)] and [l.forEach(body)]. *)
Fixpoint for_of {St A} (l : list A) (body : A → ST St unit) : ST St unit :=
  match l with
  | [] => ret tt
  | x :: l' => body x ;; for_of l' body
  end.

(** [l.forEach((x, index) => body(x, index))], counting from [index]. *)
Fixpoint forEach_from {St A} (index : nat) (l : list A)
    (body : A → nat → ST St unit) : ST St unit :=
  match l with
  | [] => ret tt
  | x :: l' => body x index ;; forEach_from (S index) l' body
  end.

Definition forEach {St A} (l : list A) (body : A → nat → ST St unit) : ST St unit :=
  forEach_from 0 l body.

(** [Array.prototype.slice(start, end)] on indices in order. *)
Definition slice {A} (start stop : nat) (l : list A) : list A :=
  take (stop - start) (drop start l).

(** ** The external packages *)

(** What [sharp] reports about an image it could decode. *)
Record Metadata := { md_width : Z; md_height : Z }.

(** The parts of [sharp] and [pdfkit] the script calls, and the date the
    folder names are built from.  [None] stands for a thrown exception. *)
Class Packages := {
  Bytes : Type;
  (** [fs.statSync(p).size] of a file with these bytes *)
  byteLength : Bytes → Z;
  (** [sharp(p).metadata()] *)
  sharp_metadata : Bytes → option Metadata;
  (** [sharp(p).resize({ width }).jpeg({ quality })] *)
  sharp_resize_jpeg : Bytes → Z → Z → option Bytes;
  (** [doc.openImage(p)]: the pixel width and height *)
  pdfkit_openImage : Bytes → option (Z * Z);
  (** [doc.fontSize(10).text(text, x, y, { width })] on a page of the given
      size: a text that passes the bottom margin of the page is continued on
      pages [pdfkit] opens by itself; their sizes, none when the text fits *)
  pdfkit_text_overflow : float * float → string → Z → float → Z → list (float * float);
  (** [currentDate.toISOString().split('T')[0]] *)
  formattedDate : string;
}.

Section Model.
Context `{Packages}.

(** ** The file system and the console *)

(** An entry of the file system: a file with arbitrary bytes, a PDF file
    (known by its pages: what [pdfkit] and [pdf-lib] write, [pdf-lib] reads
    back), or a directory. *)
Inductive entry :=
| File (data : Bytes)
| PdfFile (pages : list page)
| Directory.

Record World := {
  fs : gmap path entry;
  console : list logline;
}.

Abbreviation M := (ST World).

Definition set_fs (m : gmap path entry) (w : World) : World :=
  {| fs := m; console := console w |}.

Definition console_log (l : logline) : M unit :=
  λ w, (Ok tt, {| fs := fs w; console := console w ++ [l] |}).

(** The working directory itself, [[]], is always a directory. *)
Definition is_directory (m : gmap path entry) (p : path) : bool :=
  match p with
  | [] => true
  | _ => match m !! p with Some Directory => true | _ => false end
  end.

Definition parent (p : path) : path := removelast p.

Fixpoint strip_folder (p k : path) : option path :=
  match p, k with
  | [], _ => Some k
  | a :: p', b :: k' => if decide (a = b) then strip_folder p' k' else None
  | _ :: _, [] => None
  end.

Definition child_name (p k : path) : option string :=
  match strip_folder p k with
  | Some [name] => Some name
  | _ => None
  end.

(** The names below directory [p], in the enumeration order of the map. *)
Definition children (p : path) (m : gmap path entry) : list string :=
  omap (child_name p) (map_to_list m).*1.

Definition existsSync (p : path) : M bool :=
  λ w, (Ok (match fs w !! p with Some _ => true | None => false end), w).

Definition mkdirSync (p : path) : M unit :=
  λ w, match fs w !! p with
       | Some _ => (Throw (EEXIST p), w)
       | None =>
           if is_directory (fs w) (parent p)
           then (Ok tt, set_fs (<[p := Directory]> (fs w)) w)
           else (Throw (ENOENT p), w)
       end.

Definition readdirSync (p : path) : M (list string) :=
  λ w, match fs w !! p with
       | Some Directory => (Ok (children p (fs w)), w)
       | Some _ => (Throw (ENOTDIR p), w)
       | None => (Throw (ENOENT p), w)
       end.

Record Stats := { st_size : Z; st_isDirectory : bool }.

(** [fs.statSync] and [fs.lstatSync] (the model has no links).  The size of
    a PDF file or of a directory is never consulted by the script. *)
Definition statSync (p : path) : M Stats :=
  λ w, match fs w !! p with
       | Some (File b) => (Ok {| st_size := byteLength b; st_isDirectory := false |}, w)
       | Some (PdfFile _) => (Ok {| st_size := 0; st_isDirectory := false |}, w)
       | Some Directory => (Ok {| st_size := 0; st_isDirectory := true |}, w)
       | None => (Throw (ENOENT p), w)
       end.

Definition readFileSync (p : path) : M entry :=
  λ w, match fs w !! p with
       | Some Directory => (Throw (EISDIR p), w)
       | Some e => (Ok e, w)
       | None => (Throw (ENOENT p), w)
       end.

(** Creating or replacing the file at [p]: its folder must exist, and [p]
    must not be a directory. *)
Definition write_file (p : path) (e : entry) (m : gmap path entry) :
    error + gmap path entry :=
  if is_directory m (parent p)
  then match m !! p with
       | Some Directory => inl (EISDIR p)
       | _ => inr (<[p := e]> m)
       end
  else inl (ENOENT p).

Definition writeFileSync (p : path) (e : entry) : M unit :=
  λ w, match write_file p e (fs w) with
       | inr m => (Ok tt, set_fs m w)
       | inl err => (Throw err, w)
       end.

Definition copyFileSync (src dest : path) : M unit :=
  e <- readFileSync src ;; writeFileSync dest e.

Definition unlinkSync (p : path) : M unit :=
  λ w, match fs w !! p with
       | Some Directory => (Throw (EISDIR p), w)
       | Some _ => (Ok tt, set_fs (delete p (fs w)) w)
       | None => (Throw (ENOENT p), w)
       end.

Definition rmdirSync (p : path) : M unit :=
  λ w, match fs w !! p with
       | Some Directory =>
           match children p (fs w) with
           | [] => (Ok tt, set_fs (delete p (fs w)) w)
           | _ :: _ => (Throw (ENOTEMPTY p), w)
           end
       | Some _ => (Throw (ENOTDIR p), w)
       | None => (Throw (ENOENT p), w)
       end.

(** ** Folders of the run *)

Definition inputFolder : path := ["IMG_BANK_ACR_TOTAL"].
Definition compressedFolder : path := ["IMG_BANK_COMPRESSED_" +:+ formattedDate].
Definition pdfFolder : path := ["output_pdfs_" +:+ formattedDate].
Definition finalPDF : path := ["IMG_BANK_ACR_" +:+ formattedDate +:+ ".pdf"].

(** Lines 21 and 22: the two working folders are created when missing. *)
Definition create_folders : M unit :=
  (b <- existsSync compressedFolder ;;
   if negb b then mkdirSync compressedFolder else ret tt) ;;
  (b <- existsSync pdfFolder ;;
   if negb b then mkdirSync pdfFolder else ret tt).

(** ** Normalizer: [validateImage], [compressImage], [analyzeAndCompressImages] *)

Definition sharp_read_metadata (inputPath : path) : M Metadata :=
  λ w, match fs w !! inputPath with
       | Some (File b) =>
           match sharp_metadata b with
           | Some metadata => (Ok metadata, w)
           | None => (Throw (UnsupportedImage inputPath), w)
           end
       | Some (PdfFile _) => (Throw (UnsupportedImage inputPath), w)
       | Some Directory => (Throw (EISDIR inputPath), w)
       | None => (Throw (ENOENT inputPath), w)
       end.

Definition validateImage (inputPath : path) : M (option Metadata) :=
  try_catch
    (metadata <- sharp_read_metadata inputPath ;;
     ret (Some metadata))
    (λ error,
     console_log (LogInvalidImage inputPath error) ;;
     ret None).

(** [sharp(inputPath).resize({ width }).jpeg({ quality }).toFile(outputPath)] *)
Definition sharp_resize_toFile (inputPath : path) (width quality : Z)
    (outputPath : path) : M unit :=
  λ w, match fs w !! inputPath with
       | Some (File b) =>
           match sharp_resize_jpeg b width quality with
           | Some b' => writeFileSync outputPath (File b') w
           | None => (Throw (ResizeFailed inputPath), w)
           end
       | Some (PdfFile _) => (Throw (UnsupportedImage inputPath), w)
       | Some Directory => (Throw (EISDIR inputPath), w)
       | None => (Throw (ENOENT inputPath), w)
       end.

Definition compressImage (inputPath outputPath : path) : M unit :=
  try_catch
    (sharp_resize_toFile inputPath TARGET_WIDTH JPEG_QUALITY outputPath ;;
     console_log (LogCompressed outputPath))
    (λ error, console_log (LogCompressError inputPath error)).

(** [stats.size / (1024 * 1024) > MAX_IMAGE_SIZE_MB]; the quotient is exact
    in doubles as well, the divisor being a power of two. *)
Definition fileSizeMB (stats : Stats) : Q :=
  (inject_Z (st_size stats) / inject_Z (1024 * 1024))%Q.

Definition over_limit (stats : Stats) : bool :=
  negb (Qle_bool (fileSizeMB stats) (inject_Z MAX_IMAGE_SIZE_MB)).

(** The body of the loop of [analyzeAndCompressImages]. *)
Definition analyzeAndCompressImage (file : string) : M unit :=
  let inputPath := path_join inputFolder file in
  let outputPath := path_join compressedFolder file in
  metadata <- validateImage inputPath ;;
  match metadata with
  | None => ret tt
  | Some _ =>
      stats <- statSync inputPath ;;
      if over_limit stats then
        console_log (LogCompressing file (st_size stats)) ;;
        compressImage inputPath outputPath
      else
        copyFileSync inputPath outputPath ;;
        console_log (LogCopied file)
  end.

Definition analyzeAndCompressImages : M unit :=
  entries <- readdirSync inputFolder ;;
  let files := filter (λ file, isImageFile file = true) entries in
  for_of files analyzeAndCompressImage.

(** ** Page Layout Engine and Intermediate Document Builder: [createPDF] *)

(** The state of one [createPDF] call: the document under construction
    (its last page is the current one) and the cursor [x], [y]; the world
    is read by [doc.openImage] and written by [console.error]. *)
Record Layout := {
  world : World;
  doc : list page;
  x : Z;
  y : Z;
}.

Definition console_error (l : logline) : ST Layout unit :=
  λ s, (Ok tt,
        {| world := {| fs := fs (world s); console := console (world s) ++ [l] |};
           doc := doc s; x := x s; y := y s |}).

Definition doc_openImage (filePath : path) : ST Layout (Z * Z) :=
  λ s, match fs (world s) !! filePath with
       | Some (File b) =>
           match pdfkit_openImage b with
           | Some img => (Ok img, s)
           | None => (Throw (UnsupportedImage filePath), s)
           end
       | Some (PdfFile _) => (Throw (UnsupportedImage filePath), s)
       | Some Directory => (Throw (EISDIR filePath), s)
       | None => (Throw (ENOENT filePath), s)
       end.

Definition doc_addPage (sz : float * float) : ST Layout unit :=
  λ s, (Ok tt,
        {| world := world s;
           doc := doc s ++ [{| page_size := sz; page_ops := [] |}];
           x := x s; y := y s |}).

(** Drawing goes to the current page; [pdfkit] throws when the document has
    no page yet (it was created with [autoFirstPage: false]). *)
Fixpoint draw_on_last (op : drawOp) (pages : list page) : option (list page) :=
  match pages with
  | [] => None
  | [p] => Some [{| page_size := page_size p; page_ops := page_ops p ++ [op] |}]
  | p :: ps => (p ::.) <$> draw_on_last op ps
  end.

Definition doc_draw (op : drawOp) : ST Layout unit :=
  λ s, match draw_on_last op (doc s) with
       | Some pages =>
           (Ok tt, {| world := world s; doc := pages; x := x s; y := y s |})
       | None => (Throw NoCurrentPage, s)
       end.

Definition doc_image (filePath : path) (x y : Z) (width height : float) :
    ST Layout unit :=
  doc_draw (DrawImage filePath x y width height).

(** Pages [pdfkit] opens by itself, each as [doc.addPage] opens one. *)
Definition doc_continue (pages : list page) : ST Layout unit :=
  λ s, (Ok tt, {| world := world s; doc := doc s ++ pages; x := x s; y := y s |}).

(** A page [pdfkit] opened to continue [text]. *)
Definition continuation (text : string) (sz : float * float) : page :=
  {| page_size := sz; page_ops := [ContinueText text] |}.

(** [doc.fontSize(10).text(text, x, y, { width, align: 'center' })]: the
    text is wrapped to the width and starts on the current page; the lines
    that would pass the bottom margin go on new pages that [pdfkit] opens,
    the last of which is the current page from then on. *)
Definition doc_text (text : string) (x : Z) (y : float) (width : Z) : ST Layout unit :=
  λ s, match last (doc s) with
       | Some current =>
           (doc_draw (DrawText text x y width) ;;
            doc_continue (continuation text <$>
              pdfkit_text_overflow (page_size current) text x y width)) s
       | None => (Throw NoCurrentPage, s)
       end.

Definition get_x : ST Layout Z := λ s, (Ok (x s), s).
Definition get_y : ST Layout Z := λ s, (Ok (y s), s).
Definition set_x (v : Z) : ST Layout unit :=
  λ s, (Ok tt, {| world := world s; doc := doc s; x := v; y := y s |}).
Definition set_y (v : Z) : ST Layout unit :=
  λ s, (Ok tt, {| world := world s; doc := doc s; x := x s; y := v |}).

(** The [try] block of the callback of [images.forEach] (lines 99 to 121). *)
Definition placeImage_body (file : string) (index : nat) : ST Layout unit :=
  let filePath := path_join compressedFolder file in
  img <- doc_openImage filePath ;;
  (if (index mod IMAGES_PER_FILE =? 0)%nat then
     doc_addPage (Number PAGE_WIDTH, Number PAGE_HEIGHT) ;;
     set_x MARGIN_X ;;
     set_y MARGIN_Y
   else ret tt) ;;
  let scale := Math_min (Number IMAGE_MAX_WIDTH / Number (fst img))%float
                        (Number IMAGE_MAX_HEIGHT / Number (snd img))%float in
  let scaledWidth := (Number (fst img) * scale)%float in
  let scaledHeight := (Number (snd img) * scale)%float in
  x0 <- get_x ;;
  y0 <- get_y ;;
  doc_image filePath x0 y0 scaledWidth scaledHeight ;;
  doc_text (basename file) x0 (Number y0 + scaledHeight + 5)%float
    IMAGE_MAX_WIDTH ;;
  set_x (x0 + (IMAGE_MAX_WIDTH + SPACING_X)) ;;
  x1 <- get_x ;;
  if x1 + IMAGE_MAX_WIDTH >? PAGE_WIDTH - MARGIN_X then
    set_x MARGIN_X ;;
    y1 <- get_y ;;
    set_y (y1 + (IMAGE_MAX_HEIGHT + SPACING_Y + 20))
  else ret tt.

(** The callback of [images.forEach] (lines 95 to 125): the block above
    under its [try]/[catch]. *)
Definition placeImage (file : string) (index : nat) : ST Layout unit :=
  try_catch
    (placeImage_body file index)
    (λ error,
     console_error (LogAddImageError (path_join compressedFolder file) error)).

Definition outputPDF_path (pdfIndex : nat) : path :=
  path_join pdfFolder
    ("IMG_BANK_ACR_" +:+ formattedDate +:+ "_output_" +:+ pretty pdfIndex +:+ ".pdf").

(** What a [createPDF] call leaves behind: a stream to [outputPDF] that will
    hold [document] when it finishes, which resolves the promise. *)
Record Task := { outputPDF : path; document : list page }.

Inductive promise :=
| Pending (t : Task)
| Rejected (e : error).

Definition start_layout (w : World) : Layout :=
  {| world := w; doc := []; x := MARGIN_X; y := MARGIN_Y |}.

(** The synchronous part of [createPDF]: the executor of the promise runs
    at once, lays the images out and ends the document. *)
Definition createPDF (images : list string) (pdfIndex : nat) : M promise :=
  try_catch
    (λ w, match forEach images placeImage (start_layout w) with
          | (Ok _, s) =>
              (Ok (Pending {| outputPDF := outputPDF_path pdfIndex;
                              document := doc s |}), world s)
          | (Throw e, s) => (Throw e, world s)
          | (Crash e, s) => (Crash e, world s)
          end)
    (λ error, ret (Rejected error)).

(** The stream finishes: the file is on disk and the promise resolves with
    its path.  A stream that cannot write emits an error event the script
    does not listen to, which ends the process. *)
Definition finish (t : Task) : M path :=
  λ w, match write_file (outputPDF t) (PdfFile (document t)) (fs w) with
       | inr m => (Ok (outputPDF t), set_fs m w)
       | inl err => (Crash err, w)
       end.

(** ** Chunker and Parallel Generation Orchestrator: [createPDFsFromImages] *)

(** The chunks the loop of lines 142 to 145 cuts, with their indices. *)
Equations? chunks (files : list string) (i : nat) : list (list string * nat)
    by wf (length files - i)%nat lt :=
  chunks files i with decide (i < length files)%nat => {
    | left _ =>
        (slice i (i + IMAGES_PER_FILE) files, (i / IMAGES_PER_FILE + 1)%nat)
          :: chunks files (i + IMAGES_PER_FILE);
    | right _ => [] }.
Proof. unfold IMAGES_PER_FILE. lia. Qed.

(** The loop itself: every chunk is handed to [createPDF] as it is cut. *)
Equations? createTasks (files : list string) (i : nat) (tasks : list promise)
    (w : World) : result (list promise) * World
    by wf (length files - i)%nat lt :=
  createTasks files i tasks w with decide (i < length files)%nat => {
    | left _ with createPDF (slice i (i + IMAGES_PER_FILE) files)
                    (i / IMAGES_PER_FILE + 1)%nat w => {
        | (Ok task, w') => createTasks files (i + IMAGES_PER_FILE) (tasks ++ [task]) w';
        | (Throw e, w') => (Throw e, w');
        | (Crash e, w') => (Crash e, w') };
    | right _ => (Ok tasks, w) }.
Proof. all: unfold IMAGES_PER_FILE; lia. Qed.

(** [Promise.all(tasks)].  The streams finish in the order [sched] (a list of
    task positions); the value of the task at position [i] is stored at
    position [i] of the result, whenever it arrives. *)
Fixpoint settle (sched : list nat) (tasks : list promise)
    (values : list (option path)) : M (list (option path)) :=
  match sched with
  | [] => ret values
  | i :: sched' =>
      match tasks !! i with
      | Some (Pending t) =>
          value <- finish t ;;
          settle sched' tasks (<[i := Some value]> values)
      | _ => settle sched' tasks values
      end
  end.

Fixpoint first_rejection (tasks : list promise) : option error :=
  match tasks with
  | [] => None
  | Rejected e :: _ => Some e
  | Pending _ :: tasks' => first_rejection tasks'
  end.

(** A promise rejected by [createPDF] is rejected before any stream
    finishes; a stream that never finishes leaves the [await] pending. *)
Definition Promise_all (sched : list nat) (tasks : list promise) : M (list path) :=
  match first_rejection tasks with
  | Some e => throw e
  | None =>
      values <- settle sched tasks (replicate (length tasks) None) ;;
      match mapM id values with
      | Some generated => ret generated
      | None => λ w, (Crash NeverSettled, w)
      end
  end.

Definition createPDFsFromImages (sched : list nat) : M (list path) :=
  entries <- readdirSync compressedFolder ;;
  let files := filter (λ file, isImageFile file = true) entries in
  tasks <- createTasks files 0 [] ;;
  generatedPDFs <- Promise_all sched tasks ;;
  console_log (LogGenerated generatedPDFs) ;;
  ret generatedPDFs.

(** ** Merger: [mergePDFs] *)

Definition PDFDocument_load (pdfBytes : entry) : M (list page) :=
  match pdfBytes with
  | PdfFile pages => ret pages
  | _ => throw InvalidPDF
  end.

Definition getPageIndices (pdfDoc : list page) : list nat :=
  seq 0 (length pdfDoc).

Definition copyPages (pdfDoc : list page) (indices : list nat) : M (list page) :=
  match mapM (λ i, pdfDoc !! i) indices with
  | Some copiedPages => ret copiedPages
  | None => throw NoSuchPage
  end.

(** [copiedPages.forEach(page => mergedPdf.addPage(page))] *)
Definition addPages (mergedPdf copiedPages : list page) : list page :=
  fold_left (λ merged page, merged ++ [page]) copiedPages mergedPdf.

Fixpoint mergeLoop (pdfPaths : list path) (mergedPdf : list page) : M (list page) :=
  match pdfPaths with
  | [] => ret mergedPdf
  | pdfPath :: rest =>
      pdfBytes <- readFileSync pdfPath ;;
      pdfDoc <- PDFDocument_load pdfBytes ;;
      copiedPages <- copyPages pdfDoc (getPageIndices pdfDoc) ;;
      mergeLoop rest (addPages mergedPdf copiedPages)
  end.

(** [mergedPdf.save()]: with its default options, [pdf-lib] adds a blank
    page, of its default size (A4), to a document that has none. *)
Definition pdflib_default_page : page :=
  {| page_size := (595.28, 841.89)%float; page_ops := [] |}.

Definition PDFDocument_save (pdfDoc : list page) : list page :=
  match pdfDoc with
  | [] => [pdflib_default_page]
  | _ :: _ => pdfDoc
  end.

Definition mergePDFs (pdfPaths : list path) : M unit :=
  mergedPdf <- mergeLoop pdfPaths [] ;;
  let mergedPdfBytes := PDFDocument_save mergedPdf in
  writeFileSync finalPDF (PdfFile mergedPdfBytes) ;;
  console_log (LogMerged finalPDF).

(** ** Cleanup: [deleteFolder] *)

(** The recursion follows the folders met on the way down, so it is bounded
    by the length of the longest path of the file system. *)
Fixpoint deleteFolder_fuel (fuel : nat) (folderPath : path) : M unit :=
  match fuel with
  | O => λ w, (Crash OutOfFuel, w)
  | S fuel' =>
      b <- existsSync folderPath ;;
      if b then
        files <- readdirSync folderPath ;;
        for_of files (λ file,
          let currentPath := path_join folderPath file in
          stats <- statSync currentPath ;;
          if st_isDirectory stats
          then deleteFolder_fuel fuel' currentPath
          else unlinkSync currentPath) ;;
        rmdirSync folderPath
      else ret tt
  end.

Definition depth (m : gmap path entry) : nat :=
  max_list (length <$> (map_to_list m).*1).

Definition deleteFolder (folderPath : path) : M unit :=
  λ w, deleteFolder_fuel (S (depth (fs w))) folderPath w.

(** ** The main process (lines 184 to 198) *)

(** The three stages that come before the cleanup. *)
Definition stages (sched : list nat) : M unit :=
  analyzeAndCompressImages ;;
  generatedPDFs <- createPDFsFromImages sched ;;
  mergePDFs generatedPDFs.

Definition cleanup : M unit :=
  deleteFolder compressedFolder ;;
  deleteFolder pdfFolder.

Definition main (sched : list nat) : M unit :=
  try_catch
    (console_log LogStart ;;
     stages sched ;;
     cleanup ;;
     console_log LogSuccess)
    (λ error, console_log (LogFailure error)).

(** The whole script: an exception at the top level ends the process. *)
Definition script (sched : list nat) : M unit :=
  λ w, match create_folders w with
       | (Ok _, w') => main sched w'
       | (Throw e, w') => (Crash e, w')
       | (Crash e, w') => (Crash e, w')
       end.

(** ** Definitions used to state the properties *)

(** [createPDF] called on a list of chunks, one after the other. *)
Fixpoint run_chunks (cs : list (list string * nat)) (tasks : list promise)
    (w : World) : result (list promise) * World :=
  match cs with
  | [] => (Ok tasks, w)
  | (chunk, pdfIndex) :: cs' =>
      match createPDF chunk pdfIndex w with
      | (Ok task, w') => run_chunks cs' (tasks ++ [task]) w'
      | (Throw e, w') => (Throw e, w')
      | (Crash e, w') => (Crash e, w')
      end
  end.

(** The advance of the cursor as the specification words it: 160 to the
    right, and when the next cell would pass 575, back to 25 and 130 down. *)
Definition next_cursor (x0 y0 : Z) : Z * Z :=
  if (x0 + 160 + 150 >? 575)%Z then (25, y0 + 130)%Z else (x0 + 160, y0)%Z.

(** The size at which an image of [img] pixels is drawn, and the height at
    which its caption starts when the image is at height [y0]. *)
Definition scaled (img : Z * Z) : float * float :=
  let scale := Math_min (Number IMAGE_MAX_WIDTH / Number (fst img))%float
                        (Number IMAGE_MAX_HEIGHT / Number (snd img))%float in
  ((Number (fst img) * scale)%float, (Number (snd img) * scale)%float).

Definition caption_y (img : Z * Z) (y0 : Z) : float :=
  (Number y0 + (scaled img).2 + 5)%float.

(** What the script draws for one image placed at [(x0, y0)]. *)
Definition cell_ops (file : string) (img : Z * Z) (x0 y0 : Z) : list drawOp :=
  [DrawImage (path_join compressedFolder file) x0 y0 (scaled img).1 (scaled img).2;
   DrawText (basename file) x0 (caption_y img y0) IMAGE_MAX_WIDTH].

(** The pages [pdfkit] opens for the caption of that image, when the
    current page has the size [sz]. *)
Definition caption_pages (sz : float * float) (file : string) (img : Z * Z)
    (x0 y0 : Z) : list page :=
  continuation (basename file) <$>
    pdfkit_text_overflow sz (basename file) x0 (caption_y img y0) IMAGE_MAX_WIDTH.

(** The size of the pages the script opens. *)
Definition PAGE_SIZE : float * float := (Number PAGE_WIDTH, Number PAGE_HEIGHT).

Definition add_ops (ops : list drawOp) (p : page) : page :=
  {| page_size := page_size p; page_ops := page_ops p ++ ops |}.

(** The state after the [catch] block logged [l]. *)
Definition log_error (l : logline) (s : Layout) : Layout :=
  {| world := {| fs := fs (world s); console := console (world s) ++ [l] |};
     doc := doc s; x := x s; y := y s |}.

(** [doc.openImage] succeeds on the normalized copy of [file]. *)
Definition openable (w : World) (file : string) (img : Z * Z) : Prop :=
  ∃ b, fs w !! path_join compressedFolder file = Some (File b)
       ∧ pdfkit_openImage b = Some img.

(** The cell of the grid with number [j] on its page: three cells a row. *)
Definition cell_x (j : nat) : Z :=
  MARGIN_X + (IMAGE_MAX_WIDTH + SPACING_X) * Z.of_nat (j mod 3).
Definition cell_y (j : nat) : Z :=
  MARGIN_Y + (IMAGE_MAX_HEIGHT + SPACING_Y + 20) * Z.of_nat (j / 3).

(** The caption of an image placed in cell [j] of a page the script opened
    fits on that page: [pdfkit] opens no page for it. *)
Definition caption_fits (file : string) (img : Z * Z) (j : nat) : Prop :=
  pdfkit_text_overflow PAGE_SIZE (basename file) (cell_x j)
    (caption_y img (cell_y j)) IMAGE_MAX_WIDTH = [].

(** The layout after the first [n] of [images], all placed, their captions
    on the page of their image. *)
Record laid_out (w : World) (images : list string) (imgs : list (Z * Z))
    (n : nat) (s : Layout) : Prop := {
  lo_world : world s = w;
  lo_pages : length (doc s) = ((n + 14) / 15)%nat;
  lo_page : ∀ j pg, doc s !! j = Some pg →
    page_size pg = PAGE_SIZE
    ∧ length (page_ops pg) = (2 * (15 `min` (n - 15 * j)))%nat;
  lo_cell : ∀ k file img,
    (k < n)%nat → images !! k = Some file → imgs !! k = Some img →
    ∃ pg, doc s !! (k / 15)%nat = Some pg
          ∧ take 2 (drop (2 * (k mod 15)) (page_ops pg)) =
              cell_ops file img (cell_x (k mod 15)) (cell_y (k mod 15));
  lo_cursor : (n mod 15 ≠ 0)%nat →
    x s = cell_x (n mod 15) ∧ y s = cell_y (n mod 15);
}.

(** The state after an image was placed on a page new for it, and on the
    current page [p]: the image and its caption are drawn on that page, and
    the pages [pdfkit] opens for the caption follow it. *)
Definition placed_on_new_page (file : string) (img : Z * Z) (s : Layout) : Layout :=
  {| world := world s;
     doc := doc s ++ {| page_size := PAGE_SIZE;
                        page_ops := cell_ops file img MARGIN_X MARGIN_Y |}
                     :: caption_pages PAGE_SIZE file img MARGIN_X MARGIN_Y;
     x := (next_cursor MARGIN_X MARGIN_Y).1;
     y := (next_cursor MARGIN_X MARGIN_Y).2 |}.

Definition placed_on_page (file : string) (img : Z * Z) (ps : list page) (p : page)
    (s : Layout) : Layout :=
  {| world := world s;
     doc := ps ++ add_ops (cell_ops file img (x s) (y s)) p
               :: caption_pages (page_size p) file img (x s) (y s);
     x := (next_cursor (x s) (y s)).1;
     y := (next_cursor (x s) (y s)).2 |}.


(** [op] was drawn for the image [file]. *)
Definition drawn_for (file : string) (op : drawOp) : Prop :=
  match op with
  | DrawImage src _ _ _ _ => src = path_join compressedFolder file
  | DrawText text _ _ _ => text = basename file
  | ContinueText text => text = basename file
  end.

(** Everything drawn on [pages] was drawn for one of [files]. *)
Definition doc_uses (files : list string) (pages : list page) : Prop :=
  ∀ pg op, pg ∈ pages → op ∈ page_ops pg →
    ∃ file, file ∈ files ∧ drawn_for file op.

(** The tasks [createPDFsFromImages] builds: the one at position [i] is
    pending and writes the document of sequence index [i + 1]. *)
Definition tasks_shape (tasks : list promise) : Prop :=
  ∀ i p, tasks !! i = Some p →
    ∃ t, p = Pending t ∧ outputPDF t = outputPDF_path (S i).

(** The image files of the source folder, in enumeration order. *)
Definition source_files (m : gmap path entry) : list string :=
  filter (λ file, isImageFile file = true) (children inputFolder m).

(** The normalized copy the Normalizer writes for a source entry, if any:
    nothing for what [sharp] cannot decode, the output of [sharp] at width
    1920 and quality 80 above the limit (nothing when [sharp] fails), the
    source bytes otherwise. *)
Definition normalized (e : option entry) : option entry :=
  match e with
  | Some (File b) =>
      match sharp_metadata b with
      | Some _ =>
          if bool_decide (byteLength b > 2 * 1024 * 1024)
          then File <$> sharp_resize_jpeg b TARGET_WIDTH JPEG_QUALITY
          else Some (File b)
      | None => None
      end
  | _ => None
  end.

(** The lines the Normalizer logs for a source entry. *)
Definition normalizer_log (file : string) (e : option entry) : list logline :=
  let inputPath := path_join inputFolder file in
  match e with
  | Some (File b) =>
      match sharp_metadata b with
      | Some _ =>
          if bool_decide (byteLength b > 2 * 1024 * 1024) then
            [LogCompressing file (byteLength b);
             match sharp_resize_jpeg b TARGET_WIDTH JPEG_QUALITY with
             | Some _ => LogCompressed (path_join compressedFolder file)
             | None => LogCompressError inputPath (ResizeFailed inputPath)
             end]
          else [LogCopied file]
      | None => [LogInvalidImage inputPath (UnsupportedImage inputPath)]
      end
  | Some (PdfFile _) => [LogInvalidImage inputPath (UnsupportedImage inputPath)]
  | Some Directory => [LogInvalidImage inputPath (EISDIR inputPath)]
  | None => [LogInvalidImage inputPath (ENOENT inputPath)]
  end.

(** The file system after the Normalizer treated one source entry. *)
Definition with_normalized (file : string) (m : gmap path entry) : gmap path entry :=
  match normalized (m !! path_join inputFolder file) with
  | Some e => <[path_join compressedFolder file := e]> m
  | None => m
  end.

(** [sharp] can decode the entry: it is a file whose bytes are an image. *)
Definition decodable (e : entry) : Prop :=
  ∃ b metadata, e = File b ∧ sharp_metadata b = Some metadata.

(** The image files of the working folder of normalized images. *)
Definition normalized_files (m : gmap path entry) : list string :=
  filter (λ file, isImageFile file = true) (children compressedFolder m).

(** No cell of [pages] was drawn for [file]. *)
Definition absent_from (file : string) (pages : list page) : Prop :=
  ∀ pg op, pg ∈ pages → op ∈ page_ops pg → ¬ drawn_for file op.

(** The same world without the source entry of [file]. *)
Definition without_source (file : string) (w : World) : World :=
  set_fs (delete (path_join inputFolder file) (fs w)) w.

(** No path of the file system is longer than [D]. *)
Definition bounded (D : nat) (m : gmap path entry) : Prop :=
  ∀ k, is_Some (m !! k) → (length k ≤ D)%nat.

(** [q] lies below [p] and every entry strictly between them, [p] included,
    is a directory. *)
Definition reachable (m : gmap path entry) (p q : path) : Prop :=
  ∀ k, p `prefix_of` k → k `prefix_of` q → k ≠ q → m !! k = Some Directory.

(** Every entry lies in directories all the way up. *)
Definition well_formed (m : gmap path entry) : Prop :=
  ∀ q k, is_Some (m !! q) → k `prefix_of` q → k ≠ q → k ≠ [] →
    m !! k = Some Directory.

(** From [w] to [w'] the folder [p] was removed with all it holds, and
    nothing else was touched. *)
Definition removes (p : path) (w w' : World) : Prop :=
  console w' = console w
  ∧ (∀ q, p `prefix_of` q → reachable (fs w) p q → fs w' !! q = None)
  ∧ (∀ q, ¬ p `prefix_of` q → fs w' !! q = fs w !! q)
  ∧ (∀ q, fs w' !! q = None ∨ fs w' !! q = fs w !! q).

(** The callback of the [forEach] of [deleteFolder]. *)
Definition delete_entry (fuel : nat) (folderPath : path) (file : string) : M unit :=
  let currentPath := path_join folderPath file in
  stats <- statSync currentPath ;;
  if st_isDirectory stats
  then deleteFolder_fuel fuel currentPath
  else unlinkSync currentPath.

(** While [deleteFolder] empties [p]: the entries still to visit are
    untouched, the visited ones are gone. *)
Definition emptying (p : path) (w0 : World) (rest : list string) (w : World) : Prop :=
  console w = console w0
  ∧ fs w !! p = Some Directory
  ∧ (∀ q, ¬ p `prefix_of` q → fs w !! q = fs w0 !! q)
  ∧ (∀ q, fs w !! q = None ∨ fs w !! q = fs w0 !! q)
  ∧ (∀ name q, name ∈ rest → path_join p name `prefix_of` q →
       fs w !! q = fs w0 !! q)
  ∧ (∀ name q, name ∉ rest → path_join p name `prefix_of` q →
       reachable (fs w0) (path_join p name) q → fs w !! q = None).

(** From [m] to [m'] files were written, in folders that were there, and
    nothing was removed: every path holds what it held, or holds a file it
    did not hold, in a directory of [m]. *)
Definition extends (m m' : gmap path entry) : Prop :=
  ∀ q, m' !! q = m !! q
       ∨ (is_directory m (parent q) = true
          ∧ m !! q ≠ Some Directory
          ∧ is_Some (m' !! q)
          ∧ m' !! q ≠ Some Directory).

(** The world when the stages begin: [main] has logged its first line. *)
Definition started (w : World) : World :=
  {| fs := fs w; console := console w ++ [LogStart] |}.

(** The directories an entry at [q] lies in, from the top down. *)
Definition ancestors (q : path) : list path :=
  (λ n, take n q) <$> seq 1 (length q - 1).

(** [well_formed], by enumeration of the entries. *)
Definition well_formed_b (m : gmap path entry) : bool :=
  forallb (λ q, forallb (is_directory m) (ancestors q)) (map_to_list m).*1.

(** ** Definitions used to state the further properties *)

(** What [doc.openImage] returns for the normalized copy of [file]. *)
Definition open_result (w : World) (file : string) : result (Z * Z) :=
  (doc_openImage (path_join compressedFolder file) (start_layout w)).1.

Definition opened (w : World) (file : string) : option (Z * Z) :=
  match open_result w file with
  | Ok img => Some img
  | _ => None
  end.

(** The images of a chunk that [pdfkit] opens, with their pixel sizes. *)
Definition placed (w : World) (images : list string) : list (string * (Z * Z)) :=
  omap (λ file, (λ img, (file, img)) <$> opened w file) images.

(** Cells filled one after the other from the first cell of a page. *)
Definition grid_ops (cells : list (string * (Z * Z))) : list drawOp :=
  concat (imap (λ j fi, cell_ops fi.1 fi.2 (cell_x j) (cell_y j)) cells).

(** The page of a chunk is opened when its first image is. *)
Definition has_first (w : World) (images : list string) : bool :=
  match images with
  | file :: _ => bool_decide (is_Some (opened w file))
  | [] => false
  end.

(** The document after one more image was drawn at [(x0, y0)]: on the
    last page, which the pages its caption needs follow. *)
Definition draw_cell (file : string) (img : Z * Z) (x0 y0 : Z) (pages : list page) :
    list page :=
  match last pages with
  | Some p =>
      removelast pages ++ add_ops (cell_ops file img x0 y0) p
        :: caption_pages (page_size p) file img x0 y0
  | None => pages
  end.

(** The document after the cells from number [j] on were filled, one after
    the other. *)
Fixpoint fill_cells (cells : list (string * (Z * Z))) (j : nat) (pages : list page) :
    list page :=
  match cells with
  | [] => pages
  | fi :: cells' =>
      fill_cells cells' (S j) (draw_cell fi.1 fi.2 (cell_x j) (cell_y j) pages)
  end.

(** The document of a chunk of at most 15 images: the page the script opens
    for its first image, filled with the images that open, and the pages
    [pdfkit] opens for the captions. *)
Definition chunk_pages (w : World) (images : list string) : list page :=
  if has_first w images
  then fill_cells (placed w images) 0 [{| page_size := PAGE_SIZE; page_ops := [] |}]
  else [].

(** What the script itself drew on [pages], page after page. *)
Definition script_op (op : drawOp) : bool :=
  match op with
  | ContinueText _ => false
  | _ => true
  end.

Definition script_ops (pages : list page) : list drawOp :=
  filter (λ op, script_op op = true) (concat (page_ops <$> pages)).

(** Every caption of the images of a chunk that open fits on the page. *)
Definition captions_fit (w : World) (images : list string) : Prop :=
  ∀ k file img, placed w images !! k = Some (file, img) → caption_fits file img k.

(** The line logged for an image of a chunk that is not drawn. *)
Definition image_log (has_page : bool) (w : World) (file : string) : option logline :=
  let filePath := path_join compressedFolder file in
  match open_result w file with
  | Ok _ => if has_page then None else Some (LogAddImageError filePath NoCurrentPage)
  | Throw e | Crash e => Some (LogAddImageError filePath e)
  end.

Definition chunk_log (w : World) (images : list string) : list logline :=
  omap (image_log (has_first w images) w) images.

(** The layout of [createPDF] after it visited the images [pre] of a chunk. *)
Definition chunk_state (w : World) (pre : list string) : Layout :=
  {| world := {| fs := fs w; console := console w ++ chunk_log w pre |};
     doc := chunk_pages w pre;
     x := if has_first w pre then cell_x (length (placed w pre)) else MARGIN_X;
     y := if has_first w pre then cell_y (length (placed w pre)) else MARGIN_Y |}.

(** The document of the task a [createPDF] call returned. *)
Definition task_document (r : result promise) : list page :=
  match r with
  | Ok (Pending t) => document t
  | _ => []
  end.

(** The task [createPDF] returns for a chunk and its sequence index. *)
Definition chunk_task (w : World) (c : list string * nat) : promise :=
  Pending {| outputPDF := outputPDF_path c.2; document := chunk_pages w c.1 |}.

(** The pages of the final document, from the normalized folder of [w]: the
    documents of its chunks, one after the other, as [pdf-lib] saves them. *)
Definition final_pages (w : World) : list page :=
  PDFDocument_save
    (concat ((λ c, chunk_pages w c.1) <$> chunks (normalized_files (fs w)) 0)).

(** The lines the layout of all chunks logs. *)
Definition layout_log (w : World) : list logline :=
  concat ((λ c, chunk_log w c.1) <$> chunks (normalized_files (fs w)) 0).

(** From [w] to [w'] nothing was written or logged, and nothing outside the
    folder [p] was removed. *)
Definition only_removes_below (p : path) (w w' : World) : Prop :=
  console w' = console w
  ∧ (∀ q, ¬ p `prefix_of` q → fs w' !! q = fs w !! q)
  ∧ (∀ q, fs w' !! q = None ∨ fs w' !! q = fs w !! q).

(** A fresh start: nothing is at or below the two working folders. *)
Definition fresh (m : gmap path entry) : Prop :=
  ∀ q, compressedFolder `prefix_of` q ∨ pdfFolder `prefix_of` q → m !! q = None.

(** The errors that end the process: a stream that cannot write its file,
    or one that never finishes. *)
Definition stream_failure (e : error) : Prop :=
  e = NeverSettled ∨ ∃ a, e = ENOENT (outputPDF_path a) ∨ e = EISDIR (outputPDF_path a).

(** [fresh], by enumeration of the entries. *)
Definition fresh_b (m : gmap path entry) : bool :=
  forallb (λ q, negb (bool_decide (compressedFolder `prefix_of` q
                                   ∨ pdfFolder `prefix_of` q)))
    (map_to_list m).*1.

End Model.

(** * A concrete instance *)

(** Image bytes reduced to what the packages look at: the size of the file,
    the pixel size when the bytes decode, and whether [sharp] manages to
    re-encode them.  The line wrapper of [pdfkit] is reduced to a count of
    lines: Helvetica at 10 points makes lines 11.56 high; 15 glyphs of the
    widest (W) fill the 150 points of a caption, and every glyph is taken as
    that wide; the bottom margin is 72; a caption that passes it goes on
    on one page of the default size of [pdfkit] (letter). *)
Record blob := { blob_size : Z; blob_dims : option (Z * Z); blob_shrinks : bool }.

(** The height reached after [n] lines of a caption that starts at [y]. *)
Fixpoint after_lines (n : nat) (y : float) : float :=
  match n with
  | O => y
  | S n' => after_lines n' (y + 11.56)%float
  end.

Definition demo : Packages := {|
  Bytes := blob;
  byteLength := blob_size;
  sharp_metadata b :=
    (λ d, {| md_width := d.1; md_height := d.2 |}) <$> blob_dims b;
  sharp_resize_jpeg b width quality :=
    if blob_shrinks b
    then Some {| blob_size := 400000;
                 blob_dims := (λ d, (width, d.2 * width / d.1)) <$> blob_dims b;
                 blob_shrinks := true |}
    else None;
  pdfkit_openImage := blob_dims;
  pdfkit_text_overflow size text x y width :=
    let lines := ((String.length text + 14) / 15)%nat in
    if (size.2 - 72 <? after_lines lines y)%float
    then [(612, 792)%float]
    else [];
  formattedDate := "2024-05-17";
|}.

Definition photo (bytes : Z) : blob :=
  {| blob_size := bytes; blob_dims := Some (3000, 2000); blob_shrinks := true |}.
Definition stubborn (bytes : Z) : blob :=
  {| blob_size := bytes; blob_dims := Some (4000, 3000); blob_shrinks := false |}.
Definition corrupt : blob :=
  {| blob_size := 512; blob_dims := None; blob_shrinks := false |}.

Section Demo.
#[local] Existing Instance demo.

(** A source folder with a small image, a large one, a corrupt one, a large
    one [sharp] cannot re-encode, and a text file; the two working folders
    are there and empty, as the script creates them. *)
Definition demo_world : World :=
  {| fs := list_to_map
       [ (inputFolder, Directory);
         (path_join inputFolder "a.jpg", File (photo 150000));
         (path_join inputFolder "b.PNG", File (photo 3500000));
         (path_join inputFolder "c.jpeg", File corrupt);
         (path_join inputFolder "d.jpg", File (stubborn 5000000));
         (path_join inputFolder "notes.txt", File corrupt);
         (compressedFolder, Directory);
         (pdfFolder, Directory) ];
     console := [] |}.

(** A normalized folder with three images, of which the second is missing
    on disk when the document is laid out. *)
Definition demo_layout_world : World :=
  {| fs := list_to_map
       [ (compressedFolder, Directory);
         (path_join compressedFolder "a.jpg", File (photo 150000));
         (path_join compressedFolder "c.jpg", File (photo 150000)) ];
     console := [] |}.

(** The same with the second image in place. *)
Definition demo_layout_world_ok : World :=
  {| fs := <[path_join compressedFolder "b.jpg" := File (photo 150000)]>
             (fs demo_layout_world);
     console := [] |}.

Definition demo_page (name : string) : page :=
  {| page_size := (600, 800)%float;
     page_ops := cell_ops name (3000, 2000) 25 25 |}.

(** Two intermediate documents on disk, of one and two pages. *)
Definition demo_merge_world : World :=
  {| fs := list_to_map
       [ (pdfFolder, Directory);
         (outputPDF_path 1, PdfFile [demo_page "a.jpg"]);
         (outputPDF_path 2, PdfFile [demo_page "b.jpg"; demo_page "c.jpg"]) ];
     console := [] |}.

(** A normalized folder of sixteen images: two chunks. *)
Definition demo_world16 : World :=
  {| fs := list_to_map
       ((compressedFolder, Directory) :: (pdfFolder, Directory)
        :: ((λ n : nat, (path_join compressedFolder ("img" +:+ pretty n +:+ ".jpg"),
                         File (photo 150000))) <$> seq 0 16));
     console := [] |}.

(** The demo world with a directory where the final document should go. *)
Definition demo_blocked_world : World :=
  set_fs (<[finalPDF := Directory]> (fs demo_world)) demo_world.

(** An intermediate document without a page: what a chunk leaves when its
    first image does not open. *)
Definition demo_pageless_world : World :=
  {| fs := list_to_map
       [ (pdfFolder, Directory);
         (outputPDF_path 1, PdfFile []) ];
     console := [] |}.

(** A file name of 120 wide glyphs: at 15 a line, a caption of nine lines. *)
Definition demo_long_name : string :=
  string_of_list_ascii (replicate 120 "W"%char) +:+ ".jpg".

(** A chunk of 15 images, the 13th with the long name. *)
Definition demo_long_chunk : list string :=
  ((λ n : nat, "img" +:+ pretty n +:+ ".jpg") <$> seq 0 12)
    ++ [demo_long_name; "img13.jpg"; "img14.jpg"].

(** The normalized folder of sixteen images with the long-named one. *)
Definition demo_long_world : World :=
  set_fs (<[path_join compressedFolder demo_long_name := File (photo 150000)]>
            (fs demo_world16)) demo_world16.

(** A layout in progress: one image placed, the cursor at [(x0, y0)]. *)
Definition demo_layout (w : World) (x0 y0 : Z) : Layout :=
  {| world := w; doc := [demo_page "a.jpg"]; x := x0; y := y0 |}.

(** A first run of the day: the source folder with a small image, a large
    one, a corrupt one and a text file, and no working folder yet. *)
Definition demo_fresh_world : World :=
  {| fs := list_to_map
       [ (inputFolder, Directory);
         (path_join inputFolder "a.jpg", File (photo 150000));
         (path_join inputFolder "b.PNG", File (photo 3500000));
         (path_join inputFolder "c.jpeg", File corrupt);
         (path_join inputFolder "notes.txt", File corrupt) ];
     console := [] |}.

(** A source folder without any image. *)
Definition demo_empty_world : World :=
  {| fs := list_to_map
       [ (inputFolder, Directory);
         (path_join inputFolder "notes.txt", File corrupt) ];
     console := [] |}.

(** No source folder at all. *)
Definition demo_lost_world : World :=
  {| fs := list_to_map [ (["notes.txt"], File corrupt) ]; console := [] |}.

(** A folder with a file and a sub-folder, beside a file to keep. *)
Definition demo_tree_world : World :=
  {| fs := list_to_map
       [ (["tmp"], Directory);
         (["tmp"; "a.txt"], File corrupt);
         (["tmp"; "sub"], Directory);
         (["tmp"; "sub"; "b.txt"], File corrupt);
         (["keep.txt"], File corrupt) ];
     console := [] |}.

(** The demo world after a run that failed earlier the same day: a
    normalized image is still in the working folder, and the source folder
    no longer has it. *)
Definition demo_stale_world : World :=
  set_fs (<[path_join compressedFolder "old.jpg" := File (photo 150000)]> (fs demo_world))
    demo_world.

(** The demo world with a file of an earlier run in the place of the
    normalized copy of d.jpg. *)
Definition demo_stale_copy_world : World :=
  set_fs (<[path_join compressedFolder "d.jpg" := File (photo 150000)]> (fs demo_world))
    demo_world.

End Demo.

(** * Properties *)

#[local] Arguments Nat.div : simpl never.
#[local] Arguments Nat.modulo : simpl never.
#[local] Arguments path_join : simpl never.
#[local] Arguments Number : simpl never.
#[local] Arguments Math_min : simpl never.
#[local] Arguments scaled : simpl never.
#[local] Arguments caption_y : simpl never.
Local Open Scope nat_scope.

Section Properties.
Context `{Packages}.

(** ** Chunker *)

Lemma chunks_lt files i :
  i < length files →
  chunks files i =
    (slice i (i + IMAGES_PER_FILE) files, i / IMAGES_PER_FILE + 1)
      :: chunks files (i + IMAGES_PER_FILE).
Proof.
  intros Hi. rewrite chunks_equation_1.
  destruct (decide (i < length files)); [reflexivity | lia].
Qed.

Lemma chunks_ge files i : length files ≤ i → chunks files i = [].
Proof.
  intros Hi. rewrite chunks_equation_1.
  destruct (decide (i < length files)); [lia | reflexivity].
Qed.

(** Induction along the loop counter. *)
Lemma loop_ind (files : list string) (P : nat → Prop) :
  (∀ i, length files ≤ i → P i) →
  (∀ i, i < length files → P (i + IMAGES_PER_FILE) → P i) →
  ∀ i, P i.
Proof.
  intros Hstop Hstep i.
  remember (length files - i) as n eqn:Hn. revert i Hn.
  induction n as [n IH] using lt_wf_ind. intros i Hn.
  destruct (decide (i < length files)) as [Hlt | Hge].
  - apply Hstep; [done |]. apply (IH (length files - (i + IMAGES_PER_FILE))); [| done].
    unfold IMAGES_PER_FILE. lia.
  - apply Hstop. lia.
Qed.

Lemma chunks_length files i :
  length (chunks files i) = (length files - i + 14) / 15.
Proof.
  induction i as [i Hi | i Hi IH] using (loop_ind files).
  - rewrite chunks_ge by done. simpl.
    replace (length files - i) with 0 by lia. reflexivity.
  - rewrite chunks_lt by done. cbn [length]. rewrite IH. unfold IMAGES_PER_FILE. lia.
Qed.

Lemma chunks_lookup files i k c idx :
  chunks files i !! k = Some (c, idx) →
  i + 15 * k < length files
  ∧ c = slice (i + 15 * k) (i + 15 * k + 15) files
  ∧ idx = (i + 15 * k) / 15 + 1.
Proof.
  revert i. induction k as [|k IH]; intros i.
  - destruct (decide (i < length files)) as [Hlt | Hge].
    + rewrite chunks_lt by done. simpl. intros [= <- <-].
      unfold IMAGES_PER_FILE. rewrite !Nat.add_0_r. done.
    + rewrite chunks_ge by lia. done.
  - destruct (decide (i < length files)) as [Hlt | Hge].
    + rewrite chunks_lt by done. rewrite lookup_cons. intros Hk.
      apply IH in Hk. unfold IMAGES_PER_FILE in Hk.
      replace (i + 15 * S k) with (i + 15 + 15 * k) by lia. done.
    + rewrite chunks_ge by lia. done.
Qed.

Lemma chunks_concat files i : concat (chunks files i).*1 = drop i files.
Proof.
  induction i as [i Hi | i Hi IH] using (loop_ind files).
  - rewrite chunks_ge by done. rewrite drop_ge by done. reflexivity.
  - rewrite chunks_lt by done. rewrite fmap_cons, concat_cons. cbn [fst]. rewrite IH. unfold slice.
    replace (i + IMAGES_PER_FILE - i) with IMAGES_PER_FILE by lia.
    rewrite <- drop_drop. apply take_drop.
Qed.

Lemma createTasks_chunks files i tasks w :
  createTasks files i tasks w = run_chunks (chunks files i) tasks w.
Proof.
  revert tasks w.
  induction i as [i Hi | i Hi IH] using (loop_ind files); intros tasks w.
  - rewrite chunks_ge by done. rewrite createTasks_equation_1.
    destruct (decide (i < length files)); [lia | reflexivity].
  - rewrite chunks_lt by done. rewrite createTasks_equation_1.
    destruct (decide (i < length files)); [| lia]. simpl.
    destruct (createPDF _ _ w) as [[task | e | e] w']; simpl; [apply IH | done | done].
Qed.

Lemma slice_length {A} (l : list A) i j :
  length (slice i j l) = (j - i) `min` (length l - i).
Proof. unfold slice. rewrite length_take, length_drop. done. Qed.

(** C1: the chunker cuts a list of N images into ceil(N / 15) chunks, numbered
    1, 2, ... in order; every chunk but the last holds exactly 15 images (the
    last between 1 and 15); the chunks in index order concatenate to the
    input list; and these are the chunks the loop hands to [createPDF]. *)
Theorem C1_chunker_partition (files : list string) :
  let cs := chunks files 0 in
  length cs = (length files + 14) / 15
  ∧ (length files ≤ 15 * length cs ∧ 15 * length cs < length files + 15)
  ∧ (∀ k c idx, cs !! k = Some (c, idx) →
       idx = S k ∧ 1 ≤ length c ≤ 15 ∧ (S k < length cs → length c = 15))
  ∧ concat cs.*1 = files
  ∧ (∀ w, createTasks files 0 [] w = run_chunks cs [] w).
Proof.
  intros cs.
  assert (Hlen : length cs = (length files + 14) / 15).
  { unfold cs. rewrite chunks_length. f_equal. lia. }
  split; [done |]. split; [lia |]. split; [| split].
  - intros k c idx Hk. apply chunks_lookup in Hk as (Hlt & -> & ->).
    rewrite slice_length. simpl in *.
    split; [lia |]. split; lia.
  - unfold cs. rewrite chunks_concat. reflexivity.
  - intros w. apply createTasks_chunks.
Qed.

(** ** Page layout *)

Lemma draw_on_last_snoc op ps p :
  draw_on_last op (ps ++ [p]) = Some (ps ++ [add_ops [op] p]).
Proof.
  induction ps as [|q ps IH]; [reflexivity |].
  simpl. rewrite IH. destruct (ps ++ [p]) eqn:E; [by destruct ps |]. reflexivity.
Qed.

Lemma draw_on_last_nil op : draw_on_last op [] = None.
Proof. reflexivity. Qed.

Lemma doc_openImage_ok s file img :
  openable (world s) file img →
  doc_openImage (path_join compressedFolder file) s = (Ok img, s).
Proof. intros (b & Hb & Himg). unfold doc_openImage. rewrite Hb, Himg. reflexivity. Qed.

Lemma doc_openImage_inv p s r s' :
  doc_openImage p s = (r, s') → s' = s ∧ ∀ e, r ≠ Crash e.
Proof.
  unfold doc_openImage. intros Heq.
  repeat case_match; injection Heq as <- <-; (split; [reflexivity | intros ?; discriminate]).
Qed.

Lemma doc_openImage_Ok_inv file s img s0 :
  doc_openImage (path_join compressedFolder file) s = (Ok img, s0) →
  s0 = s ∧ openable (world s) file img.
Proof.
  unfold doc_openImage, openable. intros Heq.
  repeat case_match; try discriminate. injection Heq as <- <-. eauto.
Qed.

Lemma doc_image_snoc filePath x0 y0 width height s ps p :
  doc s = ps ++ [p] →
  doc_image filePath x0 y0 width height s =
    (Ok tt, {| world := world s;
               doc := ps ++ [add_ops [DrawImage filePath x0 y0 width height] p];
               x := x s; y := y s |}).
Proof.
  intros Hdoc. unfold doc_image, doc_draw. rewrite Hdoc, draw_on_last_snoc. reflexivity.
Qed.

Lemma doc_text_snoc text x0 y0 width s ps p :
  doc s = ps ++ [p] →
  doc_text text x0 y0 width s =
    (Ok tt, {| world := world s;
               doc := ps ++ add_ops [DrawText text x0 y0 width] p
                        :: (continuation text <$>
                              pdfkit_text_overflow (page_size p) text x0 y0 width);
               x := x s; y := y s |}).
Proof.
  intros Hdoc. unfold doc_text, doc_draw, doc_continue, bind.
  rewrite Hdoc, last_snoc, draw_on_last_snoc. cbn [world doc x y].
  rewrite <- app_assoc. reflexivity.
Qed.

Lemma add_ops_add_ops ops1 ops2 p :
  add_ops ops2 (add_ops ops1 p) = add_ops (ops1 ++ ops2) p.
Proof. unfold add_ops. cbn [page_size page_ops]. by rewrite app_assoc. Qed.

Lemma placeImage_body_new_page file index s img :
  openable (world s) file img →
  index mod IMAGES_PER_FILE = 0 →
  placeImage_body file index s = (Ok tt, placed_on_new_page file img s).
Proof.
  intros Hopen Hidx. unfold placeImage_body, bind.
  rewrite (doc_openImage_ok _ _ _ Hopen). rewrite Hidx.
  cbn [Nat.eqb doc_addPage set_x set_y get_x get_y world doc x y].
  erewrite doc_image_snoc by reflexivity. cbn [world doc x y].
  erewrite doc_text_snoc by reflexivity. cbn [world doc x y].
  reflexivity.
Qed.

Lemma placeImage_body_same_page file index s img ps p :
  openable (world s) file img →
  index mod IMAGES_PER_FILE ≠ 0 →
  doc s = ps ++ [p] →
  placeImage_body file index s = (Ok tt, placed_on_page file img ps p s).
Proof.
  intros Hopen Hidx Hdoc. unfold placeImage_body, bind.
  rewrite (doc_openImage_ok _ _ _ Hopen).
  destruct (index mod IMAGES_PER_FILE =? 0) eqn:E; [apply Nat.eqb_eq in E; done |].
  cbn [ret get_x get_y set_x set_y world doc x y].
  erewrite doc_image_snoc by exact Hdoc. cbn [world doc x y].
  erewrite doc_text_snoc by reflexivity. cbn [world doc x y].
  rewrite add_ops_add_ops. cbn [add_ops page_size].
  unfold placed_on_page, next_cursor.
  change (x s + (IMAGE_MAX_WIDTH + SPACING_X) + IMAGE_MAX_WIDTH >? PAGE_WIDTH - MARGIN_X)%Z
    with (x s + 160 + 150 >? 575)%Z.
  destruct (x s + 160 + 150 >? 575)%Z; reflexivity.
Qed.

Lemma placeImage_body_no_page file index s img :
  openable (world s) file img →
  index mod IMAGES_PER_FILE ≠ 0 →
  doc s = [] →
  placeImage_body file index s = (Throw NoCurrentPage, s).
Proof.
  intros Hopen Hidx Hdoc. unfold placeImage_body, bind.
  rewrite (doc_openImage_ok _ _ _ Hopen).
  destruct (index mod IMAGES_PER_FILE =? 0) eqn:E; [apply Nat.eqb_eq in E; done |].
  simpl. unfold doc_image, doc_draw. simpl. rewrite Hdoc. reflexivity.
Qed.

Lemma placeImage_body_open_fails file index s e s0 :
  doc_openImage (path_join compressedFolder file) s = (Throw e, s0) →
  placeImage_body file index s = (Throw e, s).
Proof.
  intros Hopen. unfold placeImage_body, bind.
  destruct (doc_openImage_inv _ _ _ _ Hopen) as [-> _]. rewrite Hopen. reflexivity.
Qed.

(** The try block either runs to its end, placing the image, or throws
    before it changed anything. *)
Lemma placeImage_body_cases file index s r s1 :
  placeImage_body file index s = (r, s1) →
  (∃ e, r = Throw e ∧ s1 = s)
  ∨ (r = Ok tt ∧ ∃ img, openable (world s) file img
       ∧ ((index mod IMAGES_PER_FILE = 0 ∧ s1 = placed_on_new_page file img s)
          ∨ (index mod IMAGES_PER_FILE ≠ 0
             ∧ ∃ ps p, doc s = ps ++ [p] ∧ s1 = placed_on_page file img ps p s))).
Proof.
  intros Hbody.
  destruct (doc_openImage (path_join compressedFolder file) s) as [[img | e | e] s0] eqn:Hopen.
  - apply doc_openImage_Ok_inv in Hopen as [-> Hopen].
    destruct (decide (index mod IMAGES_PER_FILE = 0)) as [Hidx | Hidx].
    + rewrite (placeImage_body_new_page _ _ _ img) in Hbody by done.
      injection Hbody as <- <-. right. eauto 10.
    + destruct (doc s) as [|p ps _] eqn:Hdoc using rev_ind.
      * rewrite (placeImage_body_no_page _ _ _ img) in Hbody by done.
        injection Hbody as <- <-. left. eauto.
      * rewrite (placeImage_body_same_page _ _ _ img ps p) in Hbody by done.
        injection Hbody as <- <-. right. split; [done |]. exists img. split; [done |].
        right. eauto.
  - rewrite (placeImage_body_open_fails _ _ _ _ _ Hopen) in Hbody.
    injection Hbody as <- <-. left. eauto.
  - apply doc_openImage_inv in Hopen as [_ Hno]. by destruct (Hno e).
Qed.

Lemma placeImage_new_page file index s img :
  openable (world s) file img →
  index mod IMAGES_PER_FILE = 0 →
  placeImage file index s = (Ok tt, placed_on_new_page file img s).
Proof.
  intros Hopen Hidx. unfold placeImage, try_catch.
  rewrite (placeImage_body_new_page _ _ _ img) by done. reflexivity.
Qed.

Lemma placeImage_same_page file index s img ps p :
  openable (world s) file img →
  index mod IMAGES_PER_FILE ≠ 0 →
  doc s = ps ++ [p] →
  placeImage file index s = (Ok tt, placed_on_page file img ps p s).
Proof.
  intros Hopen Hidx Hdoc. unfold placeImage, try_catch.
  rewrite (placeImage_body_same_page _ _ _ img ps p) by done. reflexivity.
Qed.

Lemma placeImage_skips file index s e s1 :
  placeImage_body file index s = (Throw e, s1) →
  placeImage file index s =
    (Ok tt, log_error (LogAddImageError (path_join compressedFolder file) e) s).
Proof.
  intros Hbody. unfold placeImage, try_catch.
  destruct (placeImage_body_cases _ _ _ _ _ Hbody) as [(e' & [= <-] & ->) | [[=] _]].
  rewrite Hbody. reflexivity.
Qed.

(** The callback never throws: [forEach] always goes on to the next image. *)
Lemma placeImage_returns file index s : ∃ s', placeImage file index s = (Ok tt, s').
Proof.
  destruct (placeImage_body file index s) as [r s1] eqn:Hbody.
  destruct (placeImage_body_cases _ _ _ _ _ Hbody) as [(e & -> & ->) | [-> _]].
  - rewrite (placeImage_skips _ _ _ _ _ Hbody). eauto.
  - unfold placeImage, try_catch. rewrite Hbody. eauto.
Qed.

(** C3 (amended): an image whose try block throws is logged and skipped, the
    rest of the chunk is still processed, and neither the document nor the
    cursor moves: the next image takes the cell the failed one would have
    taken. *)
Theorem C3_failed_image_skipped_in_place (file : string) (index : nat)
    (rest : list string) (s s1 : Layout) (e : error) :
  placeImage_body file index s = (Throw e, s1) →
  let s' := log_error (LogAddImageError (path_join compressedFolder file) e) s in
  placeImage file index s = (Ok tt, s')
  ∧ console (world s') =
      console (world s) ++ [LogAddImageError (path_join compressedFolder file) e]
  ∧ doc s' = doc s ∧ x s' = x s ∧ y s' = y s
  ∧ forEach_from index (file :: rest) placeImage s =
      forEach_from (S index) rest placeImage s'.
Proof.
  intros Hbody s'. pose proof (placeImage_skips _ _ _ _ _ Hbody) as Hskip.
  repeat split; try done.
  cbn [forEach_from]. unfold bind at 1. rewrite Hskip. reflexivity.
Qed.

(** C5: when an image is placed (its try block runs to the end), it is drawn
    at the cursor [(x0, y0)] (the margin after a page break) on the page that
    is current: the last page of the document, followed only by the pages
    [pdfkit] opens when the caption does not fit; and the cursor moves to
    [x0 + 160], unless [x0 + 160 + 150] exceeds [575]: then [x] returns to
    [25] and [y] grows by [130]. *)
Theorem C5_cursor_advance_and_wrap (file : string) (index : nat) (s s' : Layout) :
  placeImage_body file index s = (Ok tt, s') →
  let x0 := if (index mod 15 =? 0)%nat then 25%Z else x s in
  let y0 := if (index mod 15 =? 0)%nat then 25%Z else y s in
  (∃ ps pg img,
     doc s' = ps ++ pg :: caption_pages (page_size pg) file img x0 y0
     ∧ cell_ops file img x0 y0 `suffix_of` page_ops pg
     ∧ (caption_pages (page_size pg) file img x0 y0 = [] → last (doc s') = Some pg))
  ∧ ((x0 + (150 + 10) + 150 ≤ 600 - 25)%Z →
       x s' = (x0 + (150 + 10))%Z ∧ y s' = y0)
  ∧ ((x0 + (150 + 10) + 150 > 600 - 25)%Z →
       x s' = 25%Z ∧ y s' = (y0 + (100 + 10 + 20))%Z).
Proof.
  intros Hbody x0 y0.
  destruct (placeImage_body_cases _ _ _ _ _ Hbody)
    as [(e & [=] & _) | (_ & img & Hopen & [[Hidx ->] | (Hidx & ps & p & Hdoc & ->)])].
  - unfold x0, y0. change 15 with IMAGES_PER_FILE. rewrite Hidx.
    cbn [Nat.eqb placed_on_new_page doc x y]. split; [| split].
    + exists (doc s), {| page_size := PAGE_SIZE;
                         page_ops := cell_ops file img MARGIN_X MARGIN_Y |}, img.
      cbn [page_size page_ops]. split; [reflexivity |]. split; [done |].
      intros Hfit. change (caption_pages PAGE_SIZE file img MARGIN_X MARGIN_Y = []) in Hfit.
      rewrite Hfit. apply last_snoc.
    + intros _. done.
    + intros Hgt. done.
  - unfold x0, y0. change 15 with IMAGES_PER_FILE.
    destruct (index mod IMAGES_PER_FILE =? 0) eqn:E; [apply Nat.eqb_eq in E; done |].
    cbn [placed_on_page doc x y]. split; [| split].
    + exists ps, (add_ops (cell_ops file img (x s) (y s)) p), img.
      cbn [add_ops page_size page_ops]. split; [reflexivity |].
      split; [by apply suffix_app_r |].
      intros ->. apply last_snoc.
    + intros Hle. unfold next_cursor.
      destruct (Z.gtb_spec (x s + 160 + 150) 575); [lia |]. cbn [fst snd]. lia.
    + intros Hgt. unfold next_cursor.
      destruct (Z.gtb_spec (x s + 160 + 150) 575); [| lia]. cbn [fst snd]. lia.
Qed.

Lemma next_cursor_cell j :
  next_cursor (cell_x j) (cell_y j) = (cell_x (S j), cell_y (S j)).
Proof.
  unfold next_cursor, cell_x, cell_y,
    MARGIN_X, MARGIN_Y, IMAGE_MAX_WIDTH, IMAGE_MAX_HEIGHT, SPACING_X, SPACING_Y.
  destruct (Z.gtb_spec (25 + (150 + 10) * Z.of_nat (j mod 3) + 160 + 150) 575);
    f_equal; lia.
Qed.

Lemma laid_out_start w images imgs : laid_out w images imgs 0 (start_layout w).
Proof.
  split; simpl; try done.
  - intros k file img Hk. lia.
Qed.

Lemma take_drop_app_l {A} (l1 l2 : list A) i n :
  i + n ≤ length l1 → take n (drop i (l1 ++ l2)) = take n (drop i l1).
Proof.
  intros Hle. rewrite drop_app. rewrite take_app.
  replace (n - length (drop i l1)) with 0 by (rewrite length_drop; lia).
  rewrite take_0, app_nil_r. reflexivity.
Qed.

Lemma caption_fits_pages file img j :
  caption_fits file img j →
  caption_pages PAGE_SIZE file img (cell_x j) (cell_y j) = [].
Proof. unfold caption_fits, caption_pages. by intros ->. Qed.

Lemma laid_out_step w images imgs n s file img :
  laid_out w images imgs n s →
  images !! n = Some file → imgs !! n = Some img →
  openable w file img →
  caption_fits file img (n mod 15) →
  ∃ s', placeImage file n s = (Ok tt, s') ∧ laid_out w images imgs (S n) s'.
Proof.
  intros [Hw Hlen Hpage Hcell Hcur] Hfile Himg Hopen Hfit.
  rewrite <- Hw in Hopen. apply caption_fits_pages in Hfit.
  destruct (decide (n mod 15 = 0)) as [Hbreak | Hsame].
  - eexists. split; [apply (placeImage_new_page _ _ _ img); done |].
    unfold placed_on_new_page.
    rewrite Hbreak in Hfit.
    change (caption_pages PAGE_SIZE file img MARGIN_X MARGIN_Y = []) in Hfit.
    rewrite Hfit.
    split; cbn [world doc x y fst snd page_ops page_size].
    + done.
    + rewrite length_app. simpl. rewrite Hlen. lia.
    + intros j pg Hj. apply lookup_app_Some in Hj as [Hj | [Hge Hj]].
      * pose proof (lookup_lt_Some _ _ _ Hj) as Hlt.
        apply Hpage in Hj as [? Hops]. split; [done |]. rewrite Hops. lia.
      * rewrite Hlen in *. apply list_lookup_singleton_Some in Hj as [Hj0 <-].
        cbn [page_ops page_size cell_ops length]. split; [done |]. lia.
    + intros k file' img' Hk Hfile' Himg'.
      destruct (decide (k = n)) as [-> | Hne].
      * assert (file' = file) as -> by congruence.
        assert (img' = img) as -> by congruence.
        eexists. split.
        { rewrite lookup_app_r by (rewrite Hlen; lia).
          replace (n / 15 - length (doc s)) with 0 by (rewrite Hlen; lia). reflexivity. }
        cbn [page_ops]. rewrite Hbreak. reflexivity.
      * destruct (Hcell k file' img') as (pg & Hpg & Hops); [lia | done | done |].
        exists pg. split; [| done]. apply lookup_app_l_Some. done.
    + intros _. replace (S n mod 15) with 1 by lia. split; reflexivity.
  - destruct (doc s) as [|p0 d0] eqn:Hdoc using rev_ind.
    { simpl in Hlen. lia. }
    clear IHd0.
    assert (Hlast : length d0 = n / 15).
    { rewrite length_app in Hlen. simpl in Hlen. lia. }
    destruct (Hpage (n / 15) p0) as [Hsize Hops].
    { rewrite lookup_app_r by lia. replace (n / 15 - length d0) with 0 by lia. done. }
    destruct (Hcur Hsame) as [Hx Hy].
    eexists. split; [apply (placeImage_same_page _ _ _ img d0 p0); done |].
    unfold placed_on_page.
    rewrite Hx, Hy, next_cursor_cell, Hsize, Hfit.
    split; cbn [world doc x y fst snd page_ops page_size].
    + done.
    + rewrite length_app in *. simpl in *. lia.
    + intros j pg Hj. apply lookup_app_Some in Hj as [Hj | [Hge Hj]].
      * pose proof (lookup_lt_Some _ _ _ Hj) as Hlt.
        destruct (Hpage j pg) as [? Hops']; [by apply lookup_app_l_Some |].
        split; [done |]. rewrite Hops'. lia.
      * apply list_lookup_singleton_Some in Hj as [Hj0 <-]. cbn [add_ops page_ops page_size].
        split; [done |]. rewrite length_app, Hops. cbn [cell_ops length]. lia.
    + intros k file' img' Hk Hfile' Himg'.
      destruct (decide (k = n)) as [-> | Hne].
      * assert (file' = file) as -> by congruence.
        assert (img' = img) as -> by congruence.
        eexists. split.
        { rewrite lookup_app_r by lia.
          replace (n / 15 - length d0) with 0 by lia. reflexivity. }
        cbn [add_ops page_ops]. rewrite drop_app_length'; [reflexivity |]. rewrite Hops. lia.
      * destruct (Hcell k file' img') as (pg & Hpg & Hops'); [lia | done | done |].
        apply lookup_app_Some in Hpg as [Hpg | [Hge Hpg]].
        { exists pg. split; [| done]. by apply lookup_app_l_Some. }
        apply list_lookup_singleton_Some in Hpg as [Hj0 <-].
        eexists. split.
        { rewrite lookup_app_r by lia.
          replace (k / 15 - length d0) with 0 by lia. reflexivity. }
        cbn [add_ops page_ops]. rewrite take_drop_app_l; [done |]. rewrite Hops. lia.
    + intros Hnext. replace (S n mod 15) with (S (n mod 15)) by lia. done.
Qed.

Lemma laid_out_loop w images imgs :
  Forall2 (openable w) images imgs →
  (∀ k file img, images !! k = Some file → imgs !! k = Some img →
     caption_fits file img (k mod 15)) →
  ∀ rest pre s,
    images = pre ++ rest →
    laid_out w images imgs (length pre) s →
    ∃ s', forEach_from (length pre) rest placeImage s = (Ok tt, s')
          ∧ laid_out w images imgs (length images) s'.
Proof.
  intros Hall Hfits rest. induction rest as [|file rest IH]; intros pre s Himages Hinv.
  - exists s. split; [reflexivity |]. subst images. rewrite app_nil_r in *. done.
  - assert (Hfile : images !! length pre = Some file).
    { rewrite Himages. apply list_lookup_middle. done. }
    destruct (Forall2_lookup_l _ _ _ _ _ Hall Hfile) as (img & Himg & Hopen).
    destruct (laid_out_step _ _ _ _ _ _ _ Hinv Hfile Himg Hopen (Hfits _ _ _ Hfile Himg))
      as (s1 & Hstep & Hinv1).
    destruct (IH (pre ++ [file]) s1) as (s' & Hloop & Hinv').
    { rewrite <- app_assoc. done. }
    { rewrite length_app, Nat.add_1_r. done. }
    exists s'. split; [| done].
    cbn [forEach_from]. unfold bind at 1. rewrite Hstep.
    rewrite length_app, Nat.add_1_r in Hloop. done.
Qed.

(** C4 (amended): when every image of the list can be placed and every
    caption fits on the page of its image, the document has one page for
    every 15 images: image [k] is the cell number [k mod 15] of page
    [k / 15], so a page (of 600 by 800) begins, with the cursor back at
    (25, 25), exactly before the images whose index is a multiple of 15; the
    15 cells of a page lie between its margins, and a chunk of 1 to 15 images
    gives a document of exactly one page. *)
Theorem C4_page_breaks (images : list string) (imgs : list (Z * Z))
    (pdfIndex : nat) (w : World) :
  Forall2 (openable w) images imgs →
  (∀ k file img, images !! k = Some file → imgs !! k = Some img →
     caption_fits file img (k mod 15)) →
  ∃ pages,
    createPDF images pdfIndex w =
      (Ok (Pending {| outputPDF := outputPDF_path pdfIndex; document := pages |}), w)
    ∧ length pages = (length images + 14) / 15
    ∧ (∀ j pg, pages !! j = Some pg →
         page_size pg = (600, 800)%float
         ∧ length (page_ops pg) = 2 * (15 `min` (length images - 15 * j)))
    ∧ (∀ k file img, images !! k = Some file → imgs !! k = Some img →
         ∃ pg, pages !! (k / 15) = Some pg
               ∧ take 2 (drop (2 * (k mod 15)) (page_ops pg)) =
                   cell_ops file img (cell_x (k mod 15)) (cell_y (k mod 15))
               ∧ (k mod 15 = 0 →
                    take 2 (page_ops pg) = cell_ops file img 25 25))
    ∧ (∀ j, j < 15 →
         (MARGIN_X ≤ cell_x j ∧ cell_x j + IMAGE_MAX_WIDTH ≤ PAGE_WIDTH - MARGIN_X
          ∧ MARGIN_Y ≤ cell_y j
          ∧ cell_y j + IMAGE_MAX_HEIGHT ≤ PAGE_HEIGHT - MARGIN_Y)%Z)
    ∧ (1 ≤ length images ≤ 15 → length pages = 1).
Proof.
  intros Hall Hfits.
  destruct (laid_out_loop w images imgs Hall Hfits images [] (start_layout w))
    as (s' & Hloop & [Hw Hlen Hpage Hcell Hcur]);
    [done | apply laid_out_start |].
  exists (doc s'). split; [| split; [| split; [| split; [| split]]]].
  - unfold createPDF, try_catch, forEach. cbn [length] in Hloop.
    rewrite Hloop, Hw. reflexivity.
  - done.
  - done.
  - intros k file img Hfile Himg.
    destruct (Hcell k file img) as (pg & Hpg & Hops); [| done | done |].
    { by eapply lookup_lt_Some. }
    exists pg. split; [done |]. split; [done |].
    intros Hk. rewrite Hk in Hops. done.
  - intros j Hj.
    unfold cell_x, cell_y, MARGIN_X, MARGIN_Y, IMAGE_MAX_WIDTH, IMAGE_MAX_HEIGHT,
      SPACING_X, SPACING_Y, PAGE_WIDTH, PAGE_HEIGHT.
    pose proof (Nat.mod_upper_bound j 3). pose proof (Nat.Div0.div_lt_upper_bound j 3 5).
    lia.
  - intros Hn. rewrite Hlen. lia.
Qed.


(** ** Merger *)

Lemma copyPages_all (pdfDoc : list page) (w : World) :
  copyPages pdfDoc (getPageIndices pdfDoc) w = (Ok pdfDoc, w).
Proof.
  unfold copyPages, getPageIndices.
  assert (mapM (λ i, pdfDoc !! i) (seq 0 (length pdfDoc)) = Some pdfDoc) as ->;
    [| reflexivity].
  apply mapM_Some. apply Forall2_same_length_lookup. split.
  - by rewrite length_seq.
  - intros i j pg Hseq Hpg. apply lookup_seq in Hseq as [-> _]. done.
Qed.

Lemma addPages_app (mergedPdf copiedPages : list page) :
  addPages mergedPdf copiedPages = mergedPdf ++ copiedPages.
Proof.
  unfold addPages. revert mergedPdf.
  induction copiedPages as [|pg copied IH]; intros merged; simpl.
  - by rewrite app_nil_r.
  - rewrite IH, <- app_assoc. reflexivity.
Qed.

(** The loop reads the file system and the console, and changes neither. *)
Lemma mergeLoop_world pdfPaths mergedPdf w r w' :
  mergeLoop pdfPaths mergedPdf w = (r, w') → w' = w.
Proof.
  revert mergedPdf. induction pdfPaths as [|pdfPath rest IH]; intros merged; simpl.
  - by intros [= _ <-].
  - unfold bind, readFileSync. destruct (fs w !! pdfPath) as [[b | pages |] |];
      simpl; try by intros [= _ <-].
    rewrite copyPages_all. apply IH.
Qed.

Lemma mergeLoop_concat pdfPaths docs mergedPdf w :
  Forall2 (λ pdfPath pages, fs w !! pdfPath = Some (PdfFile pages)) pdfPaths docs →
  mergeLoop pdfPaths mergedPdf w = (Ok (mergedPdf ++ concat docs), w).
Proof.
  intros Hall. revert mergedPdf.
  induction Hall as [|pdfPath pages rest docs Hfile _ IH]; intros merged; simpl.
  - by rewrite app_nil_r.
  - unfold bind, readFileSync. rewrite Hfile. simpl.
    rewrite copyPages_all, addPages_app, IH, <- app_assoc. reflexivity.
Qed.

Lemma length_concat_sum {A} (ls : list (list A)) :
  length (concat ls) = sum_list (length <$> ls).
Proof.
  induction ls as [|l ls IH]; [reflexivity |].
  rewrite concat_cons, length_app, fmap_cons, IH. reflexivity.
Qed.

Lemma parent_finalPDF : parent finalPDF = [].
Proof. reflexivity. Qed.

(** What a completed merge leaves: the pages collected by the loop, as
    [pdf-lib] saves them, at [finalPDF], and one more line on the console. *)
Lemma mergePDFs_Ok_inv pdfPaths w w' :
  mergePDFs pdfPaths w = (Ok tt, w') →
  ∃ mergedPdf,
    mergeLoop pdfPaths [] w = (Ok mergedPdf, w)
    ∧ fs w' = <[finalPDF := PdfFile (PDFDocument_save mergedPdf)]> (fs w)
    ∧ console w' = console w ++ [LogMerged finalPDF].
Proof.
  unfold mergePDFs, bind. intros Hmerge.
  destruct (mergeLoop pdfPaths [] w) as [[merged | e | e] w1] eqn:Hloop; try done.
  pose proof (mergeLoop_world _ _ _ _ _ Hloop) as ->.
  exists merged. split; [done |].
  unfold writeFileSync, write_file in Hmerge. rewrite parent_finalPDF in Hmerge.
  cbn [is_directory] in Hmerge.
  destruct (fs w !! finalPDF) as [[b | pages |] |]; simpl in Hmerge;
    try discriminate; injection Hmerge as <-; done.
Qed.

(** Whatever its outcome, the merge writes nowhere but at [finalPDF]. *)
Lemma mergePDFs_frame pdfPaths w r w' q :
  mergePDFs pdfPaths w = (r, w') → q ≠ finalPDF → fs w' !! q = fs w !! q.
Proof.
  unfold mergePDFs, bind. intros Hmerge Hq.
  destruct (mergeLoop pdfPaths [] w) as [[merged | e | e] w1] eqn:Hloop;
    pose proof (mergeLoop_world _ _ _ _ _ Hloop) as ->;
    try (injection Hmerge as <- <-; done).
  unfold writeFileSync, write_file in Hmerge. rewrite parent_finalPDF in Hmerge.
  cbn [is_directory] in Hmerge.
  destruct (fs w !! finalPDF) as [[b | pages |] |]; simpl in Hmerge;
    injection Hmerge as <- <-; simpl; rewrite ?lookup_insert_ne; done.
Qed.

Lemma PDFDocument_save_pages (pdfDoc : list page) :
  pdfDoc ≠ [] → PDFDocument_save pdfDoc = pdfDoc.
Proof. by destruct pdfDoc. Qed.

Lemma PDFDocument_save_nonempty (pdfDoc : list page) : PDFDocument_save pdfDoc ≠ [].
Proof. by destruct pdfDoc. Qed.

Lemma PDFDocument_save_lookup (pdfDoc : list page) (i : nat) (pg : page) :
  pdfDoc !! i = Some pg → PDFDocument_save pdfDoc !! i = Some pg.
Proof. by destruct pdfDoc. Qed.

Lemma concat_lookup_sum {A} (docs : list (list A)) k pages j pg :
  docs !! k = Some pages → pages !! j = Some pg →
  concat docs !! (sum_list (length <$> take k docs) + j) = Some pg.
Proof.
  intros Hk Hj.
  remember (sum_list (length <$> take k docs)) as n eqn:Hn.
  rewrite <- (take_drop_middle docs k pages Hk).
  rewrite concat_app, concat_cons.
  rewrite lookup_app_r; rewrite length_concat_sum, <- Hn; [| lia].
  replace (n + j - n) with j by lia.
  by apply lookup_app_l_Some.
Qed.

(** C2 (amended): when every intermediate document can be read, the merge
    succeeds.  When the intermediate documents have a page between them, the
    final document is made of their pages, document after document in the
    order of the list, each document's pages in their own order, and its
    number of pages is the sum of theirs.  When they have none, the final
    document is not empty: it is the one blank page [pdf-lib] adds on saving. *)
Theorem C2_merge_concatenates (pdfPaths : list path) (docs : list (list page))
    (w : World) :
  Forall2 (λ pdfPath pages, fs w !! pdfPath = Some (PdfFile pages)) pdfPaths docs →
  fs w !! finalPDF ≠ Some Directory →
  ∃ w' final,
    mergePDFs pdfPaths w = (Ok tt, w')
    ∧ fs w' = <[finalPDF := PdfFile final]> (fs w)
    ∧ console w' = console w ++ [LogMerged finalPDF]
    ∧ (0 < sum_list (length <$> docs) →
         final = concat docs ∧ length final = sum_list (length <$> docs))
    ∧ (sum_list (length <$> docs) = 0 →
         final = [pdflib_default_page] ∧ length final = 1)
    ∧ (∀ k pages j pg, docs !! k = Some pages → pages !! j = Some pg →
         final !! (sum_list (length <$> take k docs) + j) = Some pg).
Proof.
  intros Hall Hfinal.
  unfold mergePDFs, bind. rewrite (mergeLoop_concat _ docs) by done.
  unfold writeFileSync, write_file. rewrite parent_finalPDF. cbn [is_directory app].
  pose proof (length_concat_sum docs) as Hsum.
  assert (Hres : ∃ w' final,
    (Ok tt, {| fs := <[finalPDF := PdfFile (PDFDocument_save (concat docs))]> (fs w);
               console := console w ++ [LogMerged finalPDF] |}) = (Ok tt, w')
    ∧ fs w' = <[finalPDF := PdfFile final]> (fs w)
    ∧ console w' = console w ++ [LogMerged finalPDF]
    ∧ (0 < sum_list (length <$> docs) →
         final = concat docs ∧ length final = sum_list (length <$> docs))
    ∧ (sum_list (length <$> docs) = 0 →
         final = [pdflib_default_page] ∧ length final = 1)
    ∧ (∀ k pages j pg, docs !! k = Some pages → pages !! j = Some pg →
         final !! (sum_list (length <$> take k docs) + j) = Some pg)).
  { eexists _, (PDFDocument_save (concat docs)).
    split; [reflexivity |]. split; [reflexivity |]. split; [reflexivity |].
    split; [| split].
    - intros Hpos. rewrite PDFDocument_save_pages; [done |].
      intros Hnil. rewrite Hnil in Hsum. cbn in Hsum. lia.
    - intros Hzero. destruct (concat docs); [done |]. cbn in Hsum. lia.
    - intros k pages j pg Hk Hj. apply PDFDocument_save_lookup.
      by apply (concat_lookup_sum docs k pages). }
  destruct (fs w !! finalPDF) as [[b | pages |] |] eqn:Hf; try done; exact Hres.
Qed.


(** ** Intermediate documents and their paths *)

Lemma string_length_app (s1 s2 : string) :
  String.length (s1 +:+ s2) = String.length s1 + String.length s2.
Proof. induction s1 as [|a s1 IH]; simpl; [done | by rewrite IH]. Qed.

Lemma string_app_inj_r (s1 s2 t : string) : s1 +:+ t = s2 +:+ t → s1 = s2.
Proof.
  revert s2. induction s1 as [|a s1 IH]; intros [|b s2] Heq.
  - done.
  - apply (f_equal String.length) in Heq.
    rewrite !string_length_app in Heq. simpl in Heq. lia.
  - apply (f_equal String.length) in Heq.
    rewrite !string_length_app in Heq. simpl in Heq. lia.
  - injection Heq as -> Heq. f_equal. by apply IH.
Qed.

Lemma outputPDF_path_inj (a b : nat) : outputPDF_path a = outputPDF_path b → a = b.
Proof.
  unfold outputPDF_path, path_join. intros Heq.
  apply app_inv_head in Heq. injection Heq as Heq.
  do 3 apply String.app_inj in Heq.
  apply string_app_inj_r in Heq. by apply (inj pretty).
Qed.

Lemma parent_outputPDF_path (a : nat) : parent (outputPDF_path a) = pdfFolder.
Proof. reflexivity. Qed.

Lemma outputPDF_path_ne_pdfFolder (a : nat) : outputPDF_path a ≠ pdfFolder.
Proof. discriminate. Qed.

Lemma path_join_inj (folder : path) (f g : string) :
  path_join folder f = path_join folder g → f = g.
Proof. unfold path_join. intros Heq. apply app_inv_head in Heq. congruence. Qed.

(** ** The layout of any chunk: what is drawn, and what is left alone *)

Lemma placeImage_effect (files : list string) file index s s' :
  placeImage file index s = (Ok tt, s') →
  file ∈ files →
  doc_uses files (doc s) →
  fs (world s') = fs (world s) ∧ doc_uses files (doc s').
Proof.
  intros Hplace Hfile Huses.
  assert (Hcell : ∀ img x0 y0 op, op ∈ cell_ops file img x0 y0 →
            ∃ file', file' ∈ files ∧ drawn_for file' op).
  { intros img x0 y0 op Hop. exists file. split; [done |].
    unfold cell_ops in Hop.
    apply elem_of_cons in Hop as [-> | Hop]; [reflexivity |].
    apply list_elem_of_singleton in Hop as ->. reflexivity. }
  assert (Hcap : ∀ sz img x0 y0 pg op,
            pg ∈ caption_pages sz file img x0 y0 → op ∈ page_ops pg →
            ∃ file', file' ∈ files ∧ drawn_for file' op).
  { intros sz img x0 y0 pg op Hpg Hop. exists file. split; [done |].
    unfold caption_pages in Hpg. apply list_elem_of_fmap in Hpg as (sz' & -> & _).
    cbn [continuation page_ops] in Hop.
    apply list_elem_of_singleton in Hop as ->. reflexivity. }
  unfold placeImage, try_catch in Hplace.
  destruct (placeImage_body file index s) as [r s1] eqn:Hbody.
  destruct (placeImage_body_cases _ _ _ _ _ Hbody)
    as [(e & -> & ->) | (-> & img & _ & [[_ ->] | (_ & ps & p & Hdoc & ->)])].
  - injection Hplace as <-. done.
  - injection Hplace as <-. split; [done |].
    intros pg op [Hpg | [-> | Hpg]%elem_of_cons]%elem_of_app Hop; eauto.
  - injection Hplace as <-. split; [done |]. cbn [placed_on_page doc].
    rewrite Hdoc in Huses.
    intros pg op [Hpg | [-> | Hpg]%elem_of_cons]%elem_of_app Hop; [| | by eauto].
    + apply (Huses pg op); [set_solver | done].
    + cbn [add_ops page_ops] in Hop. apply elem_of_app in Hop as [Hop | Hop]; eauto.
      apply (Huses p op); [set_solver | done].
Qed.

Lemma forEach_from_placeImage (files : list string) rest index s :
  rest ⊆ files →
  doc_uses files (doc s) →
  ∃ s', forEach_from index rest placeImage s = (Ok tt, s')
        ∧ fs (world s') = fs (world s) ∧ doc_uses files (doc s').
Proof.
  revert index s. induction rest as [|file rest IH]; intros index s Hsub Huses.
  - exists s. done.
  - destruct (placeImage_returns file index s) as [s1 Hplace].
    destruct (placeImage_effect files _ _ _ _ Hplace) as [Hfs1 Huses1];
      [set_solver | done |].
    destruct (IH (S index) s1) as (s' & Hrest & Hfs & Huses'); [set_solver | done |].
    exists s'. cbn [forEach_from]. unfold bind at 1. rewrite Hplace.
    split; [done |]. split; [congruence | done].
Qed.

(** [createPDF] always returns a pending promise, for the path of its index,
    and writes nothing yet. *)
Lemma createPDF_pending (images : list string) (pdfIndex : nat) (w : World) :
  ∃ pages w',
    createPDF images pdfIndex w =
      (Ok (Pending {| outputPDF := outputPDF_path pdfIndex; document := pages |}), w')
    ∧ fs w' = fs w ∧ doc_uses images pages.
Proof.
  destruct (forEach_from_placeImage images images 0 (start_layout w))
    as (s' & Hloop & Hfs & Huses); [done | |].
  { intros pg op Hpg. by apply elem_of_nil in Hpg. }
  exists (doc s'), (world s'). unfold createPDF, try_catch, forEach.
  rewrite Hloop. done.
Qed.

Lemma run_chunks_spec (cs : list (list string * nat)) (tasks : list promise) (w : World) :
  ∃ new w',
    run_chunks cs tasks w = (Ok (tasks ++ new), w')
    ∧ fs w' = fs w
    ∧ Forall2 (λ c p, ∃ pages,
                 p = Pending {| outputPDF := outputPDF_path c.2; document := pages |}
                 ∧ doc_uses c.1 pages) cs new.
Proof.
  revert tasks w. induction cs as [|[chunk pdfIndex] cs IH]; intros tasks w.
  - exists [], w. rewrite app_nil_r. done.
  - destruct (createPDF_pending chunk pdfIndex w) as (pages & w1 & Hcreate & Hfs1 & Huses).
    destruct (IH (tasks ++ [Pending {| outputPDF := outputPDF_path pdfIndex;
                                        document := pages |}]) w1)
      as (new & w' & Hrun & Hfs & Hall).
    eexists (_ :: new), w'. cbn [run_chunks]. rewrite Hcreate, Hrun.
    rewrite <- app_assoc. split; [done |]. split; [congruence |].
    constructor; [| done]. exists pages. done.
Qed.

(** ** Streams finishing in any order *)

Lemma finish_Ok_inv (t : Task) (w : World) (p : path) (w' : World) :
  finish t w = (Ok p, w') ↔
  p = outputPDF t
  ∧ is_directory (fs w) (parent (outputPDF t)) = true
  ∧ fs w !! outputPDF t ≠ Some Directory
  ∧ w' = set_fs (<[outputPDF t := PdfFile (document t)]> (fs w)) w.
Proof.
  unfold finish, write_file. split.
  - destruct (is_directory (fs w) (parent (outputPDF t))); [| done].
    destruct (fs w !! outputPDF t) as [[b | pages |] |];
      intros [= <- <-]; done.
  - intros (-> & -> & Hnd & ->).
    destruct (fs w !! outputPDF t) as [[b | pages |] |]; done.
Qed.

Lemma finish_not_Throw (t : Task) (w : World) (e : error) (w' : World) :
  finish t w ≠ (Throw e, w').
Proof.
  unfold finish. destruct (write_file _ _ _); discriminate.
Qed.




(** Whatever the order, a slot is either still as it was or holds the path of
    the document with its sequence index. *)
Lemma settle_values (tasks : list promise) (sched : list nat) :
  tasks_shape tasks →
  ∀ values w v w',
    settle sched tasks values w = (Ok v, w') →
    length v = length values
    ∧ ∀ i, v !! i = values !! i
           ∨ (i ∈ sched ∧ v !! i = Some (Some (outputPDF_path (S i)))).
Proof.
  intros Hshape. induction sched as [|j sched IH]; intros values w v w'.
  - intros [= <- <-]. split; [done | by left].
  - cbn [settle]. destruct (tasks !! j) as [pj |] eqn:Hj.
    2:{ intros Hs. destruct (IH _ _ _ _ Hs) as [Hlen Hval]. split; [done |].
        intros i. destruct (Hval i) as [? | [? ?]]; [by left | right].
        split; [by apply list_elem_of_further | done]. }
    destruct (Hshape j pj Hj) as (tj & -> & Hpj).
    unfold bind. destruct (finish tj w) as [[p | e | e] w1] eqn:Hf; [| done ..].
    apply finish_Ok_inv in Hf as (-> & _). rewrite Hpj.
    intros Hs. destruct (IH _ _ _ _ Hs) as [Hlen Hval].
    rewrite length_insert in Hlen. split; [done |].
    intros i. destruct (Hval i) as [Hi | [? ?]];
      [| right; split; [by apply list_elem_of_further | done]].
    destruct (decide (i = j)) as [-> | Hij].
    + destruct (decide (j < length values)) as [Hlt | Hge].
      * rewrite list_lookup_insert_eq in Hi by done. right.
        split; [apply list_elem_of_here | done].
      * rewrite list_insert_ge in Hi by lia. by left.
    + rewrite list_lookup_insert_ne in Hi by done. by left.
Qed.

(** The files the finished streams leave, and nothing else changed. *)
Lemma settle_files (tasks : list promise) (sched : list nat) :
  tasks_shape tasks →
  ∀ values w r w',
    settle sched tasks values w = (r, w') →
    console w' = console w
    ∧ (∀ q, (∀ a, q ≠ outputPDF_path a) → fs w' !! q = fs w !! q)
    ∧ (fs w' !! pdfFolder = fs w !! pdfFolder)
    ∧ (∀ v, r = Ok v → ∀ i t, tasks !! i = Some (Pending t) →
         i ∈ sched ∨ fs w !! outputPDF t = Some (PdfFile (document t)) →
         fs w' !! outputPDF t = Some (PdfFile (document t))).
Proof.
  intros Hshape. induction sched as [|j sched IH]; intros values w r w'.
  - intros [= <- <-]. repeat split; try done.
    intros v _ i t _ [Hi | Hold]; [by apply elem_of_nil in Hi | done].
  - cbn [settle]. destruct (tasks !! j) as [pj |] eqn:Hj.
    2:{ intros Hs. destruct (IH _ _ _ _ Hs) as (Hc & Hframe & Hdir & Hfiles).
        repeat split; try done. intros v Hv i t Hi [Hin | Hold]; [| eauto].
        apply elem_of_cons in Hin as [-> | Hin]; [congruence | eauto]. }
    destruct (Hshape j pj Hj) as (tj & -> & Hpj).
    unfold bind. destruct (finish tj w) as [[p | e | e] w1] eqn:Hf.
    + apply finish_Ok_inv in Hf as (-> & _ & _ & ->).
      intros Hs. destruct (IH _ _ _ _ Hs) as (Hc & Hframe & Hdir & Hfiles).
      cbn [set_fs fs console] in *. rewrite Hpj in *.
      split; [done |]. split; [| split].
      * intros q Hq. rewrite Hframe by done. by rewrite lookup_insert_ne.
      * rewrite Hdir. rewrite lookup_insert_ne; [done |].
        apply outputPDF_path_ne_pdfFolder.
      * intros v Hv i t Hi Hor. apply (Hfiles v Hv i t Hi).
        destruct (Hshape i _ Hi) as (ti & [= <-] & Hpi).
        destruct (decide (i = j)) as [-> | Hij].
        { right. assert (t = tj) as -> by congruence.
          rewrite Hpj. apply lookup_insert_eq. }
        destruct Hor as [Hin | Hold].
        { left. apply elem_of_cons in Hin as [-> | Hin]; [done | exact Hin]. }
        right. rewrite lookup_insert_ne; [done |].
        rewrite Hpi. intros Heq. apply outputPDF_path_inj in Heq. lia.
    + by destruct (finish_not_Throw _ _ _ _ Hf).
    + unfold finish in Hf. destruct (write_file _ _ _); [| done].
      injection Hf as <- <-. intros [= <- <-]. repeat split; try done.
Qed.

(** ** The orchestrator *)

Lemma first_rejection_shape (tasks : list promise) :
  tasks_shape tasks → first_rejection tasks = None.
Proof.
  induction tasks as [|p tasks IH]; intros Hshape; [done |].
  destruct (Hshape 0 p) as (t & -> & _); [done |]. cbn [first_rejection].
  clear IH. induction tasks as [|p' tasks IH'] using rev_ind; [done |].
  assert (Hall : ∀ p0, p0 ∈ tasks ++ [p'] → ∃ t0, p0 = Pending t0).
  { intros p0 [i Hi]%list_elem_of_lookup.
    destruct (Hshape (S i) p0) as (t0 & -> & _); [done | eauto]. }
  clear Hshape IH'. induction (tasks ++ [p']) as [|q l IHl]; [done |].
  destruct (Hall q) as [t0 ->]; [by left |]. cbn [first_rejection].
  apply IHl. intros p0 Hp0. apply Hall. by right.
Qed.


(** When [Promise.all] resolves, its value lists the documents by ascending
    sequence index, and every document is on disk. *)
Lemma Promise_all_Ok (tasks : list promise) (sched : list nat) w r w' :
  tasks_shape tasks →
  Promise_all sched tasks w = (Ok r, w') →
  r = (λ i, outputPDF_path (S i)) <$> seq 0 (length tasks)
  ∧ console w' = console w
  ∧ (∀ q, (∀ a, q ≠ outputPDF_path a) → fs w' !! q = fs w !! q)
  ∧ (∀ i t, tasks !! i = Some (Pending t) →
       fs w' !! outputPDF t = Some (PdfFile (document t))).
Proof.
  intros Hshape. unfold Promise_all, bind.
  rewrite first_rejection_shape by done.
  destruct (settle sched tasks _ w) as [[v | e | e] w1] eqn:Hs; [| done ..].
  destruct (mapM id v) as [generated |] eqn:Hm; [| done].
  intros [= <- <-].
  destruct (settle_values tasks sched Hshape _ _ _ _ Hs) as [Hlen Hval].
  destruct (settle_files tasks sched Hshape _ _ _ _ Hs) as (Hc & Hframe & _ & Hfiles).
  rewrite length_replicate in Hlen.
  apply mapM_Some in Hm.
  assert (Hslot : ∀ i, i < length tasks →
            i ∈ sched ∧ generated !! i = Some (outputPDF_path (S i))).
  { intros i Hi.
    destruct (lookup_lt_is_Some_2 v i) as [x Hx]; [lia |].
    destruct (Forall2_lookup_l _ _ _ _ _ Hm Hx) as (y & Hy & Hxy). simpl in Hxy.
    destruct (Hval i) as [Hold | [Hin Hnew]].
    - rewrite lookup_replicate_2 in Hold by done. congruence.
    - split; [done |]. congruence. }
  split; [| split; [done | split; [done |]]].
  - apply list_eq_same_length with (length tasks).
    + by rewrite length_fmap, length_seq.
    + apply Forall2_length in Hm. lia.
    + intros i y z Hi Hy Hz. destruct (Hslot i Hi) as [_ Hg].
      rewrite list_lookup_fmap, lookup_seq_lt in Hz by done.
      simpl in Hz. congruence.
  - intros i t Hi. apply (Hfiles v eq_refl i t Hi). left.
    apply Hslot. by eapply lookup_lt_Some.
Qed.

Lemma tasks_shape_chunks (files : list string) (w : World) :
  ∃ tasks w',
    createTasks files 0 [] w = (Ok tasks, w')
    ∧ fs w' = fs w
    ∧ tasks_shape tasks
    ∧ length tasks = length (chunks files 0)
    ∧ (∀ i t, tasks !! i = Some (Pending t) → doc_uses files (document t)).
Proof.
  rewrite createTasks_chunks.
  destruct (run_chunks_spec (chunks files 0) [] w) as (tasks & w' & Hrun & Hfs & Hall).
  exists tasks, w'. split; [done |]. split; [done |]. split; [| split].
  - intros i p Hp.
    destruct (Forall2_lookup_r _ _ _ _ _ Hall Hp) as ([chunk idx] & Hc & pages & -> & _).
    apply chunks_lookup in Hc as (_ & _ & ->). eexists. split; [done |].
    cbn [outputPDF snd]. f_equal. lia.
  - symmetry. by eapply Forall2_length.
  - intros i t Hp.
    destruct (Forall2_lookup_r _ _ _ _ _ Hall Hp) as ([chunk idx] & Hc & pages & [= ->] & Huses).
    cbn [document fst] in *. intros pg op Hpg Hop.
    destruct (Huses pg op Hpg Hop) as (file & Hfile & Hdrawn).
    exists file. split; [| done].
    apply chunks_lookup in Hc as (_ & -> & _). unfold slice in Hfile.
    apply elem_of_take in Hfile as (i' & Hi' & _).
    apply list_elem_of_lookup_2 in Hi'. by apply subseteq_drop in Hi'.
Qed.

(** What a completed generation stage returns and leaves on disk. *)
Lemma createPDFsFromImages_Ok (sched : list nat) (w : World) r w' :
  createPDFsFromImages sched w = (Ok r, w') →
  let files := filter (λ file, isImageFile file = true)
                 (children compressedFolder (fs w)) in
  r = (λ i, outputPDF_path (S i)) <$> seq 0 (length r)
  ∧ (∃ docs, Forall2 (λ pdfPath pages, fs w' !! pdfPath = Some (PdfFile pages)) r docs
             ∧ Forall (doc_uses files) docs)
  ∧ (∀ q, (∀ a, q ≠ outputPDF_path a) → fs w' !! q = fs w !! q).
Proof.
  unfold createPDFsFromImages, bind at 1, readdirSync.
  destruct (fs w !! compressedFolder) as [[b | pg |] |]; try done.
  intros Hgen. set (files := filter _ _) in *.
  destruct (tasks_shape_chunks files w) as (tasks & w1 & Htasks & Hfs1 & Hshape & Hlen & Huses).
  unfold bind in Hgen. rewrite Htasks in Hgen.
  destruct (Promise_all sched tasks w1) as [[generated | e | e] w2] eqn:Hall; [| done ..].
  cbn in Hgen. injection Hgen as <- <-.
  destruct (Promise_all_Ok _ _ _ _ _ Hshape Hall) as (Hr & Hc & Hframe & Hfiles).
  assert (Hrlen : length generated = length tasks).
  { rewrite Hr, length_fmap, length_seq. done. }
  split; [by rewrite Hrlen |]. split.
  - exists (omap (λ p, match p with Pending t => Some (document t) | _ => None end) tasks).
    assert (Hdocs : ∀ i, i < length tasks → ∃ t,
              tasks !! i = Some (Pending t)
              ∧ generated !! i = Some (outputPDF t)).
    { intros i Hi. destruct (lookup_lt_is_Some_2 tasks i Hi) as [p Hp].
      destruct (Hshape i p Hp) as (t & -> & Hpath). exists t. split; [done |].
      rewrite Hr, list_lookup_fmap, lookup_seq_lt by done. simpl. congruence. }
    clear Hr Hall Htasks Hlen. revert generated Hrlen Hdocs.
    induction tasks as [|p tasks IH] using rev_ind; intros generated Hrlen Hdocs.
    { destruct generated; [| done]. split; constructor. }
    rewrite length_app in Hrlen. cbn [length] in Hrlen.
    destruct generated as [|g generated _] using rev_ind; [simpl in Hrlen; lia |].
    rewrite length_app in Hrlen. cbn [length] in Hrlen.
    destruct (Hdocs (length tasks)) as (t & Ht & Hg);
      [rewrite length_app; simpl; lia |].
    rewrite lookup_app_r in Ht by lia. rewrite Nat.sub_diag in Ht.
    injection Ht as ->.
    rewrite lookup_app_r in Hg by lia.
    replace (length tasks - length generated) with 0 in Hg by lia.
    injection Hg as ->.
    destruct (IH) with (generated := generated) as [IH1 IH2].
    + intros i q Hq. apply (Hshape i q). by apply lookup_app_l_Some.
    + intros i t' Hi. apply (Huses i t'). by apply lookup_app_l_Some.
    + intros i t' Hi. apply (Hfiles i t'). by apply lookup_app_l_Some.
    + lia.
    + intros i Hi. destruct (Hdocs i) as (t' & Ht' & Hg'); [rewrite length_app; lia |].
      rewrite lookup_app_l in Ht' by done. rewrite lookup_app_l in Hg' by lia. eauto.
    + rewrite omap_app. cbn [omap list_omap]. split.
      * apply Forall2_app; [done |]. constructor; [| constructor].
        apply (Hfiles (length tasks) t).
        rewrite lookup_app_r by lia. by rewrite Nat.sub_diag.
      * apply Forall_app. split; [done |]. constructor; [| constructor].
        apply (Huses (length tasks) t).
        rewrite lookup_app_r by lia. by rewrite Nat.sub_diag.
  - intros q Hq. cbn [fs]. rewrite Hframe by done. by rewrite Hfs1.
Qed.



(** ** Normalizer *)

Lemma over_limit_spec (stats : Stats) :
  over_limit stats = bool_decide (st_size stats > 2 * 1024 * 1024)%Z.
Proof.
  unfold over_limit, fileSizeMB, MAX_IMAGE_SIZE_MB.
  case_bool_decide as Hsz.
  - apply negb_true_iff, not_true_iff_false. rewrite Qle_bool_iff.
    unfold Qle, Qdiv, Qmult, Qinv, inject_Z. simpl. lia.
  - apply negb_false_iff. rewrite Qle_bool_iff.
    unfold Qle, Qdiv, Qmult, Qinv, inject_Z. simpl. lia.
Qed.

Lemma parent_compressed (file : string) :
  parent (path_join compressedFolder file) = compressedFolder.
Proof. reflexivity. Qed.

Lemma is_directory_compressedFolder (m : gmap path entry) :
  is_directory m compressedFolder = true ↔ m !! compressedFolder = Some Directory.
Proof.
  unfold is_directory, compressedFolder.
  destruct (m !! _) as [[b | pg |] |]; split; done.
Qed.

(** One source entry, in a working folder that can take its copy. *)
Lemma analyzeAndCompressImage_spec (file : string) (w : World) :
  fs w !! compressedFolder = Some Directory →
  fs w !! path_join compressedFolder file ≠ Some Directory →
  analyzeAndCompressImage file w =
    (Ok tt,
     {| fs := with_normalized file (fs w);
        console := console w ++ normalizer_log file (fs w !! path_join inputFolder file) |}).
Proof.
  intros Hdir%is_directory_compressedFolder Hout.
  unfold analyzeAndCompressImage, with_normalized, normalized, normalizer_log,
    validateImage, try_catch, bind, sharp_read_metadata, statSync.
  destruct (fs w !! path_join inputFolder file) as [[b | pg |] |] eqn:Hin;
    cbn; try reflexivity.
  destruct (sharp_metadata b) as [metadata |]; cbn; [| reflexivity].
  rewrite Hin. cbn. rewrite over_limit_spec. cbn [st_size].
  case_bool_decide as Hsz; cbn.
  - unfold compressImage, try_catch, bind, sharp_resize_toFile, writeFileSync, write_file.
    cbn. rewrite Hin. rewrite parent_compressed, Hdir.
    destruct (sharp_resize_jpeg b TARGET_WIDTH JPEG_QUALITY) as [b' |]; cbn.
    + destruct (fs w !! path_join compressedFolder file) as [[b0 | pg0 |] |];
        cbn; try done; rewrite <- app_assoc; reflexivity.
    + unfold console_log. cbn. rewrite <- app_assoc. reflexivity.
  - unfold copyFileSync, bind, readFileSync, writeFileSync, write_file.
    rewrite Hin. rewrite parent_compressed, Hdir.
    destruct (fs w !! path_join compressedFolder file) as [[b0 | pg0 |] |];
      cbn; done.
Qed.

Lemma writeFileSync_frame (p : path) (e : entry) (w : World) r w' :
  writeFileSync p e w = (r, w') →
  console w' = console w
  ∧ (∀ q, q ≠ p → fs w' !! q = fs w !! q)
  ∧ (∀ err, r ≠ Crash err).
Proof.
  unfold writeFileSync. destruct (write_file p e (fs w)) as [err | m] eqn:Hw;
    intros [= <- <-]; [done |].
  split; [done |]. split; [| done]. intros q Hq. cbn.
  unfold write_file in Hw. destruct (is_directory _ _); [| done].
  destruct (fs w !! p) as [[b | pg |] |]; try discriminate;
    injection Hw as <-; by rewrite lookup_insert_ne.
Qed.

Lemma validateImage_world (inputPath : path) (w : World) r w' :
  validateImage inputPath w = (r, w') → fs w' = fs w ∧ ∃ o, r = Ok o.
Proof.
  unfold validateImage, try_catch, bind, sharp_read_metadata.
  destruct (fs w !! inputPath) as [[b | pg |] |]; cbn;
    try (intros [= <- <-]; eauto).
  destruct (sharp_metadata b); cbn; intros [= <- <-]; eauto.
Qed.

Lemma compressImage_frame (inputPath outputPath : path) (w : World) r w' :
  compressImage inputPath outputPath w = (r, w') →
  r = Ok tt ∧ ∀ q, q ≠ outputPath → fs w' !! q = fs w !! q.
Proof.
  unfold compressImage, try_catch, bind, sharp_resize_toFile.
  destruct (fs w !! inputPath) as [[b | pg |] |]; cbn;
    try (intros [= <- <-]; done).
  destruct (sharp_resize_jpeg b TARGET_WIDTH JPEG_QUALITY) as [b' |]; cbn;
    [| intros [= <- <-]; done].
  destruct (writeFileSync outputPath (File b') w) as [[[] | e | e] w1] eqn:Hw;
    destruct (writeFileSync_frame _ _ _ _ _ Hw) as (_ & Hframe & Hcrash);
    cbn; try (intros [= <- <-]; done).
  by destruct (Hcrash e).
Qed.

Lemma copyFileSync_frame (src dest : path) (w : World) r w' :
  copyFileSync src dest w = (r, w') →
  (∀ q, q ≠ dest → fs w' !! q = fs w !! q) ∧ (∀ e, r ≠ Crash e).
Proof.
  unfold copyFileSync, bind, readFileSync.
  destruct (fs w !! src) as [[b | pg |] |]; cbn; try (intros [= <- <-]; done).
  - intros Hw. by destruct (writeFileSync_frame _ _ _ _ _ Hw) as (_ & ? & ?).
  - intros Hw. by destruct (writeFileSync_frame _ _ _ _ _ Hw) as (_ & ? & ?).
Qed.

(** Whatever happens, one source entry changes the file system at most at
    the path of its normalized copy, and never ends the process. *)
Lemma analyzeAndCompressImage_frame (file : string) (w : World) r w' :
  analyzeAndCompressImage file w = (r, w') →
  (∀ q, q ≠ path_join compressedFolder file → fs w' !! q = fs w !! q)
  ∧ (∀ e, r ≠ Crash e).
Proof.
  unfold analyzeAndCompressImage, bind at 1.
  destruct (validateImage _ w) as [rv w1] eqn:Hv.
  destruct (validateImage_world _ _ _ _ Hv) as [Hfs1 [[metadata |] ->]].
  2:{ intros [= <- <-]. rewrite Hfs1. done. }
  unfold bind at 1, statSync.
  destruct (fs w1 !! path_join inputFolder file) as [[b | pg |] |].
  4:{ intros [= <- <-]. rewrite Hfs1. done. }
  all: destruct (over_limit _).
  all: unfold bind, console_log.
  all: try (intros [-> Hframe]%compressImage_frame; cbn in Hframe;
            rewrite <- Hfs1; split; [done | discriminate]).
  all: destruct (copyFileSync _ _ w1) as [[[] | e | e] w2] eqn:Hc;
         destruct (copyFileSync_frame _ _ _ _ _ Hc) as [Hframe Hcrash];
         cbn; intros [= <- <-]; rewrite <- Hfs1;
         first [done | by destruct (Hcrash e)].
Qed.

(** *** Directory listings *)

Lemma strip_folder_Some (p k r : path) : strip_folder p k = Some r ↔ k = p ++ r.
Proof.
  revert k. induction p as [|a p IH]; intros k; simpl.
  - split; congruence.
  - destruct k as [|b k]; [split; discriminate |].
    destruct (decide (a = b)) as [-> | Hne].
    + rewrite IH. split; congruence.
    + split; [discriminate | congruence].
Qed.

Lemma child_name_Some (p k : path) (name : string) :
  child_name p k = Some name ↔ k = path_join p name.
Proof.
  unfold child_name, path_join.
  destruct (strip_folder p k) as [r |] eqn:Hr.
  - apply strip_folder_Some in Hr as ->.
    destruct r as [| a [| b r]]; split; try discriminate.
    + intros Heq. apply (f_equal length) in Heq.
      rewrite !length_app in Heq. simpl in Heq. lia.
    + congruence.
    + intros Heq. apply app_inv_head in Heq. congruence.
    + intros Heq. apply app_inv_head in Heq. discriminate.
  - split; [discriminate |]. intros ->.
    assert (strip_folder p (p ++ [name]) = Some [name]) by by apply strip_folder_Some.
    congruence.
Qed.

Lemma elem_of_children (p : path) (m : gmap path entry) (name : string) :
  name ∈ children p m ↔ is_Some (m !! path_join p name).
Proof.
  unfold children. rewrite list_elem_of_omap. split.
  - intros (k & Hk & Hname). apply child_name_Some in Hname as ->.
    apply list_elem_of_fmap in Hk as ([k e] & -> & Hke).
    apply elem_of_map_to_list in Hke. eauto.
  - intros [e He]. exists (path_join p name). split; [| by apply child_name_Some].
    apply list_elem_of_fmap. exists (path_join p name, e). split; [done |].
    by apply elem_of_map_to_list.
Qed.

Lemma NoDup_children (p : path) (m : gmap path entry) : NoDup (children p m).
Proof.
  unfold children. pose proof (NoDup_fst_map_to_list m) as Hnd.
  induction Hnd as [| k ks Hk _ IH]; cbn; [constructor |].
  destruct (child_name p k) as [name |] eqn:Hname; [| done].
  constructor; [| done]. rewrite list_elem_of_omap. intros (k' & Hk' & Hname').
  apply child_name_Some in Hname as ->. apply child_name_Some in Hname' as ->. done.
Qed.

Lemma elem_of_source_files (m : gmap path entry) (file : string) :
  file ∈ source_files m ↔
  isImageFile file = true ∧ is_Some (m !! path_join inputFolder file).
Proof. unfold source_files. by rewrite list_elem_of_filter, elem_of_children. Qed.

(** *** The whole loop *)

Lemma with_normalized_other (file : string) (m : gmap path entry) (q : path) :
  q ≠ path_join compressedFolder file → with_normalized file m !! q = m !! q.
Proof.
  intros Hq. unfold with_normalized. destruct (normalized _); [| done].
  by rewrite lookup_insert_ne.
Qed.

Lemma with_normalized_copy (file : string) (m : gmap path entry) :
  with_normalized file m !! path_join compressedFolder file =
    match normalized (m !! path_join inputFolder file) with
    | Some e => Some e
    | None => m !! path_join compressedFolder file
    end.
Proof.
  unfold with_normalized. destruct (normalized _); [| done].
  by rewrite lookup_insert_eq.
Qed.

Lemma normalizer_loop (files : list string) (w : World) :
  NoDup files →
  fs w !! compressedFolder = Some Directory →
  (∀ f, f ∈ files → fs w !! path_join compressedFolder f ≠ Some Directory) →
  ∃ w', for_of files analyzeAndCompressImage w = (Ok tt, w')
    ∧ console w' =
        console w ++ concat ((λ f, normalizer_log f (fs w !! path_join inputFolder f)) <$> files)
    ∧ (∀ f, f ∈ files →
         fs w' !! path_join compressedFolder f =
           match normalized (fs w !! path_join inputFolder f) with
           | Some e => Some e
           | None => fs w !! path_join compressedFolder f
           end)
    ∧ (∀ q, (∀ f, f ∈ files → q ≠ path_join compressedFolder f) →
         fs w' !! q = fs w !! q).
Proof.
  intros Hnd. revert w. induction Hnd as [| file files Hfile _ IH]; intros w Hdir Hout.
  - exists w. cbn. rewrite app_nil_r. split; [done |]. split; [done |].
    split; [| done]. intros f Hf. by apply elem_of_nil in Hf.
  - cbn [for_of]. unfold bind at 1.
    rewrite analyzeAndCompressImage_spec; [| done | apply Hout; by left].
    set (w1 := {| fs := with_normalized file (fs w); console := _ |}).
    assert (Hother : ∀ q, q ≠ path_join compressedFolder file → fs w1 !! q = fs w !! q).
    { intros q Hq. by apply with_normalized_other. }
    destruct (IH w1) as (w' & Hloop & Hcons & Hcopies & Hframe).
    { rewrite Hother; [done | discriminate]. }
    { intros f Hf. rewrite Hother; [apply Hout; by right |].
      intros Heq%path_join_inj. congruence. }
    exists w'. split; [done |]. split; [| split].
    + rewrite Hcons. cbn [console w1 fmap list_fmap concat]. rewrite <- app_assoc.
      do 2 f_equal. f_equal. apply list_fmap_ext. intros i f Hf.
      rewrite Hother; [done | discriminate].
    + intros f [-> | Hf]%elem_of_cons.
      * rewrite Hframe.
        { apply with_normalized_copy. }
        intros g Hg Heq%path_join_inj. congruence.
      * rewrite Hcopies by done.
        rewrite !Hother; [done | | discriminate].
        intros Heq%path_join_inj. congruence.
    + intros q Hq. rewrite Hframe.
      * apply Hother, Hq. by left.
      * intros f Hf. apply Hq. by right.
Qed.

(** The Normalizer on a working folder that can take the copies: it
    completes, every image file of the source folder gets the copy the
    policy asks for, or none, and nothing else changes. *)
Lemma normalizer_spec (w : World) :
  fs w !! inputFolder = Some Directory →
  fs w !! compressedFolder = Some Directory →
  (∀ f, f ∈ source_files (fs w) → fs w !! path_join compressedFolder f ≠ Some Directory) →
  ∃ w', analyzeAndCompressImages w = (Ok tt, w')
    ∧ console w' =
        console w ++ concat ((λ f, normalizer_log f (fs w !! path_join inputFolder f))
                               <$> source_files (fs w))
    ∧ (∀ f, f ∈ source_files (fs w) →
         fs w' !! path_join compressedFolder f =
           match normalized (fs w !! path_join inputFolder f) with
           | Some e => Some e
           | None => fs w !! path_join compressedFolder f
           end)
    ∧ (∀ q, (∀ f, f ∈ source_files (fs w) → q ≠ path_join compressedFolder f) →
         fs w' !! q = fs w !! q).
Proof.
  intros Hin Hdir Hout. unfold analyzeAndCompressImages, bind, readdirSync.
  rewrite Hin. apply normalizer_loop; [| done | done].
  apply NoDup_filter, NoDup_children.
Qed.

(** Whatever its outcome, the Normalizer writes nowhere but below the
    working folder of the normalized images, and never ends the process. *)
Lemma for_of_analyze_frame (files : list string) (w : World) r w' :
  for_of files analyzeAndCompressImage w = (r, w') →
  (∀ q, (∀ f, q ≠ path_join compressedFolder f) → fs w' !! q = fs w !! q)
  ∧ (∀ e, r ≠ Crash e).
Proof.
  revert w. induction files as [|file files IH]; intros w.
  - intros [= <- <-]. done.
  - cbn [for_of]. unfold bind at 1.
    destruct (analyzeAndCompressImage file w) as [[[] | e | e] w1] eqn:Hone;
      destruct (analyzeAndCompressImage_frame _ _ _ _ Hone) as [Hframe Hcrash].
    + intros Hrest. destruct (IH _ Hrest) as [Hframe' Hcrash'].
      split; [| done]. intros q Hq. rewrite Hframe' by done. by apply Hframe.
    + intros [= <- <-]. split; [| done]. intros q Hq. by apply Hframe.
    + by destruct (Hcrash e).
Qed.

Lemma analyzeAndCompressImages_frame (w : World) r w' :
  analyzeAndCompressImages w = (r, w') →
  (∀ q, (∀ f, q ≠ path_join compressedFolder f) → fs w' !! q = fs w !! q)
  ∧ (∀ e, r ≠ Crash e).
Proof.
  unfold analyzeAndCompressImages, bind, readdirSync.
  destruct (fs w !! inputFolder) as [[b | pg |] |]; try (intros [= <- <-]; done).
  apply for_of_analyze_frame.
Qed.


(** *** From the normalized folder to the final document *)

Lemma chunks_subseteq (files : list string) (c : list string) (idx : nat) :
  (c, idx) ∈ chunks files 0 → c ⊆ files.
Proof.
  intros [k Hk]%list_elem_of_lookup. apply chunks_lookup in Hk as (_ & -> & _).
  intros f Hf. unfold slice in Hf. apply elem_of_take in Hf as (i & Hi & _).
  apply list_elem_of_lookup_2 in Hi. by apply subseteq_drop in Hi.
Qed.

Lemma doc_uses_concat (files : list string) (docs : list (list page)) :
  Forall (doc_uses files) docs → doc_uses files (concat docs).
Proof.
  induction 1 as [| pages docs Hpages _ IH]; intros pg op Hpg Hop.
  - by apply elem_of_nil in Hpg.
  - rewrite concat_cons in Hpg. apply elem_of_app in Hpg as [Hpg | Hpg]; eauto.
Qed.

Lemma drawn_for_inj (f g : string) (op : drawOp) :
  drawn_for f op → drawn_for g op → f = g.
Proof.
  destruct op as [src ? ? ? ? | text ? ? ? | text]; simpl.
  - intros -> Heq. by apply path_join_inj in Heq.
  - unfold basename. congruence.
  - unfold basename. congruence.
Qed.

Lemma doc_uses_absent (files : list string) (file : string) (pages : list page) :
  doc_uses files pages → file ∉ files → absent_from file pages.
Proof.
  intros Huses Hfile pg op Hpg Hop Hdrawn.
  destruct (Huses pg op Hpg Hop) as (g & Hg & Hdrawn').
  by rewrite (drawn_for_inj _ _ _ Hdrawn Hdrawn') in Hfile.
Qed.

Lemma doc_uses_save (files : list string) (pages : list page) :
  doc_uses files pages → doc_uses files (PDFDocument_save pages).
Proof.
  destruct pages as [|pg pages]; [| done].
  intros _ pg op ->%list_elem_of_singleton Hop. by apply elem_of_nil in Hop.
Qed.

(** When the three stages complete, the final document is made of the
    intermediate documents, which draw only images of the normalized
    folder. *)
Lemma stages_final_document (sched : list nat) (w w' : World) :
  stages sched w = (Ok tt, w') →
  ∃ wa docs,
    analyzeAndCompressImages w = (Ok tt, wa)
    ∧ fs w' !! finalPDF = Some (PdfFile (PDFDocument_save (concat docs)))
    ∧ Forall (doc_uses (normalized_files (fs wa))) docs.
Proof.
  unfold stages, bind.
  destruct (analyzeAndCompressImages w) as [[[] | e | e] wa]; [| done ..].
  destruct (createPDFsFromImages sched wa) as [[r | e | e] w1] eqn:Hgen; [| done ..].
  intros Hmerge.
  destruct (createPDFsFromImages_Ok _ _ _ _ Hgen) as (_ & (docs & Hdocs & Huses) & _).
  destruct (mergePDFs_Ok_inv _ _ _ Hmerge) as (merged & Hloop & Hfs & _).
  rewrite (mergeLoop_concat _ docs) in Hloop by done. injection Hloop as <-.
  exists wa, docs. split; [done |]. split; [| done].
  rewrite Hfs. apply lookup_insert_eq.
Qed.

(** An image without a normalized copy is in no chunk and on no page. *)
Lemma absent_downstream (w wa : World) (file : string) :
  analyzeAndCompressImages w = (Ok tt, wa) →
  fs wa !! path_join compressedFolder file = None →
  (∀ c idx, (c, idx) ∈ chunks (normalized_files (fs wa)) 0 → file ∉ c)
  ∧ (∀ sched w', stages sched w = (Ok tt, w') →
       ∃ pages, fs w' !! finalPDF = Some (PdfFile pages) ∧ absent_from file pages).
Proof.
  intros Hnorm Hnone.
  assert (Hfile : file ∉ normalized_files (fs wa)).
  { unfold normalized_files. rewrite list_elem_of_filter, elem_of_children.
    rewrite Hnone. intros [_ [? ?]]. done. }
  split.
  - intros c idx Hc Hin. apply chunks_subseteq in Hc. by apply Hfile, Hc.
  - intros sched w' Hstages.
    destruct (stages_final_document _ _ _ Hstages) as (wa' & docs & Hnorm' & Hfinal & Huses).
    assert (wa' = wa) as -> by congruence.
    exists (PDFDocument_save (concat docs)). split; [done |].
    eapply doc_uses_absent; [by apply doc_uses_save, doc_uses_concat | done].
Qed.

Lemma normalized_undecodable (e : entry) : ¬ decodable e → normalized (Some e) = None.
Proof.
  intros Hdec. unfold normalized. destruct e as [b | pg |]; try done.
  destruct (sharp_metadata b) as [metadata |] eqn:Hmd; [| done].
  destruct Hdec. by exists b, metadata.
Qed.

Lemma source_not_copy (q : path) (f : string) :
  inputFolder `prefix_of` q → q ≠ path_join compressedFolder f.
Proof. intros [r ->]. discriminate. Qed.

(** C6 (amended): a decodable source image above 2 MB gets as normalized
    copy what [sharp] returns for width 1920 and quality 80, when [sharp]
    returns an image; when [sharp] fails, nothing is written for it, and its
    place in the normalized folder holds what it held before the run, if
    anything; an image at or below 2 MB gets a copy of its own bytes; nothing
    in the source folder changes. *)
Theorem C6_normalizer_policy (w : World) (file : string) (b : Bytes)
    (metadata : Metadata) :
  fs w !! inputFolder = Some Directory →
  fs w !! compressedFolder = Some Directory →
  (∀ f, f ∈ source_files (fs w) →
     fs w !! path_join compressedFolder f ≠ Some Directory) →
  isImageFile file = true →
  fs w !! path_join inputFolder file = Some (File b) →
  sharp_metadata b = Some metadata →
  ∃ w', analyzeAndCompressImages w = (Ok tt, w')
    ∧ ((byteLength b > 2 * 1024 * 1024)%Z →
         fs w' !! path_join compressedFolder file =
           match sharp_resize_jpeg b 1920 80 with
           | Some resized => Some (File resized)
           | None => fs w !! path_join compressedFolder file
           end)
    ∧ ((byteLength b ≤ 2 * 1024 * 1024)%Z →
         fs w' !! path_join compressedFolder file = Some (File b))
    ∧ (∀ q, inputFolder `prefix_of` q → fs w' !! q = fs w !! q).
Proof.
  intros Hin Hdir Hout Himage Hfile Hmd.
  destruct (normalizer_spec w Hin Hdir Hout) as (w' & Hrun & _ & Hcopies & Hframe).
  exists w'. split; [done |].
  assert (Hsrc : file ∈ source_files (fs w)).
  { apply elem_of_source_files. rewrite Hfile. eauto. }
  specialize (Hcopies file Hsrc). rewrite Hfile in Hcopies.
  unfold normalized in Hcopies. rewrite Hmd in Hcopies.
  split; [| split].
  - intros Hsz. rewrite bool_decide_eq_true_2 in Hcopies by done.
    unfold TARGET_WIDTH, JPEG_QUALITY in Hcopies.
    by destruct (sharp_resize_jpeg b 1920 80).
  - intros Hsz. rewrite bool_decide_eq_false_2 in Hcopies by lia. done.
  - intros q Hq. apply Hframe. intros f _. by apply source_not_copy.
Qed.

Lemma validateImage_undecodable (file : string) (w : World) (e : entry) :
  fs w !! path_join inputFolder file = Some e → ¬ decodable e →
  ∃ err,
    validateImage (path_join inputFolder file) w =
      (Ok None,
       {| fs := fs w;
          console := console w ++ [LogInvalidImage (path_join inputFolder file) err] |})
    ∧ normalizer_log file (Some e) = [LogInvalidImage (path_join inputFolder file) err].
Proof.
  intros He Hdec. unfold validateImage, try_catch, bind, sharp_read_metadata, normalizer_log.
  rewrite He. destruct e as [b | pg |]; cbn; eauto.
  destruct (sharp_metadata b) as [metadata |] eqn:Hmd; cbn; eauto.
  destruct Hdec. by exists b, metadata.
Qed.

Lemma normalizer_log_invalid (g : string) (x : option entry) (p : path) (err : error) :
  LogInvalidImage p err ∈ normalizer_log g x →
  p = path_join inputFolder g ∧ ∀ e, x = Some e → ¬ decodable e.
Proof.
  unfold normalizer_log. intros Hin.
  destruct x as [[b | pg |] |].
  - destruct (sharp_metadata b) as [metadata |] eqn:Hmd.
    + case_bool_decide.
      * apply elem_of_cons in Hin as [Hin | Hin]; [discriminate |].
        apply list_elem_of_singleton in Hin. by destruct (sharp_resize_jpeg _ _ _).
      * apply list_elem_of_singleton in Hin. discriminate.
    + apply list_elem_of_singleton in Hin as [= -> ->]. split; [done |].
      intros e [= <-] (b' & md & [= <-] & Hmd'). congruence.
  - apply list_elem_of_singleton in Hin as [= -> ->]. split; [done |].
    intros e [= <-] (b' & md & [=] & _).
  - apply list_elem_of_singleton in Hin as [= -> ->]. split; [done |].
    intros e [= <-] (b' & md & [=] & _).
  - apply list_elem_of_singleton in Hin as [= -> ->]. split; [done |]. done.
Qed.

Lemma elem_of_concat_fmap {A B} (f : A → list B) (l : list A) (y : B) :
  y ∈ concat (f <$> l) ↔ ∃ x, x ∈ l ∧ y ∈ f x.
Proof.
  induction l as [|a l IH]; cbn.
  - split; [by intros ?%elem_of_nil | by intros (x & ?%elem_of_nil & _)].
  - rewrite elem_of_app, IH. split.
    + intros [Hy | (x & Hx & Hy)]; [exists a | exists x]; split; try done;
        [by left | by right].
    + intros (x & [-> | Hx]%elem_of_cons & Hy); [by left | right; eauto].
Qed.

(** C7: a source file [sharp] cannot decode is reported invalid and logged;
    the Normalizer goes on and completes; the file gets no normalized copy,
    so it is in no chunk and on no page of the final document; and the
    normalized folder is what it would be had the file not been there. *)
Theorem C7_invalid_image_contained (w : World) (file : string) (e : entry) :
  fs w !! inputFolder = Some Directory →
  fs w !! compressedFolder = Some Directory →
  (∀ f, f ∈ source_files (fs w) →
     fs w !! path_join compressedFolder f ≠ Some Directory) →
  isImageFile file = true →
  fs w !! path_join inputFolder file = Some e →
  ¬ decodable e →
  fs w !! path_join compressedFolder file = None →
  ∃ err w' w0',
    validateImage (path_join inputFolder file) w =
      (Ok None,
       {| fs := fs w;
          console := console w ++ [LogInvalidImage (path_join inputFolder file) err] |})
    ∧ analyzeAndCompressImages w = (Ok tt, w')
    ∧ LogInvalidImage (path_join inputFolder file) err ∈ console w'
    ∧ fs w' !! path_join compressedFolder file = None
    ∧ (∀ c idx, (c, idx) ∈ chunks (normalized_files (fs w')) 0 → file ∉ c)
    ∧ (∀ sched w'', stages sched w = (Ok tt, w'') →
         ∃ pages, fs w'' !! finalPDF = Some (PdfFile pages) ∧ absent_from file pages)
    ∧ analyzeAndCompressImages (without_source file w) = (Ok tt, w0')
    ∧ fs w' = <[path_join inputFolder file := e]> (fs w0').
Proof.
  intros Hin Hdir Hout Himage Hfile Hdec Hfresh.
  destruct (validateImage_undecodable _ _ _ Hfile Hdec) as (err & Hvalid & Hlog).
  destruct (normalizer_spec w Hin Hdir Hout) as (w' & Hrun & Hcons & Hcopies & Hframe).
  assert (Hsrc : file ∈ source_files (fs w)).
  { apply elem_of_source_files. rewrite Hfile. eauto. }
  assert (Hnone : fs w' !! path_join compressedFolder file = None).
  { rewrite Hcopies, Hfile, normalized_undecodable by done. done. }
  destruct (absent_downstream _ _ _ Hrun Hnone) as [Hchunks Hfinal].
  assert (Hsub : ∀ f, f ∈ source_files (fs (without_source file w)) →
            f ∈ source_files (fs w) ∧ f ≠ file).
  { intros f [Hf [x Hx]]%elem_of_source_files. cbn in Hx.
    apply lookup_delete_Some in Hx as [Hne Hx]. split; [| congruence].
    apply elem_of_source_files. eauto. }
  destruct (normalizer_spec (without_source file w))
    as (w0' & Hrun0 & _ & Hcopies0 & Hframe0).
  { cbn. rewrite lookup_delete_ne; [done | discriminate]. }
  { cbn. rewrite lookup_delete_ne; [done | discriminate]. }
  { intros f [Hf _]%Hsub. cbn. rewrite lookup_delete_ne; [by apply Hout | discriminate]. }
  exists err, w', w0'. repeat (split; [done |]). split.
  { rewrite Hcons. apply elem_of_app. right. apply elem_of_concat_fmap.
    exists file. split; [done |]. rewrite Hfile, Hlog. by left. }
  repeat (split; [done |]).
  apply map_eq. intros q.
  destruct (decide (q = path_join inputFolder file)) as [-> | Hq].
  { rewrite lookup_insert_eq, Hframe; [done |]. intros f _. discriminate. }
  rewrite lookup_insert_ne by done.
  destruct (decide (q ∈ path_join compressedFolder <$> source_files (fs w)))
    as [(g & -> & Hg)%list_elem_of_fmap | Hno].
  - destruct (decide (g = file)) as [-> | Hgf].
    + rewrite Hnone, Hframe0.
      * cbn. rewrite lookup_delete_ne by discriminate. done.
      * intros f [_ Hne]%Hsub Heq%path_join_inj. congruence.
    + assert (Hg0 : g ∈ source_files (fs (without_source file w))).
      { apply elem_of_source_files in Hg as [Hgi Hgx].
        apply elem_of_source_files. split; [done |]. cbn.
        rewrite lookup_delete_ne; [done |]. intros Heq%path_join_inj. congruence. }
      rewrite Hcopies, Hcopies0 by done. cbn.
      rewrite !lookup_delete_ne; [done | discriminate |].
      intros Heq%path_join_inj. congruence.
  - rewrite Hframe, Hframe0.
    + cbn. by rewrite lookup_delete_ne.
    + intros f [Hf _]%Hsub ->. apply Hno, list_elem_of_fmap. eauto.
    + intros f Hf ->. apply Hno, list_elem_of_fmap. eauto.
Qed.

(** C10: when [sharp] fails to resize a decodable image above 2 MB, the
    failure is only logged: [compressImage] and the Normalizer return
    normally, no normalized copy is written, the image is not reported
    invalid, and it is in no chunk and on no page of the final document. *)
Theorem C10_compression_failure_silent (w : World) (file : string) (b : Bytes)
    (metadata : Metadata) :
  fs w !! inputFolder = Some Directory →
  fs w !! compressedFolder = Some Directory →
  (∀ f, f ∈ source_files (fs w) →
     fs w !! path_join compressedFolder f ≠ Some Directory) →
  isImageFile file = true →
  fs w !! path_join inputFolder file = Some (File b) →
  sharp_metadata b = Some metadata →
  (byteLength b > 2 * 1024 * 1024)%Z →
  sharp_resize_jpeg b 1920 80 = None →
  fs w !! path_join compressedFolder file = None →
  ∃ w' new,
    compressImage (path_join inputFolder file) (path_join compressedFolder file) w =
      (Ok tt,
       {| fs := fs w;
          console := console w ++
            [LogCompressError (path_join inputFolder file)
               (ResizeFailed (path_join inputFolder file))] |})
    ∧ analyzeAndCompressImages w = (Ok tt, w')
    ∧ console w' = console w ++ new
    ∧ LogCompressError (path_join inputFolder file)
        (ResizeFailed (path_join inputFolder file)) ∈ new
    ∧ (∀ err, LogInvalidImage (path_join inputFolder file) err ∉ new)
    ∧ fs w' !! path_join compressedFolder file = None
    ∧ (∀ c idx, (c, idx) ∈ chunks (normalized_files (fs w')) 0 → file ∉ c)
    ∧ (∀ sched w'', stages sched w = (Ok tt, w'') →
         ∃ pages, fs w'' !! finalPDF = Some (PdfFile pages) ∧ absent_from file pages).
Proof.
  intros Hin Hdir Hout Himage Hfile Hmd Hsz Hresize Hfresh.
  destruct (normalizer_spec w Hin Hdir Hout) as (w' & Hrun & Hcons & Hcopies & Hframe).
  assert (Hsrc : file ∈ source_files (fs w)).
  { apply elem_of_source_files. rewrite Hfile. eauto. }
  assert (Hnone : fs w' !! path_join compressedFolder file = None).
  { rewrite Hcopies, Hfile by done. unfold normalized.
    rewrite Hmd, bool_decide_eq_true_2 by done.
    unfold TARGET_WIDTH, JPEG_QUALITY. rewrite Hresize. done. }
  destruct (absent_downstream _ _ _ Hrun Hnone) as [Hchunks Hfinal].
  eexists w', _. split; [| split; [done | split; [exact Hcons |]]].
  { unfold compressImage, try_catch, bind, sharp_resize_toFile.
    rewrite Hfile. unfold TARGET_WIDTH, JPEG_QUALITY. rewrite Hresize. reflexivity. }
  split; [| split; [| done]].
  - apply elem_of_concat_fmap. exists file. split; [done |].
    rewrite Hfile. unfold normalizer_log.
    rewrite Hmd, bool_decide_eq_true_2 by done.
    unfold TARGET_WIDTH, JPEG_QUALITY. rewrite Hresize. right. by left.
  - intros err (g & Hg & Hlog)%elem_of_concat_fmap.
    apply normalizer_log_invalid in Hlog as [Heq%path_join_inj Hund].
    subst g. apply (Hund _ Hfile). by exists b, metadata.
Qed.


(** ** Cleanup *)

Lemma bounded_depth (m : gmap path entry) : bounded (depth m) m.
Proof.
  intros k [e He]. unfold depth. apply max_list_elem_of_le.
  apply list_elem_of_fmap. exists k. split; [done |].
  apply list_elem_of_fmap. exists (k, e). split; [done |].
  by apply elem_of_map_to_list.
Qed.

Lemma prefix_path_join (p : path) (name : string) : p `prefix_of` path_join p name.
Proof. by exists [name]. Qed.

Lemma path_join_prefix_inj (p q : path) (n1 n2 : string) :
  path_join p n1 `prefix_of` q → path_join p n2 `prefix_of` q → n1 = n2.
Proof.
  unfold path_join. intros [k1 ->] [k2 Heq].
  rewrite <- !app_assoc in Heq. apply app_inv_head in Heq. by injection Heq.
Qed.

Lemma prefix_child (p q : path) :
  p `prefix_of` q → q ≠ p → ∃ name, path_join p name `prefix_of` q.
Proof.
  intros [[|name r] ->] Hne.
  - by rewrite app_nil_r in Hne.
  - exists name, r. unfold path_join. by rewrite <- app_assoc.
Qed.

Lemma prefix_path_join_inv (k p : path) (name : string) :
  k `prefix_of` path_join p name → k ≠ path_join p name → k `prefix_of` p.
Proof.
  unfold path_join. intros [r Hr] Hne.
  destruct r as [|x r _] using rev_ind.
  - rewrite app_nil_r in Hr. congruence.
  - rewrite app_assoc in Hr. apply app_inj_tail in Hr as [-> _]. by exists r.
Qed.

Lemma reachable_child (m : gmap path entry) (p q : path) (name : string) :
  reachable m p q → path_join p name `prefix_of` q →
  reachable m (path_join p name) q.
Proof.
  intros Hreach Hq k Hk Hkq Hne. apply Hreach; [| done | done].
  etrans; [apply prefix_path_join | done].
Qed.

Lemma unlinkSync_file (p : path) (w : World) (e : entry) :
  fs w !! p = Some e → e ≠ Directory →
  unlinkSync p w = (Ok tt, set_fs (delete p (fs w)) w).
Proof. intros He Hne. unfold unlinkSync. rewrite He. by destruct e. Qed.

Lemma emptying_start (p : path) (w : World) :
  fs w !! p = Some Directory → emptying p w (children p (fs w)) w.
Proof.
  intros Hp. repeat split; try done; [by right |].
  intros name q Hname Hq Hreach.
  destruct (decide (q = path_join p name)) as [-> | Hne].
  - destruct (fs w !! path_join p name) eqn:He; [| done].
    destruct Hname. apply elem_of_children. rewrite He. eauto.
  - specialize (Hreach (path_join p name)).
    destruct Hname. apply elem_of_children. rewrite Hreach; eauto.
Qed.

(** One entry of the folder: the step of the loop. *)
Lemma emptying_step (fuel : nat) (p : path) (w0 w : World) (name : string)
    (rest : list string) (D : nat) :
  (∀ p' w1, bounded D (fs w1) → D < length p' + fuel →
     fs w1 !! p' = Some Directory →
     ∃ w', deleteFolder_fuel fuel p' w1 = (Ok tt, w') ∧ removes p' w1 w') →
  bounded D (fs w0) → D < length p + S fuel →
  name ∉ rest →
  is_Some (fs w0 !! path_join p name) →
  emptying p w0 (name :: rest) w →
  ∃ w', delete_entry fuel p name w = (Ok tt, w') ∧ emptying p w0 rest w'.
Proof.
  intros IH Hbound Hfuel Hfresh [e He] (Hcons & Hp & Hout & Hmono & Htodo & Hgone).
  set (cur := path_join p name).
  assert (Hcur : fs w !! cur = Some e).
  { rewrite (Htodo name cur); [done | by left | done]. }
  assert (Hnp : ¬ cur `prefix_of` p) by apply prefix_snoc_not.
  assert (Hsib : ∀ name' q, name' ∈ rest → path_join p name' `prefix_of` q →
            ¬ cur `prefix_of` q).
  { intros name' q Hin Hq Hq'.
    assert (name = name') by by eapply path_join_prefix_inj. congruence. }
  assert (Hdone : ∀ w',
    console w' = console w →
    (∀ q, cur `prefix_of` q → reachable (fs w) cur q → fs w' !! q = None) →
    (∀ q, ¬ cur `prefix_of` q → fs w' !! q = fs w !! q) →
    (∀ q, fs w' !! q = None ∨ fs w' !! q = fs w !! q) →
    emptying p w0 rest w').
  { intros w' Hc' Hrm Hfr Hmn. split; [congruence |]. split; [by rewrite Hfr |].
    split; [| split; [| split]].
    - intros q Hq. rewrite Hfr; [by apply Hout |].
      intros Hq'. apply Hq. etrans; [apply prefix_path_join | done].
    - intros q. destruct (Hmn q) as [-> | ->]; [by left | apply Hmono].
    - intros name' q Hin Hq. rewrite Hfr by by eapply Hsib.
      apply (Htodo name'); [by right | done].
    - intros name' q Hnot Hq Hreach.
      destruct (decide (name' = name)) as [-> | Hne].
      + apply Hrm; [done |]. intros k Hk Hkq Hkne.
        rewrite (Htodo name k); [by apply Hreach | by left | done].
      + destruct (Hmn q) as [-> | ->]; [done |].
        apply (Hgone name'); [| done | done].
        intros [-> | Hin]%elem_of_cons; done. }
  unfold delete_entry, bind, statSync. fold cur. rewrite Hcur.
  destruct e as [b | pg |]; cbn [st_isDirectory].
  - rewrite (unlinkSync_file cur w (File b)) by done.
    eexists. split; [done |]. apply Hdone; cbn.
    + done.
    + intros q Hq Hreach. destruct (decide (q = cur)) as [-> | Hne].
      * apply lookup_delete_eq.
      * specialize (Hreach cur). rewrite Hcur in Hreach.
        discriminate Hreach; done.
    + intros q Hq. apply lookup_delete_ne. intros <-. by apply Hq.
    + intros q. destruct (decide (q = cur)) as [-> | Hne];
        [left; apply lookup_delete_eq | right; by apply lookup_delete_ne].
  - rewrite (unlinkSync_file cur w (PdfFile pg)) by done.
    eexists. split; [done |]. apply Hdone; cbn.
    + done.
    + intros q Hq Hreach. destruct (decide (q = cur)) as [-> | Hne].
      * apply lookup_delete_eq.
      * specialize (Hreach cur). rewrite Hcur in Hreach.
        discriminate Hreach; done.
    + intros q Hq. apply lookup_delete_ne. intros <-. by apply Hq.
    + intros q. destruct (decide (q = cur)) as [-> | Hne];
        [left; apply lookup_delete_eq | right; by apply lookup_delete_ne].
  - destruct (IH cur w) as (w' & Hrec & Hc' & Hrm & Hfr & Hmn).
    + intros k Hk. apply Hbound. destruct (Hmono k) as [Hn | <-]; [| done].
      rewrite Hn in Hk. by destruct Hk.
    + unfold cur, path_join. rewrite length_app. simpl. lia.
    + done.
    + exists w'. split; [done |]. by apply Hdone.
Qed.

Lemma emptying_loop (fuel : nat) (p : path) (w0 : World) (D : nat) :
  (∀ p' w1, bounded D (fs w1) → D < length p' + fuel →
     fs w1 !! p' = Some Directory →
     ∃ w', deleteFolder_fuel fuel p' w1 = (Ok tt, w') ∧ removes p' w1 w') →
  bounded D (fs w0) → D < length p + S fuel →
  ∀ rest w,
    NoDup rest →
    (∀ name, name ∈ rest → is_Some (fs w0 !! path_join p name)) →
    emptying p w0 rest w →
    ∃ w', for_of rest (delete_entry fuel p) w = (Ok tt, w') ∧ emptying p w0 [] w'.
Proof.
  intros IH Hbound Hfuel rest. induction rest as [|name rest IHrest];
    intros w Hnd Hsome Hinv.
  - exists w. done.
  - apply NoDup_cons in Hnd as [Hfresh Hnd].
    destruct (emptying_step fuel p w0 w name rest D) as (w1 & Hstep & Hinv1);
      [done | done | done | done | apply Hsome; by left | done |].
    destruct (IHrest w1) as (w' & Hloop & Hinv'); [done | | done |].
    { intros name' Hin. apply Hsome. by right. }
    exists w'. split; [| done]. cbn [for_of]. unfold bind. by rewrite Hstep.
Qed.

Lemma deleteFolder_fuel_S (fuel : nat) (p : path) :
  deleteFolder_fuel (S fuel) p =
    (b <- existsSync p ;;
     if b then
       files <- readdirSync p ;;
       for_of files (delete_entry fuel p) ;;
       rmdirSync p
     else ret tt)%js.
Proof. reflexivity. Qed.

(** With fuel for the longest path, [deleteFolder] returns, and the folder
    is gone with all it holds. *)
Lemma deleteFolder_fuel_spec (fuel : nat) (D : nat) :
  ∀ p w, bounded D (fs w) → D < length p + fuel →
    fs w !! p = Some Directory →
    ∃ w', deleteFolder_fuel fuel p w = (Ok tt, w') ∧ removes p w w'.
Proof.
  induction fuel as [|fuel IH]; intros p w Hbound Hfuel Hp.
  - assert (length p ≤ D) by (apply Hbound; rewrite Hp; eauto). lia.
  - rewrite deleteFolder_fuel_S. unfold bind, existsSync, readdirSync. rewrite !Hp.
    destruct (emptying_loop fuel p w D IH Hbound Hfuel (children p (fs w)) w)
      as (w1 & Hloop & Hcons & Hp1 & Hout & Hmono & _ & Hgone).
    { apply NoDup_children. }
    { intros name Hname. by apply elem_of_children. }
    { by apply emptying_start. }
    rewrite Hloop. unfold rmdirSync. rewrite Hp1.
    assert (children p (fs w1) = []) as ->.
    { apply elem_of_nil_inv. intros name [e He]%elem_of_children.
      rewrite (Hgone name (path_join p name)) in He; [done | | done |].
      - intros Hin. by apply elem_of_nil in Hin.
      - intros k Hk Hkq Hne. destruct Hne. by apply (anti_symm prefix). }
    eexists. split; [done |]. split; [done |]. cbn. split; [| split].
    + intros q Hq Hreach. destruct (decide (q = p)) as [-> | Hne].
      { apply lookup_delete_eq. }
      rewrite lookup_delete_ne by done.
      destruct (prefix_child _ _ Hq Hne) as [name Hname].
      apply (Hgone name); [| done |].
      * intros Hin. by apply elem_of_nil in Hin.
      * by apply reachable_child.
    + intros q Hq. rewrite lookup_delete_ne; [by apply Hout |].
      intros <-. by apply Hq.
    + intros q. destruct (decide (q = p)) as [-> | Hne].
      * left. apply lookup_delete_eq.
      * rewrite lookup_delete_ne by done. apply Hmono.
Qed.

Lemma deleteFolder_spec (p : path) (w : World) :
  fs w !! p = Some Directory →
  ∃ w', deleteFolder p w = (Ok tt, w') ∧ removes p w w'.
Proof.
  intros Hp. unfold deleteFolder.
  apply (deleteFolder_fuel_spec _ (depth (fs w))); [apply bounded_depth | lia | done].
Qed.


(** *** Stages only add files *)

Lemma extends_refl (m : gmap path entry) : extends m m.
Proof. intros q. by left. Qed.

Lemma extends_directory (m m' : gmap path entry) (k : path) :
  extends m m' → m !! k = Some Directory → m' !! k = Some Directory.
Proof. intros Hext Hk. destruct (Hext k) as [-> | (_ & Hnd & _)]; done. Qed.

Lemma is_directory_Some (m : gmap path entry) (p : path) :
  p ≠ [] → is_directory m p = true ↔ m !! p = Some Directory.
Proof.
  intros Hp. unfold is_directory. destruct p as [|a p]; [done |].
  destruct (m !! (a :: p)) as [[b | pg |] |]; split; done.
Qed.

Lemma extends_is_directory (m m' : gmap path entry) (p : path) :
  extends m m' → is_directory m p = true → is_directory m' p = true.
Proof.
  intros Hext Hp. destruct (decide (p = [])) as [-> | Hne]; [done |].
  apply is_directory_Some; [done |]. apply (extends_directory m); [done |].
  by apply is_directory_Some.
Qed.

Lemma extends_trans (m1 m2 m3 : gmap path entry) :
  extends m1 m2 → extends m2 m3 → extends m1 m3.
Proof.
  intros H12 H23 q.
  destruct (H23 q) as [-> | (Hdir & Hnd & Hsome & Hnd')]; [apply H12 |].
  right. split; [| split; [| done]].
  - destruct (decide (parent q = [])) as [-> | Hne]; [done |].
    apply is_directory_Some; [done |]. apply is_directory_Some in Hdir; [| done].
    destruct (H12 (parent q)) as [<- | (_ & _ & _ & Hnd2)]; done.
  - destruct (H12 q) as [<- | (_ & Hnd1 & _)]; done.
Qed.

Lemma extends_write_file (p : path) (e : entry) (m m' : gmap path entry) :
  write_file p e m = inr m' → e ≠ Directory → extends m m'.
Proof.
  unfold write_file. intros Hw He q.
  destruct (is_directory m (parent p)) eqn:Hdir; [| done].
  destruct (decide (q = p)) as [-> | Hne].
  - right. split; [done |].
    destruct (m !! p) as [[b | pg |] |]; try done; injection Hw as <-;
      rewrite lookup_insert_eq; repeat split; eauto; congruence.
  - left. destruct (m !! p) as [[b | pg |] |]; try done; injection Hw as <-;
      by rewrite lookup_insert_ne.
Qed.

Lemma prefix_parent (k q : path) : k `prefix_of` q → k ≠ q → k `prefix_of` parent q.
Proof.
  intros [r ->] Hne. unfold parent.
  destruct r as [|a r]; [by rewrite app_nil_r in Hne |].
  rewrite removelast_app by done. by eexists.
Qed.

Lemma extends_well_formed (m m' : gmap path entry) :
  extends m m' → well_formed m → well_formed m'.
Proof.
  intros Hext Hwf q k Hq Hk Hkq Hk0. apply (extends_directory m); [done |].
  destruct (Hext q) as [Heq | (Hdir & _)].
  - rewrite Heq in Hq. by apply (Hwf q).
  - pose proof (prefix_parent _ _ Hk Hkq) as Hkp.
    assert (Hp0 : parent q ≠ []).
    { intros Hp. rewrite Hp in Hkp. by apply prefix_nil_inv in Hkp. }
    apply is_directory_Some in Hdir; [| done].
    destruct (decide (k = parent q)) as [-> | Hne]; [done |].
    apply (Hwf (parent q)); [by rewrite Hdir | done | done | done].
Qed.

Lemma writeFileSync_extends (p : path) (e : entry) (w : World) r w' :
  writeFileSync p e w = (r, w') → e ≠ Directory → extends (fs w) (fs w').
Proof.
  unfold writeFileSync. intros Heq He.
  destruct (write_file p e (fs w)) as [err | m] eqn:Hw; injection Heq as <- <-.
  - apply extends_refl.
  - by eapply extends_write_file.
Qed.

Lemma compressImage_extends (inputPath outputPath : path) (w : World) r w' :
  compressImage inputPath outputPath w = (r, w') → extends (fs w) (fs w').
Proof.
  unfold compressImage, try_catch, bind, sharp_resize_toFile.
  destruct (fs w !! inputPath) as [[b | pg |] |]; cbn;
    try (intros [= <- <-]; apply extends_refl).
  destruct (sharp_resize_jpeg b TARGET_WIDTH JPEG_QUALITY) as [b' |]; cbn;
    [| intros [= <- <-]; apply extends_refl].
  destruct (writeFileSync outputPath (File b') w) as [[[] | e | e] w1] eqn:Hw;
    apply writeFileSync_extends in Hw; try done; cbn; by intros [= <- <-].
Qed.

Lemma copyFileSync_extends (src dest : path) (w : World) r w' :
  copyFileSync src dest w = (r, w') → extends (fs w) (fs w').
Proof.
  unfold copyFileSync, bind, readFileSync.
  destruct (fs w !! src) as [[b | pg |] |]; cbn;
    try (intros [= <- <-]; apply extends_refl).
  - intros Hw. by apply writeFileSync_extends in Hw.
  - intros Hw. by apply writeFileSync_extends in Hw.
Qed.

Lemma analyzeAndCompressImage_extends (file : string) (w : World) r w' :
  analyzeAndCompressImage file w = (r, w') → extends (fs w) (fs w').
Proof.
  unfold analyzeAndCompressImage, bind at 1.
  destruct (validateImage _ w) as [rv w1] eqn:Hv.
  destruct (validateImage_world _ _ _ _ Hv) as [Hfs1 [[metadata |] ->]].
  2:{ intros [= <- <-]. rewrite Hfs1. apply extends_refl. }
  rewrite <- Hfs1.
  unfold bind at 1, statSync.
  destruct (fs w1 !! path_join inputFolder file) as [[b | pg |] |].
  4:{ intros [= <- <-]. apply extends_refl. }
  all: destruct (over_limit _).
  all: unfold bind, console_log.
  all: try (intros Hc%compressImage_extends; exact Hc).
  all: destruct (copyFileSync _ _ w1) as [[[] | e | e] w2] eqn:Hc;
         apply copyFileSync_extends in Hc; cbn; by intros [= <- <-].
Qed.

Lemma analyzeAndCompressImages_extends (w : World) r w' :
  analyzeAndCompressImages w = (r, w') → extends (fs w) (fs w').
Proof.
  unfold analyzeAndCompressImages, bind, readdirSync.
  destruct (fs w !! inputFolder) as [[b | pg |] |];
    try (intros [= <- <-]; apply extends_refl).
  generalize (filter (λ file, isImageFile file = true) (children inputFolder (fs w))).
  intros files. revert w. induction files as [|file files IH]; intros w.
  - intros [= <- <-]. apply extends_refl.
  - cbn [for_of]. unfold bind at 1.
    destruct (analyzeAndCompressImage file w) as [[[] | e | e] w1] eqn:Hone;
      apply analyzeAndCompressImage_extends in Hone.
    + intros Hrest%IH. by eapply extends_trans.
    + by intros [= <- <-].
    + by intros [= <- <-].
Qed.

Lemma settle_extends (tasks : list promise) (sched : list nat) values w r w' :
  settle sched tasks values w = (r, w') → extends (fs w) (fs w').
Proof.
  revert values w. induction sched as [|j sched IH]; intros values w.
  - intros [= <- <-]. apply extends_refl.
  - cbn [settle]. destruct (tasks !! j) as [[t | e] |]; [| apply IH ..].
    unfold bind, finish.
    destruct (write_file _ _ (fs w)) as [err | m] eqn:Hw.
    + intros [= <- <-]. apply extends_refl.
    + apply extends_write_file in Hw; [| done].
      intros Hrest%IH. by eapply extends_trans.
Qed.

Lemma createPDFsFromImages_extends (sched : list nat) (w : World) r w' :
  createPDFsFromImages sched w = (r, w') → extends (fs w) (fs w').
Proof.
  unfold createPDFsFromImages, bind, readdirSync.
  destruct (fs w !! compressedFolder) as [[b | pg |] |];
    try (intros [= <- <-]; apply extends_refl).
  set (files := filter _ _).
  destruct (tasks_shape_chunks files w) as (tasks & w1 & -> & Hfs1 & Hshape & _).
  rewrite <- Hfs1. unfold Promise_all. rewrite first_rejection_shape by done.
  unfold bind.
  destruct (settle sched tasks _ w1) as [[v | e | e] w2] eqn:Hs;
    apply settle_extends in Hs.
  - destruct (mapM id v); cbn; by intros [= <- <-].
  - by intros [= <- <-].
  - by intros [= <- <-].
Qed.

Lemma mergePDFs_extends (pdfPaths : list path) (w : World) r w' :
  mergePDFs pdfPaths w = (r, w') → extends (fs w) (fs w').
Proof.
  unfold mergePDFs, bind.
  destruct (mergeLoop pdfPaths [] w) as [[merged | e | e] w1] eqn:Hloop;
    pose proof (mergeLoop_world _ _ _ _ _ Hloop) as ->;
    try (intros [= <- <-]; apply extends_refl).
  cbv zeta.
  destruct (writeFileSync finalPDF (PdfFile (PDFDocument_save merged)) w)
    as [[[] | e | e] w2] eqn:Hw;
    apply writeFileSync_extends in Hw; try done; cbn; by intros [= <- <-].
Qed.

(** Whatever their outcome, the three stages remove nothing. *)
Lemma stages_extends (sched : list nat) (w : World) r w' :
  stages sched w = (r, w') → extends (fs w) (fs w').
Proof.
  unfold stages, bind.
  destruct (analyzeAndCompressImages w) as [[[] | e | e] w1] eqn:H1;
    apply analyzeAndCompressImages_extends in H1; try by intros [= <- <-].
  destruct (createPDFsFromImages sched w1) as [[generated | e | e] w2] eqn:H2;
    apply createPDFsFromImages_extends in H2;
    try (intros [= <- <-]; by eapply extends_trans).
  intros H3%mergePDFs_extends. eapply extends_trans; [| done]. by eapply extends_trans.
Qed.

Lemma well_formed_reachable (m : gmap path entry) (p q : path) :
  well_formed m → p ≠ [] → p `prefix_of` q → is_Some (m !! q) → reachable m p q.
Proof.
  intros Hwf Hp Hpq Hq k Hpk Hkq Hne. apply (Hwf q); [done | done | done |].
  intros ->. by apply prefix_nil_inv in Hpk.
Qed.

(** On a well-formed file system, [deleteFolder] leaves nothing below the
    folder. *)
Lemma removes_all (p : path) (w w' : World) :
  well_formed (fs w) → p ≠ [] → removes p w w' →
  ∀ q, p `prefix_of` q → fs w' !! q = None.
Proof.
  intros Hwf Hp (_ & Hgone & _ & Hmono) q Hq.
  destruct (fs w !! q) as [e |] eqn:He.
  - apply Hgone; [done |]. apply well_formed_reachable; first [done | by rewrite He].
  - destruct (Hmono q) as [-> | ->]; done.
Qed.

Lemma removes_well_formed (p : path) (w w' : World) :
  well_formed (fs w) → p ≠ [] → removes p w w' → well_formed (fs w').
Proof.
  intros Hwf Hp Hrm q k Hq Hk Hkq Hk0.
  pose proof (removes_all _ _ _ Hwf Hp Hrm) as Hall.
  destruct Hrm as (_ & _ & Hout & Hmono).
  assert (Hnq : ¬ p `prefix_of` q).
  { intros Hpq. rewrite (Hall q Hpq) in Hq. by destruct Hq. }
  rewrite Hout.
  - apply (Hwf q); [| done ..]. by rewrite <- Hout.
  - intros Hpk. apply Hnq. by etrans.
Qed.

Lemma compressedFolder_not_nil : compressedFolder ≠ [].
Proof. discriminate. Qed.

Lemma pdfFolder_not_nil : pdfFolder ≠ [].
Proof. discriminate. Qed.

Lemma cleanup_spec (w : World) :
  well_formed (fs w) →
  fs w !! compressedFolder = Some Directory →
  fs w !! pdfFolder = Some Directory →
  ∃ w', cleanup w = (Ok tt, w')
    ∧ console w' = console w
    ∧ (∀ q, compressedFolder `prefix_of` q ∨ pdfFolder `prefix_of` q →
         fs w' !! q = None)
    ∧ (∀ q, ¬ compressedFolder `prefix_of` q → ¬ pdfFolder `prefix_of` q →
         fs w' !! q = fs w !! q).
Proof.
  intros Hwf Hc Hp. unfold cleanup, bind.
  destruct (deleteFolder_spec compressedFolder w Hc) as (w1 & -> & Hrm1).
  assert (Hwf1 : well_formed (fs w1)).
  { eapply removes_well_formed; [exact Hwf | apply compressedFolder_not_nil | done]. }
  pose proof (removes_all _ _ _ Hwf compressedFolder_not_nil Hrm1) as Hall1.
  destruct Hrm1 as (Hc1 & _ & Hout1 & Hmono1).
  assert (Hp1 : fs w1 !! pdfFolder = Some Directory).
  { rewrite Hout1; [done |]. intros [r Hr]. discriminate Hr. }
  destruct (deleteFolder_spec pdfFolder w1 Hp1) as (w2 & -> & Hrm2).
  pose proof (removes_all _ _ _ Hwf1 pdfFolder_not_nil Hrm2) as Hall2.
  destruct Hrm2 as (Hc2 & _ & Hout2 & Hmono2).
  exists w2. split; [done |]. split; [congruence |]. split.
  - intros q [Hq | Hq]; [| by apply Hall2].
    destruct (Hmono2 q) as [-> | ->]; [done | by apply Hall1].
  - intros q Hq1 Hq2. rewrite Hout2, Hout1; done.
Qed.

(** C9: [main] removes the two working folders, with all they hold, exactly
    when the three stages (normalize, generate, merge) completed; when one
    of them fails, nothing at all is removed: the file system stays as the
    failed stage left it, both folders included. *)
Theorem C9_cleanup_gating (sched : list nat) (w : World) :
  well_formed (fs w) →
  fs w !! compressedFolder = Some Directory →
  fs w !! pdfFolder = Some Directory →
  ∃ r wm w',
    stages sched (started w) = (r, wm)
    ∧ main sched w = (match r with Crash e => Crash e | _ => Ok tt end, w')
    ∧ (r = Ok tt →
         (∀ q, compressedFolder `prefix_of` q ∨ pdfFolder `prefix_of` q →
            fs w' !! q = None)
         ∧ (∀ q, ¬ compressedFolder `prefix_of` q → ¬ pdfFolder `prefix_of` q →
              fs w' !! q = fs wm !! q)
         ∧ console w' = console wm ++ [LogSuccess])
    ∧ (r ≠ Ok tt →
         fs w' = fs wm
         ∧ extends (fs w) (fs w')
         ∧ fs w' !! compressedFolder = Some Directory
         ∧ fs w' !! pdfFolder = Some Directory
         ∧ LogSuccess ∉ drop (length (console wm)) (console w')).
Proof.
  intros Hwf Hc Hp.
  destruct (stages sched (started w)) as [r wm] eqn:Hst.
  pose proof (stages_extends _ _ _ _ Hst) as Hext. cbn [started fs] in Hext.
  assert (Hmain : main sched w =
    match r with
    | Ok _ => match cleanup wm with
              | (Ok _, w2) => (Ok tt, {| fs := fs w2; console := console w2 ++ [LogSuccess] |})
              | (Throw e, w2) => (Ok tt, {| fs := fs w2; console := console w2 ++ [LogFailure e] |})
              | (Crash e, w2) => (Crash e, w2)
              end
    | Throw e => (Ok tt, {| fs := fs wm; console := console wm ++ [LogFailure e] |})
    | Crash e => (Crash e, wm)
    end).
  { unfold main, try_catch, bind at 1. cbn. fold (started w).
    unfold bind at 1. rewrite Hst.
    destruct r as [[] | e | e]; [| done ..].
    unfold bind. destruct (cleanup wm) as [[[] | e | e] w2]; done. }
  destruct r as [[] | e | e].
  - destruct (cleanup_spec wm) as (w2 & Hclean & Hcons & Hgone & Hkept).
    { by eapply extends_well_formed. }
    { by apply (extends_directory (fs w)). }
    { by apply (extends_directory (fs w)). }
    rewrite Hclean in Hmain.
    eexists _, wm, _. split; [done |]. split; [exact Hmain |]. split; [| done].
    intros _. cbn. rewrite Hcons. done.
  - eexists _, wm, _. split; [done |]. split; [exact Hmain |]. split; [done |].
    intros _. cbn. split; [done |]. split; [done |].
    split; [by apply (extends_directory (fs w)) |].
    split; [by apply (extends_directory (fs w)) |].
    rewrite drop_app_length.
    intros [Heq | Hin]%elem_of_cons; [discriminate | by apply elem_of_nil in Hin].
  - eexists _, wm, _. split; [done |]. split; [exact Hmain |]. split; [done |].
    intros _. split; [done |]. split; [done |].
    split; [by apply (extends_directory (fs w)) |].
    split; [by apply (extends_directory (fs w)) |].
    rewrite drop_ge by done. by intros ?%elem_of_nil.
Qed.


Lemma well_formed_b_correct (m : gmap path entry) :
  well_formed_b m = true → well_formed m.
Proof.
  unfold well_formed_b. rewrite forallb_forall.
  intros Hall q k [e He] Hk Hkq Hk0.
  assert (Hq : In q (map_to_list m).*1).
  { apply list_elem_of_In, list_elem_of_fmap. exists (q, e). split; [done |].
    by apply elem_of_map_to_list. }
  specialize (Hall q Hq). rewrite forallb_forall in Hall.
  apply is_directory_Some; [done |]. apply Hall.
  apply list_elem_of_In, list_elem_of_fmap. destruct Hk as [r ->].
  exists (length k). split.
  - by rewrite take_app_length.
  - apply elem_of_seq. destruct k; [done |]. destruct r; [by rewrite app_nil_r in Hkq |].
    rewrite length_app. simpl. lia.
Qed.

(** * Further properties of the script *)

Lemma open_result_fs (w : World) (s : Layout) (file : string) :
  fs (world s) = fs w →
  doc_openImage (path_join compressedFolder file) s = (open_result w file, s).
Proof.
  intros Hfs. unfold open_result, doc_openImage. cbn [world start_layout]. rewrite Hfs.
  destruct (fs w !! path_join compressedFolder file) as [[b | pages |] |]; try done.
  by destruct (pdfkit_openImage b).
Qed.

Lemma open_result_not_Crash (w : World) (file : string) (e : error) :
  open_result w file ≠ Crash e.
Proof.
  unfold open_result.
  destruct (doc_openImage _ _) as [r s] eqn:Ho.
  apply doc_openImage_inv in Ho as [_ Hr]. apply Hr.
Qed.

Lemma opened_openable (w : World) (s : Layout) (file : string) (img : Z * Z) :
  fs (world s) = fs w → opened w file = Some img → openable (world s) file img.
Proof.
  intros Hfs Ho. unfold opened in Ho.
  destruct (open_result w file) as [img' | e | e] eqn:Hr; [| done ..].
  injection Ho as ->.
  pose proof (open_result_fs w s file Hfs) as Hd. rewrite Hr in Hd.
  by apply doc_openImage_Ok_inv in Hd as [_ ?].
Qed.

Lemma grid_ops_snoc (cells : list (string * (Z * Z))) (file : string) (img : Z * Z) :
  grid_ops (cells ++ [(file, img)]) =
    grid_ops cells ++ cell_ops file img (cell_x (length cells)) (cell_y (length cells)).
Proof.
  unfold grid_ops. rewrite imap_app, concat_app. cbn [imap concat fst snd].
  rewrite app_nil_r, Nat.add_0_r. reflexivity.
Qed.

Lemma placed_snoc (w : World) (pre : list string) (file : string) :
  placed w (pre ++ [file]) =
    placed w pre ++ match opened w file with Some img => [(file, img)] | None => [] end.
Proof.
  unfold placed. rewrite omap_app. f_equal.
  destruct (opened w file) as [img |] eqn:Ho; cbn; rewrite Ho; reflexivity.
Qed.


Lemma has_first_snoc (w : World) (pre : list string) (file : string) :
  pre ≠ [] → has_first w (pre ++ [file]) = has_first w pre.
Proof. destruct pre; [done | reflexivity]. Qed.

Lemma chunk_log_snoc (w : World) (pre : list string) (file : string) :
  pre ≠ [] →
  chunk_log w (pre ++ [file]) =
    chunk_log w pre ++ option_list (image_log (has_first w pre) w file).
Proof.
  intros Hpre. unfold chunk_log. rewrite has_first_snoc by done.
  rewrite omap_app. reflexivity.
Qed.

Lemma chunk_state_fs (w : World) (pre : list string) :
  fs (world (chunk_state w pre)) = fs w.
Proof. reflexivity. Qed.

Lemma placeImage_open_fails (w : World) (s : Layout) (file : string) (index : nat)
    (e : error) :
  fs (world s) = fs w →
  open_result w file = Throw e →
  placeImage file index s =
    (Ok tt, log_error (LogAddImageError (path_join compressedFolder file) e) s).
Proof.
  intros Hfs Ho. pose proof (open_result_fs w s file Hfs) as Hd. rewrite Ho in Hd.
  eapply placeImage_skips. eapply placeImage_body_open_fails. exact Hd.
Qed.

Lemma placeImage_no_page (s : Layout) (file : string) (index : nat) (img : Z * Z) :
  openable (world s) file img →
  index mod IMAGES_PER_FILE ≠ 0 →
  doc s = [] →
  placeImage file index s =
    (Ok tt, log_error (LogAddImageError (path_join compressedFolder file) NoCurrentPage) s).
Proof.
  intros Ho Hi Hd. eapply placeImage_skips.
  eapply placeImage_body_no_page; eassumption.
Qed.

Lemma draw_cell_snoc (file : string) (img : Z * Z) (x0 y0 : Z) (ps : list page)
    (p : page) :
  draw_cell file img x0 y0 (ps ++ [p]) =
    ps ++ add_ops (cell_ops file img x0 y0) p
      :: caption_pages (page_size p) file img x0 y0.
Proof. unfold draw_cell. by rewrite last_snoc, removelast_last. Qed.

Lemma draw_cell_nonempty (file : string) (img : Z * Z) (x0 y0 : Z) (pages : list page) :
  pages ≠ [] → draw_cell file img x0 y0 pages ≠ [].
Proof.
  destruct pages as [|p ps _] using rev_ind; [done |]. intros _.
  rewrite draw_cell_snoc. by destruct ps.
Qed.

Lemma fill_cells_snoc (cells : list (string * (Z * Z))) (fi : string * (Z * Z))
    (j : nat) (pages : list page) :
  fill_cells (cells ++ [fi]) j pages =
    draw_cell fi.1 fi.2 (cell_x (j + length cells)) (cell_y (j + length cells))
      (fill_cells cells j pages).
Proof.
  revert j pages. induction cells as [|c cells IH]; intros j pages.
  - cbn [app fill_cells length]. by rewrite Nat.add_0_r.
  - cbn [app fill_cells length]. rewrite IH. by rewrite Nat.add_succ_r.
Qed.

Lemma fill_cells_nonempty (cells : list (string * (Z * Z))) (j : nat)
    (pages : list page) :
  pages ≠ [] → fill_cells cells j pages ≠ [].
Proof.
  revert j pages. induction cells as [|c cells IH]; intros j pages Hne; [done |].
  cbn [fill_cells]. by apply IH, draw_cell_nonempty.
Qed.

(** The first image of a chunk. *)
Lemma chunk_first (w : World) (file : string) :
  placeImage file 0 (chunk_state w []) = (Ok tt, chunk_state w [file]).
Proof.
  destruct (open_result w file) as [img | e | e] eqn:Hr.
  - assert (Ho : opened w file = Some img) by (unfold opened; by rewrite Hr).
    rewrite (placeImage_new_page file 0 _ img);
      [| by apply (opened_openable w) | reflexivity].
    f_equal. unfold chunk_state, placed_on_new_page, chunk_pages, chunk_log, placed,
      image_log, has_first.
    repeat (progress (cbn; rewrite ?Ho, ?Hr)). reflexivity.
  - assert (Ho : opened w file = None) by (unfold opened; by rewrite Hr).
    rewrite (placeImage_open_fails w _ file 0 e); [| reflexivity | done].
    f_equal. unfold chunk_state, log_error, chunk_pages, chunk_log, image_log, has_first.
    repeat (progress (cbn; rewrite ?Ho, ?Hr)). rewrite app_nil_r. reflexivity.
  - by destruct (open_result_not_Crash w file e).
Qed.


(** A later image of the chunk: the page, if there is one, is the current
    page, since no index from 1 to 14 is a multiple of 15. *)
Lemma chunk_next (w : World) (pre : list string) (file : string) :
  pre ≠ [] → length pre < 15 →
  placeImage file (length pre) (chunk_state w pre) =
    (Ok tt, chunk_state w (pre ++ [file])).
Proof.
  intros Hpre Hlen.
  assert (Hidx : length pre mod IMAGES_PER_FILE ≠ 0).
  { unfold IMAGES_PER_FILE. destruct pre; [done |].
    rewrite Nat.mod_small; cbn [length] in *; lia. }
  unfold chunk_state at 2.
  rewrite has_first_snoc, chunk_log_snoc, placed_snoc by done.
  unfold chunk_pages. rewrite has_first_snoc, placed_snoc by done.
  unfold image_log.
  destruct (open_result w file) as [img | e | e] eqn:Hr.
  - assert (Ho : opened w file = Some img) by (unfold opened; by rewrite Hr).
    rewrite Ho. destruct (has_first w pre) eqn:Hf.
    + destruct (fill_cells (placed w pre) 0 [{| page_size := PAGE_SIZE; page_ops := [] |}])
        as [|p ps _] eqn:Hdoc using rev_ind.
      { by apply fill_cells_nonempty in Hdoc. }
      rewrite (placeImage_same_page file _ _ img ps p);
        [| by apply (opened_openable w) | done
         | unfold chunk_state, chunk_pages; by rewrite Hf].
      f_equal. unfold placed_on_page, chunk_state. rewrite Hf.
      cbn [world doc x y fs console option_list].
      rewrite fill_cells_snoc, Hdoc, draw_cell_snoc, next_cursor_cell, app_nil_r,
        length_app, Nat.add_1_r.
      reflexivity.
    + rewrite (placeImage_no_page _ file _ img);
        [| by apply (opened_openable w) | done
         | unfold chunk_state, chunk_pages; by rewrite Hf].
      unfold log_error, chunk_state, chunk_pages. rewrite Hf.
      cbn [world doc x y fs console option_list]. rewrite app_assoc. reflexivity.
  - assert (Ho : opened w file = None) by (unfold opened; by rewrite Hr).
    rewrite Ho, app_nil_r.
    rewrite (placeImage_open_fails w _ file _ e); [| reflexivity | done].
    unfold log_error, chunk_state, chunk_pages.
    cbn [world doc x y fs console option_list]. rewrite app_assoc. reflexivity.
  - by destruct (open_result_not_Crash w file e).
Qed.

Lemma chunk_loop (w : World) (rest pre : list string) :
  length (pre ++ rest) ≤ 15 →
  forEach_from (length pre) rest placeImage (chunk_state w pre) =
    (Ok tt, chunk_state w (pre ++ rest)).
Proof.
  revert pre. induction rest as [|file rest IH]; intros pre Hlen.
  - rewrite app_nil_r. reflexivity.
  - rewrite length_app in Hlen. cbn [length] in Hlen.
    cbn [forEach_from]. unfold bind at 1.
    assert (Hstep : placeImage file (length pre) (chunk_state w pre) =
                      (Ok tt, chunk_state w (pre ++ [file]))).
    { destruct pre as [|f0 pre']; [apply chunk_first |].
      apply chunk_next; [done | lia]. }
    rewrite Hstep.
    replace (S (length pre)) with (length (pre ++ [file]))
      by (rewrite length_app; cbn [length]; lia).
    replace (pre ++ file :: rest) with ((pre ++ [file]) ++ rest)
      by (by rewrite <- app_assoc).
    apply IH. rewrite !length_app. cbn [length]. lia.
Qed.

(** ** From the normalized folder to the final document, exactly *)

Lemma open_result_same_fs (w1 w2 : World) (file : string) :
  fs w1 = fs w2 → open_result w1 file = open_result w2 file.
Proof.
  intros Hfs. unfold open_result, doc_openImage. cbn [world start_layout].
  rewrite Hfs.
  destruct (fs w2 !! path_join compressedFolder file) as [[b | pages |] |]; try done.
  by destruct (pdfkit_openImage b).
Qed.

Lemma opened_same_fs (w1 w2 : World) (file : string) :
  fs w1 = fs w2 → opened w1 file = opened w2 file.
Proof. intros Hfs. unfold opened. by rewrite (open_result_same_fs w1 w2). Qed.

Lemma has_first_same_fs (w1 w2 : World) (images : list string) :
  fs w1 = fs w2 → has_first w1 images = has_first w2 images.
Proof.
  intros Hfs. destruct images as [|file rest]; [done |].
  unfold has_first. by rewrite (opened_same_fs w1 w2).
Qed.

Lemma placed_same_fs (w1 w2 : World) (images : list string) :
  fs w1 = fs w2 → placed w1 images = placed w2 images.
Proof.
  intros Hfs. unfold placed. induction images as [|file rest IH]; [done |].
  csimpl. rewrite (opened_same_fs w1 w2) by done. by rewrite IH.
Qed.

Lemma chunk_pages_same_fs (w1 w2 : World) (images : list string) :
  fs w1 = fs w2 → chunk_pages w1 images = chunk_pages w2 images.
Proof.
  intros Hfs. unfold chunk_pages.
  by rewrite (has_first_same_fs w1 w2), (placed_same_fs w1 w2).
Qed.

Lemma chunk_log_same_fs (w1 w2 : World) (images : list string) :
  fs w1 = fs w2 → chunk_log w1 images = chunk_log w2 images.
Proof.
  intros Hfs. unfold chunk_log. rewrite (has_first_same_fs w1 w2) by done.
  generalize (has_first w2 images). intros b.
  induction images as [|file rest IH]; [done |].
  assert (Hi : image_log b w1 file = image_log b w2 file).
  { unfold image_log. by rewrite (open_result_same_fs w1 w2). }
  csimpl. rewrite Hi, IH. reflexivity.
Qed.

(** [createPDF] on a chunk, as a function of the normalized folder. *)
Lemma createPDF_chunk (images : list string) (pdfIndex : nat) (w : World) :
  length images ≤ 15 →
  createPDF images pdfIndex w =
    (Ok (chunk_task w (images, pdfIndex)),
     {| fs := fs w; console := console w ++ chunk_log w images |}).
Proof.
  intros Hlen. unfold createPDF, try_catch, forEach.
  assert (Hstart : start_layout w = chunk_state w []).
  { unfold start_layout, chunk_state. cbn. rewrite app_nil_r. by destruct w. }
  pose proof (chunk_loop w images [] Hlen) as Hloop. cbn [length app] in Hloop.
  rewrite Hstart, Hloop. reflexivity.
Qed.

Lemma run_chunks_exact (cs : list (list string * nat)) :
  Forall (λ c, length c.1 ≤ 15) cs →
  ∀ tasks w,
    run_chunks cs tasks w =
      (Ok (tasks ++ (chunk_task w <$> cs)),
       {| fs := fs w;
          console := console w ++ concat ((λ c, chunk_log w c.1) <$> cs) |}).
Proof.
  induction 1 as [|[chunk idx] cs Hlen _ IH]; intros tasks w.
  - cbn. rewrite !app_nil_r. by destruct w.
  - cbn [run_chunks]. rewrite createPDF_chunk by done.
    rewrite IH. cbn [fs console fst snd fmap list_fmap concat].
    set (w1 := {| fs := fs w; console := console w ++ chunk_log w chunk |}).
    assert (Hfs : fs w1 = fs w) by reflexivity.
    f_equal.
    + f_equal. rewrite <- app_assoc. f_equal. cbn [app]. f_equal.
      apply list_fmap_ext. intros i c _. unfold chunk_task.
      by rewrite (chunk_pages_same_fs w1 w).
    + f_equal. rewrite <- app_assoc. f_equal. f_equal. f_equal.
      apply list_fmap_ext. intros i c _. by rewrite (chunk_log_same_fs w1 w).
Qed.

Lemma chunks_short (files : list string) :
  Forall (λ c : list string * nat, length c.1 ≤ 15) (chunks files 0).
Proof.
  apply Forall_lookup. intros k [c idx] Hk.
  apply chunks_lookup in Hk as (_ & -> & _). cbn [fst].
  rewrite slice_length. lia.
Qed.

(** The tasks of the orchestrator, as a function of the normalized folder. *)
Lemma createTasks_exact (files : list string) (w : World) :
  createTasks files 0 [] w =
    (Ok (chunk_task w <$> chunks files 0),
     {| fs := fs w;
        console := console w ++ concat ((λ c, chunk_log w c.1) <$> chunks files 0) |}).
Proof.
  rewrite createTasks_chunks, run_chunks_exact by apply chunks_short. reflexivity.
Qed.

Lemma tasks_shape_exact (files : list string) (w : World) :
  tasks_shape (chunk_task w <$> chunks files 0).
Proof.
  intros i p Hp. rewrite list_lookup_fmap in Hp.
  destruct (chunks files 0 !! i) as [[c idx] |] eqn:Hc; [| done].
  injection Hp as <-. apply chunks_lookup in Hc as (_ & _ & ->).
  eexists. split; [reflexivity |]. cbn [outputPDF snd]. f_equal. lia.
Qed.

(** A completed generation, exactly. *)
Lemma createPDFsFromImages_exact (sched : list nat) (w : World) r w' :
  createPDFsFromImages sched w = (Ok r, w') →
  let cs := chunks (normalized_files (fs w)) 0 in
  r = (λ c, outputPDF_path c.2) <$> cs
  ∧ console w' = console w ++ layout_log w ++ [LogGenerated r]
  ∧ (∀ c, c ∈ cs → fs w' !! outputPDF_path c.2 = Some (PdfFile (chunk_pages w c.1)))
  ∧ (∀ q, (∀ a, q ≠ outputPDF_path a) → fs w' !! q = fs w !! q).
Proof.
  unfold createPDFsFromImages, bind at 1, readdirSync.
  destruct (fs w !! compressedFolder) as [[b | pg |] |]; try done.
  intros Hgen. fold (normalized_files (fs w)) in Hgen.
  unfold bind in Hgen. rewrite createTasks_exact in Hgen.
  fold (layout_log w) in Hgen.
  set (cs := chunks (normalized_files (fs w)) 0) in *.
  set (w1 := {| fs := fs w; console := console w ++ layout_log w |}) in *.
  pose proof (tasks_shape_exact (normalized_files (fs w)) w) as Hshape. fold cs in Hshape.
  destruct (Promise_all sched (chunk_task w <$> cs) w1)
    as [[generated | e | e] w2] eqn:Hall; [| done ..].
  cbn in Hgen. injection Hgen as <- <-.
  destruct (Promise_all_Ok _ _ _ _ _ Hshape Hall) as (Hr & Hc & Hframe & Hfiles).
  rewrite length_fmap in Hr.
  assert (Hpaths : generated = (λ c, outputPDF_path c.2) <$> cs).
  { rewrite Hr. apply list_eq. intros i. rewrite !list_lookup_fmap.
    destruct (cs !! i) as [[c idx] |] eqn:Hci.
    - rewrite lookup_seq_lt by (by eapply lookup_lt_Some). cbn.
      apply chunks_lookup in Hci as (_ & _ & ->). do 2 f_equal. lia.
    - rewrite lookup_seq_ge; [done |]. by apply lookup_ge_None. }
  split; [done |]. split; [| split].
  - cbn [console]. rewrite Hc. unfold w1. cbn [console]. by rewrite <- app_assoc.
  - intros c Hin. apply list_elem_of_lookup in Hin as [i Hi].
    apply (Hfiles i {| outputPDF := outputPDF_path c.2;
                       document := chunk_pages w c.1 |}).
    rewrite list_lookup_fmap, Hi. reflexivity.
  - intros q Hq. cbn [fs]. by rewrite Hframe.
Qed.

Lemma finalPDF_ne_outputPDF_path (a : nat) : finalPDF ≠ outputPDF_path a.
Proof. unfold finalPDF, outputPDF_path, path_join, pdfFolder. done. Qed.

(** Completed stages, exactly. *)
Lemma stages_exact (sched : list nat) (w w' : World) :
  stages sched w = (Ok tt, w') →
  ∃ wa,
    analyzeAndCompressImages w = (Ok tt, wa)
    ∧ fs w' !! finalPDF = Some (PdfFile (final_pages wa))
    ∧ (∀ c, c ∈ chunks (normalized_files (fs wa)) 0 →
         fs w' !! outputPDF_path c.2 = Some (PdfFile (chunk_pages wa c.1)))
    ∧ (∀ q, q ≠ finalPDF → (∀ a, q ≠ outputPDF_path a) → fs w' !! q = fs wa !! q)
    ∧ console w' =
        console wa ++ layout_log wa
          ++ [LogGenerated ((λ c, outputPDF_path c.2) <$> chunks (normalized_files (fs wa)) 0);
              LogMerged finalPDF].
Proof.
  unfold stages, bind.
  destruct (analyzeAndCompressImages w) as [[[] | e | e] wa]; [| done ..].
  destruct (createPDFsFromImages sched wa) as [[r | e | e] w1] eqn:Hgen; [| done ..].
  intros Hmerge. exists wa. split; [done |].
  destruct (createPDFsFromImages_exact _ _ _ _ Hgen) as (Hr & Hc & Hfiles & Hframe).
  destruct (mergePDFs_Ok_inv _ _ _ Hmerge) as (merged & Hloop & Hfs & Hcm).
  set (cs := chunks (normalized_files (fs wa)) 0) in *.
  rewrite (mergeLoop_concat _ ((λ c, chunk_pages wa c.1) <$> cs)) in Hloop.
  2:{ rewrite Hr. apply Forall2_fmap. apply Forall_Forall2_diag.
      apply Forall_forall. intros c Hin. by apply Hfiles. }
  injection Hloop as <-.
  split; [| split; [| split]].
  - rewrite Hfs. apply lookup_insert_eq.
  - intros c Hin. rewrite Hfs, lookup_insert_ne by apply finalPDF_ne_outputPDF_path.
    by apply Hfiles.
  - intros q Hq Hqa. rewrite Hfs, lookup_insert_ne by done. by apply Hframe.
  - rewrite Hcm, Hc, Hr, <- !app_assoc. reflexivity.
Qed.

(** X11: when the three stages complete, what they leave is a function of
    the normalized folder the Normalizer left, whatever the order in which
    the streams finished: the intermediate document of every chunk is on
    disk and holds the page the script opens for the chunk, with the images
    [pdfkit] opens, and the pages [pdfkit] opens for captions that do not
    fit; the final document holds the pages of these documents, chunk after
    chunk, or one blank page when they have no page; nothing else changed
    after the Normalizer, and the log is the lines of the layout followed by
    the two lines of the generation and the merge. *)
Theorem X11_final_document_of_normalized_folder (sched : list nat) (w w' : World) :
  stages sched w = (Ok tt, w') →
  ∃ wa,
    analyzeAndCompressImages w = (Ok tt, wa)
    ∧ fs w' !! finalPDF = Some (PdfFile (final_pages wa))
    ∧ (final_pages wa =
         match concat ((λ c, chunk_pages wa c.1) <$> chunks (normalized_files (fs wa)) 0) with
         | [] => [pdflib_default_page]
         | pg :: pages => pg :: pages
         end)
    ∧ (∀ c, c ∈ chunks (normalized_files (fs wa)) 0 →
         fs w' !! outputPDF_path c.2 = Some (PdfFile (chunk_pages wa c.1)))
    ∧ (∀ q, q ≠ finalPDF → (∀ a, q ≠ outputPDF_path a) → fs w' !! q = fs wa !! q)
    ∧ console w' =
        console wa ++ layout_log wa
          ++ [LogGenerated ((λ c, outputPDF_path c.2) <$> chunks (normalized_files (fs wa)) 0);
              LogMerged finalPDF].
Proof.
  intros Hst. destruct (stages_exact _ _ _ Hst) as (wa & Hn & Hfinal & Hdocs & Hframe & Hc).
  exists wa. split; [done |]. split; [done |]. split; [| done].
  unfold final_pages, PDFDocument_save. by destruct (concat _).
Qed.

(** ** The layout of a chunk, with the images that fail *)

Lemma grid_ops_length (cells : list (string * (Z * Z))) :
  length (grid_ops cells) = 2 * length cells.
Proof.
  induction cells as [|[file img] cells IH] using rev_ind; [reflexivity |].
  rewrite grid_ops_snoc, !length_app, IH. cbn [length cell_ops]. lia.
Qed.

Lemma grid_ops_lookup (cells : list (string * (Z * Z))) (k : nat) (file : string)
    (img : Z * Z) :
  cells !! k = Some (file, img) →
  take 2 (drop (2 * k) (grid_ops cells)) = cell_ops file img (cell_x k) (cell_y k).
Proof.
  induction cells as [|[f i] cells IH] using rev_ind; [done |].
  intros Hk. rewrite grid_ops_snoc.
  destruct (decide (k < length cells)) as [Hlt | Hge].
  - rewrite lookup_app_l in Hk by done.
    rewrite take_drop_app_l by (rewrite grid_ops_length; lia). by apply IH.
  - assert (k = length cells) as ->.
    { apply lookup_lt_Some in Hk. rewrite length_app in Hk. cbn [length] in Hk. lia. }
    rewrite lookup_app_r, Nat.sub_diag in Hk by lia. injection Hk as -> ->.
    rewrite drop_app_ge by (rewrite grid_ops_length; lia).
    rewrite grid_ops_length, Nat.sub_diag. reflexivity.
Qed.

Lemma image_log_page (w : World) (file : string) :
  image_log true w file = None ↔ is_Some (opened w file).
Proof.
  unfold image_log, opened. destruct (open_result w file); split;
    first [done | by intros [? ?] | by eexists].
Qed.

Lemma chunk_counts (w : World) (images : list string) :
  length (omap (image_log true w) images) + length (placed w images) = length images.
Proof.
  unfold placed. induction images as [|file rest IH]; [reflexivity |].
  csimpl. pose proof (image_log_page w file) as Hp.
  destruct (image_log true w file) as [l |], (opened w file) as [img |];
    cbn [fmap option_fmap option_map length]; try lia.
  - destruct Hp as [_ Hp]. by discriminate Hp.
  - destruct Hp as [Hp _]. by destruct Hp.
Qed.

Lemma script_ops_app (ps qs : list page) :
  script_ops (ps ++ qs) = script_ops ps ++ script_ops qs.
Proof. unfold script_ops. by rewrite fmap_app, concat_app, filter_app. Qed.

Lemma script_ops_cons (p : page) (ps : list page) :
  script_ops (p :: ps) = script_ops [p] ++ script_ops ps.
Proof. apply (script_ops_app [p] ps). Qed.

Lemma script_ops_caption_pages (sz : float * float) (file : string) (img : Z * Z)
    (x0 y0 : Z) :
  script_ops (caption_pages sz file img x0 y0) = [].
Proof.
  unfold caption_pages.
  induction (pdfkit_text_overflow _ _ _ _ _) as [|sz' l IH]; [reflexivity |].
  rewrite fmap_cons, script_ops_cons, IH. reflexivity.
Qed.

Lemma script_ops_cell (file : string) (img : Z * Z) (x0 y0 : Z) (p : page) :
  script_ops [add_ops (cell_ops file img x0 y0) p] =
    script_ops [p] ++ cell_ops file img x0 y0.
Proof.
  unfold script_ops. cbn [fmap list_fmap concat add_ops page_ops].
  rewrite !app_nil_r, filter_app. reflexivity.
Qed.

(** Whatever pages [pdfkit] opens, the script draws the cells in order. *)
Lemma script_ops_fill_cells (cells : list (string * (Z * Z))) :
  script_ops (fill_cells cells 0 [{| page_size := PAGE_SIZE; page_ops := [] |}]) =
    grid_ops cells.
Proof.
  induction cells as [|[file img] cells IH] using rev_ind; [reflexivity |].
  rewrite fill_cells_snoc, grid_ops_snoc, <- IH. cbn [fst snd plus].
  destruct (fill_cells cells 0 _) as [|p ps _] eqn:Hdoc using rev_ind.
  { by apply fill_cells_nonempty in Hdoc. }
  rewrite draw_cell_snoc.
  rewrite (script_ops_app ps (_ :: _)), script_ops_cons.
  rewrite script_ops_caption_pages, app_nil_r, script_ops_cell, script_ops_app.
  by rewrite app_assoc.
Qed.

Lemma draw_cell_head (file : string) (img : Z * Z) (x0 y0 : Z) (pages : list page) :
  page_size <$> head (draw_cell file img x0 y0 pages) = page_size <$> head pages.
Proof.
  destruct pages as [|p ps _] using rev_ind; [reflexivity |].
  rewrite draw_cell_snoc. by destruct ps.
Qed.

Lemma fill_cells_head (cells : list (string * (Z * Z))) (j : nat) (pages : list page) :
  page_size <$> head (fill_cells cells j pages) = page_size <$> head pages.
Proof.
  revert j pages. induction cells as [|c cells IH]; intros j pages; [reflexivity |].
  cbn [fill_cells]. by rewrite IH, draw_cell_head.
Qed.

(** When every caption fits, the cells fill the one page. *)
Lemma fill_cells_fit (cells : list (string * (Z * Z))) :
  (∀ k file img, cells !! k = Some (file, img) → caption_fits file img k) →
  fill_cells cells 0 [{| page_size := PAGE_SIZE; page_ops := [] |}] =
    [{| page_size := PAGE_SIZE; page_ops := grid_ops cells |}].
Proof.
  induction cells as [|[file img] cells IH] using rev_ind; intros Hfit; [reflexivity |].
  rewrite fill_cells_snoc, IH.
  2:{ intros k f i Hk. apply Hfit. by apply lookup_app_l_Some. }
  cbn [fst snd plus].
  change [{| page_size := PAGE_SIZE; page_ops := grid_ops cells |}]
    with ([] ++ [{| page_size := PAGE_SIZE; page_ops := grid_ops cells |}]).
  rewrite draw_cell_snoc. cbn [app page_size].
  rewrite caption_fits_pages.
  2:{ apply Hfit. by rewrite lookup_app_r, Nat.sub_diag. }
  unfold add_ops. cbn [page_size page_ops]. by rewrite grid_ops_snoc.
Qed.

(** X8: a chunk of at most 15 images gives at once a pending task for the
    path of its index, never a rejection, and leaves the file system alone.
    When its first image does not open, the document has no page.  When it
    opens, the document begins with the page of 600 by 800 the script opens,
    and what the script draws, page after page, is the cells one after the
    other from the first, without a gap for an image that fails: the image
    that is the k-th to open is drawn at the place of cell k; every image is
    either drawn or logged.  When every caption fits on the page, the
    document is that one page, and the k-th image to open is in its cell k. *)
Theorem X8_chunk_layout (images : list string) (pdfIndex : nat) (w : World) :
  length images ≤ 15 →
  createPDF images pdfIndex w =
    (Ok (Pending {| outputPDF := outputPDF_path pdfIndex;
                    document := chunk_pages w images |}),
     {| fs := fs w; console := console w ++ chunk_log w images |})
  ∧ (has_first w images = false → chunk_pages w images = [])
  ∧ (has_first w images = true →
       (∃ pg pages, chunk_pages w images = pg :: pages
                    ∧ page_size pg = (600, 800)%float)
       ∧ script_ops (chunk_pages w images) = grid_ops (placed w images)
       ∧ (∀ k file img, placed w images !! k = Some (file, img) →
            take 2 (drop (2 * k) (script_ops (chunk_pages w images))) =
              cell_ops file img (cell_x k) (cell_y k))
       ∧ length (chunk_log w images) + length (placed w images) = length images)
  ∧ (captions_fit w images →
       length (chunk_pages w images) ≤ 1
       ∧ ∀ pg, pg ∈ chunk_pages w images →
           page_size pg = (600, 800)%float
           ∧ length (page_ops pg) = 2 * length (placed w images)
           ∧ ∀ k file img, placed w images !! k = Some (file, img) →
               take 2 (drop (2 * k) (page_ops pg)) =
                 cell_ops file img (cell_x k) (cell_y k)).
Proof.
  intros Hlen. split; [by apply createPDF_chunk |].
  unfold captions_fit, chunk_pages, chunk_log. destruct (has_first w images).
  - split; [done |]. split.
    + intros _. split; [| split; [| split]].
      * pose proof (fill_cells_head (placed w images) 0
                      [{| page_size := PAGE_SIZE; page_ops := [] |}]) as Hhead.
        destruct (fill_cells (placed w images) 0 _) as [|pg pages] eqn:Hdoc.
        { by apply fill_cells_nonempty in Hdoc. }
        exists pg, pages. split; [done |]. cbn in Hhead. by injection Hhead.
      * apply script_ops_fill_cells.
      * intros k file img Hk. rewrite script_ops_fill_cells. by apply grid_ops_lookup.
      * apply chunk_counts.
    + intros Hfit. rewrite fill_cells_fit by done. split; [done |].
      intros pg Hpg. apply list_elem_of_singleton in Hpg as ->. cbn [page_size page_ops].
      split; [reflexivity |]. split; [apply grid_ops_length |].
      intros k file img Hk. by apply grid_ops_lookup.
  - split; [done |]. split; [done |]. intros _. split; [cbn; lia |].
    intros pg Hpg. by apply elem_of_nil in Hpg.
Qed.

(** X9: when the first image of a chunk does not open, no page is ever
    opened, since the page break is skipped with it: the document has no
    page, and every image of the chunk is logged, the ones that would open
    with the error of [pdfkit] for drawing without a page. *)
Theorem X9_first_image_fails (file : string) (rest : list string) (pdfIndex : nat)
    (w : World) :
  length (file :: rest) ≤ 15 →
  opened w file = None →
  ∃ w',
    createPDF (file :: rest) pdfIndex w =
      (Ok (Pending {| outputPDF := outputPDF_path pdfIndex; document := [] |}), w')
    ∧ fs w' = fs w
    ∧ console w' = console w ++ chunk_log w (file :: rest)
    ∧ length (chunk_log w (file :: rest)) = length (file :: rest)
    ∧ (∀ g, g ∈ rest → is_Some (opened w g) →
         LogAddImageError (path_join compressedFolder g) NoCurrentPage
           ∈ chunk_log w (file :: rest)).
Proof.
  intros Hlen Hnone. eexists. rewrite createPDF_chunk by done.
  assert (Hf : has_first w (file :: rest) = false).
  { unfold has_first. rewrite Hnone. apply bool_decide_eq_false. by intros [? ?]. }
  unfold chunk_task. cbn [fst snd]. unfold chunk_pages. rewrite Hf.
  split; [reflexivity |]. split; [reflexivity |]. split; [reflexivity |].
  unfold chunk_log. rewrite Hf. split.
  - generalize (file :: rest). intros l. induction l as [|g l IH]; [reflexivity |].
    csimpl. unfold image_log at 1.
    destruct (open_result w g) as [img | e | e]; cbn [length]; by rewrite IH.
  - intros g Hg [img Hopen]. apply list_elem_of_omap. exists g.
    split; [by apply list_elem_of_further |].
    unfold image_log. unfold opened in Hopen.
    by destruct (open_result w g).
Qed.

(** ** The working folders (lines 21 and 22) *)

Lemma compressedFolder_ne_pdfFolder : compressedFolder ≠ pdfFolder.
Proof. unfold compressedFolder, pdfFolder. intros [= Heq]. Qed.

Lemma ensure_folder (p : path) (w : World) :
  parent p = [] →
  ∃ w1,
    (b <- existsSync p ;; if negb b then mkdirSync p else ret tt) w = (Ok tt, w1)
    ∧ console w1 = console w
    ∧ fs w1 = match fs w !! p with Some _ => fs w | None => <[p := Directory]> (fs w) end.
Proof.
  intros Hparent. unfold bind, existsSync, mkdirSync.
  destruct (fs w !! p) as [e |] eqn:Hp; cbn [negb].
  - exists w. by rewrite ?Hp.
  - rewrite Hp, Hparent. cbn [is_directory]. eexists. split; [reflexivity |]. done.
Qed.

(** What the two lines do to the file system. *)
Lemma create_folders_lookup (w : World) :
  ∃ w1,
    create_folders w = (Ok tt, w1)
    ∧ console w1 = console w
    ∧ ∀ q, fs w1 !! q =
        match fs w !! q with
        | Some e => Some e
        | None => if bool_decide (q = compressedFolder ∨ q = pdfFolder)
                  then Some Directory else None
        end.
Proof.
  unfold create_folders.
  destruct (ensure_folder compressedFolder w) as (wc & Hc & Hcc & Hcf); [reflexivity |].
  destruct (ensure_folder pdfFolder wc) as (w1 & Hp & Hpc & Hpf); [reflexivity |].
  exists w1. split; [unfold bind at 1; by rewrite Hc |]. split; [congruence |].
  intros q. rewrite Hpf.
  assert (Hwc : fs wc !! q =
            match fs w !! q with
            | Some e => Some e
            | None => if bool_decide (q = compressedFolder) then Some Directory else None
            end).
  { rewrite Hcf. destruct (fs w !! compressedFolder) as [e |] eqn:Hce.
    - destruct (fs w !! q) as [e' |] eqn:Hq; [done |].
      rewrite bool_decide_eq_false_2; [done | congruence].
    - destruct (decide (q = compressedFolder)) as [-> | Hne].
      + rewrite lookup_insert_eq, Hce, bool_decide_eq_true_2; done.
      + rewrite lookup_insert_ne by done.
        destruct (fs w !! q); [done |]. by rewrite bool_decide_eq_false_2. }
  destruct (fs wc !! pdfFolder) as [e |] eqn:Hpe.
  - rewrite Hwc. destruct (fs w !! q) as [e' |] eqn:Hq; [done |].
    destruct (decide (q = compressedFolder)) as [-> | Hne].
    + rewrite !bool_decide_eq_true_2; auto.
    + rewrite bool_decide_eq_false_2 by done.
      rewrite bool_decide_eq_false_2; [done |].
      intros [-> | ->]; [done |]. rewrite Hwc in Hpe.
      by rewrite bool_decide_eq_false_2 in Hpe.
  - destruct (decide (q = pdfFolder)) as [-> | Hne].
    + rewrite lookup_insert_eq. rewrite Hwc in Hpe.
      destruct (fs w !! pdfFolder); [done |].
      rewrite bool_decide_eq_true_2; auto.
    + rewrite lookup_insert_ne by done. rewrite Hwc.
      destruct (fs w !! q); [done |].
      destruct (decide (q = compressedFolder)) as [-> | Hne'].
      * rewrite !bool_decide_eq_true_2; auto.
      * rewrite !bool_decide_eq_false_2; [done | | done]. by intros [? | ?].
Qed.

(** Where both folders exist, the two lines change nothing. *)
Lemma create_folders_present (w : World) :
  is_Some (fs w !! compressedFolder) → is_Some (fs w !! pdfFolder) →
  create_folders w = (Ok tt, w).
Proof.
  intros [ec Hc] [ep Hp]. unfold create_folders, bind, existsSync.
  rewrite Hc. cbn. by rewrite Hp.
Qed.

(** X1: the two working folders are created when they are missing and left
    as they are when something is already at their path; nothing else
    changes and nothing is logged; the step cannot fail, and running it
    again changes nothing. *)
Theorem X1_create_folders (w : World) :
  ∃ w1,
    create_folders w = (Ok tt, w1)
    ∧ console w1 = console w
    ∧ (∀ q, is_Some (fs w !! q) → fs w1 !! q = fs w !! q)
    ∧ (∀ q, fs w !! q = None →
         fs w1 !! q =
           if bool_decide (q = compressedFolder ∨ q = pdfFolder)
           then Some Directory else None)
    ∧ create_folders w1 = (Ok tt, w1).
Proof.
  destruct (create_folders_lookup w) as (w1 & Hrun & Hc & Hlookup).
  exists w1. split; [done |]. split; [done |]. split; [| split].
  - intros q [e Hq]. by rewrite Hlookup, Hq.
  - intros q Hq. by rewrite Hlookup, Hq.
  - apply create_folders_present; rewrite Hlookup.
    + destruct (fs w !! compressedFolder); [by eexists |].
      rewrite bool_decide_eq_true_2 by auto. by eexists.
    + destruct (fs w !! pdfFolder); [by eexists |].
      rewrite bool_decide_eq_true_2 by auto. by eexists.
Qed.

(** ** [validateImage] and [compressImage] on their own *)

(** X3: [validateImage] never throws, whatever is at the path, and never
    changes the file system: it returns the metadata, logging nothing, when
    the path holds a file [sharp] decodes, and [null] after logging exactly
    one line otherwise (missing file, directory, bytes that do not decode). *)
Theorem X3_validateImage_total (inputPath : path) (w : World) :
  ∃ o w',
    validateImage inputPath w = (Ok o, w')
    ∧ fs w' = fs w
    ∧ match o with
      | Some metadata =>
          console w' = console w
          ∧ ∃ b, fs w !! inputPath = Some (File b) ∧ sharp_metadata b = Some metadata
      | None =>
          (∃ e, console w' = console w ++ [LogInvalidImage inputPath e])
          ∧ ∀ b, fs w !! inputPath = Some (File b) → sharp_metadata b = None
      end.
Proof.
  unfold validateImage, try_catch, bind, sharp_read_metadata, console_log, ret.
  destruct (fs w !! inputPath) as [[b | pages |] |] eqn:Hp.
  - destruct (sharp_metadata b) as [metadata |] eqn:Hmd.
    + exists (Some metadata), w. repeat split; eauto.
    + eexists None, _. split; [reflexivity |]. split; [reflexivity |]. split.
      * eexists. reflexivity.
      * intros b' [= <-]. done.
  - eexists None, _. split; [reflexivity |]. split; [reflexivity |]. split.
    + eexists. reflexivity.
    + intros b' [=].
  - eexists None, _. split; [reflexivity |]. split; [reflexivity |]. split.
    + eexists. reflexivity.
    + intros b' [=].
  - eexists None, _. split; [reflexivity |]. split; [reflexivity |]. split.
    + eexists. reflexivity.
    + intros b' [=].
Qed.

(** X4: [compressImage] never throws and logs exactly one line.  Either the
    line reports the compression, and then the output path holds what
    [sharp] made of the input at width 1920 and quality 80 and nothing else
    changed; or it reports an error, and then the file system is as it was:
    no file is written for an input that is missing or that [sharp] cannot
    re-encode, nor into a folder that does not exist. *)
Theorem X4_compressImage_total (inputPath outputPath : path) (w : World) :
  ∃ w' l,
    compressImage inputPath outputPath w = (Ok tt, w')
    ∧ console w' = console w ++ [l]
    ∧ ((l = LogCompressed outputPath
        ∧ ∃ b b', fs w !! inputPath = Some (File b)
                  ∧ sharp_resize_jpeg b 1920 80 = Some b'
                  ∧ fs w' = <[outputPath := File b']> (fs w))
       ∨ ((∃ e, l = LogCompressError inputPath e) ∧ fs w' = fs w)).
Proof.
  unfold compressImage, try_catch, bind, sharp_resize_toFile, console_log,
    TARGET_WIDTH, JPEG_QUALITY.
  destruct (fs w !! inputPath) as [[b | pages |] |] eqn:Hp;
    try (eexists _, _; split; [reflexivity |]; split; [reflexivity |];
         right; split; [eexists; reflexivity | reflexivity]).
  destruct (sharp_resize_jpeg b 1920 80) as [b' |] eqn:Hr.
  2:{ eexists _, _. split; [reflexivity |]. split; [reflexivity |].
      right. split; [eexists; reflexivity | reflexivity]. }
  unfold writeFileSync.
  destruct (write_file outputPath (File b') (fs w)) as [err | m] eqn:Hw.
  - eexists _, _. split; [reflexivity |]. split; [reflexivity |].
    right. split; [eexists; reflexivity | reflexivity].
  - eexists _, _. split; [reflexivity |]. split; [reflexivity |].
    left. split; [reflexivity |]. exists b, b'. split; [done |]. split; [done |].
    cbn [fs set_fs]. unfold write_file in Hw.
    destruct (is_directory (fs w) (parent outputPath)); [| done].
    destruct (fs w !! outputPath) as [[] |]; congruence.
Qed.

(** ** The merge, when it fails *)

Lemma mergeLoop_cases (pdfPaths : list path) (mergedPdf : list page) (w : World) :
  match mergeLoop pdfPaths mergedPdf w with
  | (Ok _, w') =>
      w' = w ∧ Forall (λ p, ∃ pages, fs w !! p = Some (PdfFile pages)) pdfPaths
  | (Throw _, w') =>
      w' = w ∧ Exists (λ p, ∀ pages, fs w !! p ≠ Some (PdfFile pages)) pdfPaths
  | (Crash _, _) => False
  end.
Proof.
  revert mergedPdf. induction pdfPaths as [|p rest IH]; intros merged; cbn [mergeLoop].
  - cbn. done.
  - unfold bind at 1, readFileSync.
    destruct (fs w !! p) as [[b | pages |] |] eqn:Hp; cbn.
    + split; [done |]. left. intros pages. congruence.
    + unfold bind at 1. rewrite copyPages_all.
      specialize (IH (addPages merged pages)).
      destruct (mergeLoop rest (addPages merged pages) w) as [[m | e | e] w']; [| | done].
      * destruct IH as [-> IH]. split; [done |]. constructor; [by eexists | done].
      * destruct IH as [-> IH]. split; [done |]. by right.
    + split; [done |]. left. intros pages. congruence.
    + split; [done |]. left. intros pages. congruence.
Qed.

(** X15: the merge is all or nothing.  It completes exactly when every
    listed document is on disk and the final path is not a directory; then
    only the final path changes.  Otherwise it throws and leaves the world
    as it was: no final document is written, not even in part, and nothing
    is logged. *)
Theorem X15_merge_all_or_nothing (pdfPaths : list path) (w : World) :
  match mergePDFs pdfPaths w with
  | (Ok _, w') =>
      Forall (λ p, ∃ pages, fs w !! p = Some (PdfFile pages)) pdfPaths
      ∧ fs w !! finalPDF ≠ Some Directory
      ∧ (∃ mergedPdf, fs w' = <[finalPDF := PdfFile mergedPdf]> (fs w))
      ∧ console w' = console w ++ [LogMerged finalPDF]
  | (Throw _, w') =>
      w' = w
      ∧ (Exists (λ p, ∀ pages, fs w !! p ≠ Some (PdfFile pages)) pdfPaths
         ∨ fs w !! finalPDF = Some Directory)
  | (Crash _, _) => False
  end.
Proof.
  unfold mergePDFs, bind.
  pose proof (mergeLoop_cases pdfPaths [] w) as Hloop.
  destruct (mergeLoop pdfPaths [] w) as [[merged | e | e] w1]; [| | done].
  - destruct Hloop as [-> Hall]. unfold writeFileSync, write_file.
    rewrite parent_finalPDF. cbn [is_directory].
    destruct (fs w !! finalPDF) as [[b | pages |] |] eqn:Hf; cbn.
    + split; [done |]. split; [done |]. split; [by eexists | done].
    + split; [done |]. split; [done |]. split; [by eexists | done].
    + split; [done |]. by right.
    + split; [done |]. split; [done |]. split; [by eexists | done].
  - destruct Hloop as [-> Hex]. split; [done |]. by left.
Qed.

(** ** The filter on file names (lines 50 to 52 and 137 to 139) *)

Lemma lower_ascii_dot (c : ascii) : Ascii.eqb (lower_ascii c) "." = Ascii.eqb c ".".
Proof. destruct c as [[] [] [] [] [] [] [] []]; vm_compute; reflexivity. Qed.

Lemma toLowerCase_length (s : string) : String.length (toLowerCase s) = String.length s.
Proof. induction s as [|c s IH]; [done |]. cbn. by rewrite IH. Qed.

Lemma from_last_dot_lower (s : string) :
  from_last_dot (toLowerCase s) = toLowerCase <$> from_last_dot s.
Proof.
  induction s as [|c s IH]; [done |].
  cbn [toLowerCase from_last_dot]. rewrite IH.
  destruct (from_last_dot s) as [e |]; [done |]. cbn [fmap option_fmap option_map].
  rewrite lower_ascii_dot. by destruct (Ascii.eqb c ".").
Qed.

Lemma string_app_nil_l (s : string) : "" +:+ s = s.
Proof. reflexivity. Qed.

Lemma string_app_cons (c : ascii) (s1 s2 : string) :
  String c s1 +:+ s2 = String c (s1 +:+ s2).
Proof. reflexivity. Qed.

(** The text returned starts at a dot, ends the name, and holds no other dot. *)
Lemma from_last_dot_Some (s e : string) :
  from_last_dot s = Some e →
  ∃ pre e', s = pre +:+ e ∧ e = String "." e' ∧ from_last_dot e' = None.
Proof.
  induction s as [|c s IH]; [done |]. cbn [from_last_dot].
  destruct (from_last_dot s) as [e0 |] eqn:Hs.
  - intros [= <-]. destruct (IH eq_refl) as (pre & e' & -> & -> & He').
    by exists (String c pre), e'.
  - destruct (Ascii.eqb c ".") eqn:Hc; [| done]. intros [= <-].
    apply Ascii.eqb_eq in Hc as ->. by exists "", s.
Qed.

Lemma from_last_dot_app (pre e' : string) :
  from_last_dot e' = None →
  from_last_dot (pre +:+ String "." e') = Some (String "." e').
Proof.
  intros He'. induction pre as [|c pre IH].
  - rewrite string_app_nil_l. cbn. by rewrite He'.
  - rewrite string_app_cons. cbn [from_last_dot]. by rewrite IH.
Qed.

Lemma string_app_length_eq (pre e : string) :
  String.length (pre +:+ e) = String.length e → pre = "".
Proof. rewrite string_length_app. destruct pre; [done |]. cbn [String.length]. lia. Qed.

(** An extension of the list, in any case, is a dot and letters. *)
Lemma image_extension (ext : string) :
  toLowerCase ext ∈ [".jpg"; ".jpeg"; ".png"] →
  4 ≤ String.length ext
  ∧ ∃ e', ext = String "." e' ∧ from_last_dot e' = None.
Proof.
  intros Hin.
  assert (Hdot : ∃ e0, from_last_dot (toLowerCase ext) = Some e0
                       ∧ String.length e0 = String.length (toLowerCase ext)
                       ∧ 4 ≤ String.length e0).
  { repeat (apply elem_of_cons in Hin as [-> | Hin];
              [eexists; split; [reflexivity |]; cbn; lia |]).
    by apply elem_of_nil in Hin. }
  destruct Hdot as (e0 & Hdot & Hlen & H4).
  rewrite from_last_dot_lower in Hdot.
  destruct (from_last_dot ext) as [e |] eqn:He; [| done].
  injection Hdot as <-. rewrite !toLowerCase_length in *.
  destruct (from_last_dot_Some _ _ He) as (pre & e' & Hext & -> & He').
  rewrite Hext in Hlen. symmetry in Hlen. apply string_app_length_eq in Hlen as ->.
  rewrite string_app_nil_l in Hext. split; [by rewrite Hext |]. by exists e'.
Qed.

Lemma empty_not_extension : toLowerCase "" ∉ [".jpg"; ".jpeg"; ".png"].
Proof.
  intros Hin. cbn in Hin.
  repeat (apply elem_of_cons in Hin as [Hin | Hin]; [discriminate Hin |]).
  by apply elem_of_nil in Hin.
Qed.

(** X2: the names the two filters keep are exactly those made of a stem that
    is not empty and one of the endings .jpg, .jpeg, .png in any mix of upper
    and lower case; in particular a name that is nothing but such an ending
    (a hidden file) is not kept. *)
Theorem X2_image_file_names (file : string) :
  (isImageFile file = true ↔
     ∃ stem ext, file = stem +:+ ext ∧ stem ≠ ""
                 ∧ toLowerCase ext ∈ [".jpg"; ".jpeg"; ".png"])
  ∧ (toLowerCase file ∈ [".jpg"; ".jpeg"; ".png"] → isImageFile file = false).
Proof.
  split.
  - unfold isImageFile. rewrite bool_decide_eq_true. split.
    + unfold extname. destruct file as [|c r]; [by intros ?%empty_not_extension |].
      destruct (from_last_dot r) as [e |] eqn:Hr; [| by intros ?%empty_not_extension].
      destruct (String.eqb (String c r) ".."); [by intros ?%empty_not_extension |].
      intros Hin. destruct (from_last_dot_Some _ _ Hr) as (pre & e' & -> & _ & _).
      by exists (String c pre), e.
    + intros (stem & ext & -> & Hstem & Hin).
      destruct (image_extension ext Hin) as (H4 & e' & -> & He').
      destruct stem as [|c pre]; [done |].
      unfold extname. rewrite string_app_cons, from_last_dot_app by done.
      destruct (String.eqb _ "..") eqn:Heq; [| done].
      apply String.eqb_eq in Heq. apply (f_equal String.length) in Heq.
      cbn [String.length] in Heq, H4. rewrite string_length_app in Heq.
      cbn [String.length] in Heq. lia.
  - intros Hin. destruct (image_extension file Hin) as (_ & e' & -> & He').
    unfold isImageFile, extname. rewrite He'.
    apply bool_decide_eq_false_2, empty_not_extension.
Qed.

(** ** [deleteFolder], whatever it is called on *)

Lemma only_removes_below_refl (p : path) (w : World) : only_removes_below p w w.
Proof. repeat split; auto. Qed.

Lemma only_removes_below_trans (p : path) (w1 w2 w3 : World) :
  only_removes_below p w1 w2 → only_removes_below p w2 w3 → only_removes_below p w1 w3.
Proof.
  intros (Hc1 & Ho1 & Hm1) (Hc2 & Ho2 & Hm2). split; [congruence |]. split.
  - intros q Hq. rewrite Ho2, Ho1; done.
  - intros q. destruct (Hm2 q) as [-> | ->]; [by left | apply Hm1].
Qed.

Lemma only_removes_below_child (p : path) (name : string) (w w' : World) :
  only_removes_below (path_join p name) w w' → only_removes_below p w w'.
Proof.
  intros (Hc & Ho & Hm). split; [done |]. split; [| done].
  intros q Hq. apply Ho. intros Hpq. apply Hq.
  etrans; [apply prefix_path_join | done].
Qed.

Lemma only_removes_below_delete (p k : path) (w : World) :
  p `prefix_of` k → only_removes_below p w (set_fs (delete k (fs w)) w).
Proof.
  intros Hpk. split; [done |]. cbn [fs set_fs]. split.
  - intros q Hq. rewrite lookup_delete_ne; [done |]. by intros <-.
  - intros q. destruct (decide (k = q)) as [-> | Hne].
    + left. apply lookup_delete_eq.
    + right. by rewrite lookup_delete_ne.
Qed.

Lemma for_of_only_removes_below {A} (p : path) (body : A → ST World unit) (l : list A) :
  (∀ a w r w', body a w = (r, w') → only_removes_below p w w') →
  ∀ w r w', for_of l body w = (r, w') → only_removes_below p w w'.
Proof.
  intros Hbody. induction l as [|a l IH]; intros w r w'; cbn [for_of].
  - intros [= _ <-]. apply only_removes_below_refl.
  - unfold bind. destruct (body a w) as [[[] | e | e] w1] eqn:Ha.
    + intros Hl. eapply only_removes_below_trans; [by eapply Hbody | by eapply IH].
    + intros [= _ <-]. by eapply Hbody.
    + intros [= _ <-]. by eapply Hbody.
Qed.

Lemma deleteFolder_fuel_frame (fuel : nat) :
  ∀ p w r w', deleteFolder_fuel fuel p w = (r, w') → only_removes_below p w w'.
Proof.
  induction fuel as [|fuel IH]; intros p w r w'.
  - cbn. intros [= _ <-]. apply only_removes_below_refl.
  - rewrite deleteFolder_fuel_S. unfold bind at 1, existsSync.
    destruct (fs w !! p) as [e |] eqn:Hp.
    2:{ intros [= _ <-]. apply only_removes_below_refl. }
    unfold bind at 1, readdirSync. rewrite Hp.
    destruct e as [b | pages |]; try (intros [= _ <-]; apply only_removes_below_refl).
    assert (Hentry : ∀ name w0 r0 w0',
              delete_entry fuel p name w0 = (r0, w0') → only_removes_below p w0 w0').
    { intros name w0 r0 w0'. unfold delete_entry, bind, statSync.
      destruct (fs w0 !! path_join p name) as [[b | pages |] |] eqn:Hn; cbn.
      - unfold unlinkSync. rewrite Hn. intros [= _ <-].
        apply only_removes_below_delete, prefix_path_join.
      - unfold unlinkSync. rewrite Hn. intros [= _ <-].
        apply only_removes_below_delete, prefix_path_join.
      - intros Hd. eapply only_removes_below_child. by eapply IH.
      - intros [= _ <-]. apply only_removes_below_refl. }
    unfold bind.
    destruct (for_of (children p (fs w)) (delete_entry fuel p) w)
      as [[[] | e | e] w1] eqn:Hloop;
      pose proof (for_of_only_removes_below p _ _ Hentry _ _ _ Hloop) as Hw1;
      [| by intros [= _ <-] ..].
    unfold rmdirSync.
    destruct (fs w1 !! p) as [[b | pages |] |];
      try (intros [= _ <-]; exact Hw1).
    destruct (children p (fs w1)); intros [= _ <-]; [| exact Hw1].
    eapply only_removes_below_trans; [exact Hw1 |].
    by apply only_removes_below_delete.
Qed.

Lemma deleteFolder_frame (p : path) (w : World) r w' :
  deleteFolder p w = (r, w') → only_removes_below p w w'.
Proof. apply deleteFolder_fuel_frame. Qed.

Lemma deleteFolder_absent (p : path) (w : World) :
  fs w !! p = None → deleteFolder p w = (Ok tt, w).
Proof.
  intros Hp. unfold deleteFolder. rewrite deleteFolder_fuel_S.
  unfold bind, existsSync. by rewrite Hp.
Qed.

(** X16: [deleteFolder] always returns or throws, the recursion ends: on a
    path that does not exist it does nothing; on a regular file it throws
    ENOTDIR and changes nothing; on a directory it returns.  However it
    ends, it writes nothing, logs nothing, and removes nothing that is not
    at or below the path. *)
Theorem X16_deleteFolder_edge_cases (p : path) (w : World) :
  (fs w !! p = None → deleteFolder p w = (Ok tt, w))
  ∧ (∀ e, fs w !! p = Some e → e ≠ Directory →
       deleteFolder p w = (Throw (ENOTDIR p), w))
  ∧ (fs w !! p = Some Directory →
       ∃ w', deleteFolder p w = (Ok tt, w') ∧ fs w' !! p = None)
  ∧ (∀ r w', deleteFolder p w = (r, w') →
       console w' = console w
       ∧ (∀ q, ¬ p `prefix_of` q → fs w' !! q = fs w !! q)
       ∧ (∀ q, fs w' !! q = None ∨ fs w' !! q = fs w !! q)).
Proof.
  split; [apply deleteFolder_absent |]. split; [| split].
  - intros e He Hdir. unfold deleteFolder. rewrite deleteFolder_fuel_S.
    unfold bind, existsSync, readdirSync. rewrite !He. by destruct e.
  - intros Hp. destruct (deleteFolder_spec p w Hp) as (w' & Hd & _ & Hgone & _).
    exists w'. split; [done |]. apply Hgone; [done |].
    intros k Hpk Hkp Hne. destruct Hne. by apply (anti_symm prefix).
  - intros r w' Hd. by apply deleteFolder_frame in Hd.
Qed.

(** X17: on a well-formed file system, [deleteFolder] on a directory returns
    and leaves exactly the entries that are not at or below it; a second
    call finds nothing and does nothing. *)
Theorem X17_deleteFolder_removes_subtree (p : path) (w : World) :
  well_formed (fs w) → p ≠ [] → fs w !! p = Some Directory →
  ∃ w',
    deleteFolder p w = (Ok tt, w')
    ∧ console w' = console w
    ∧ fs w' = filter (λ kv, ¬ p `prefix_of` kv.1) (fs w)
    ∧ deleteFolder p w' = (Ok tt, w').
Proof.
  intros Hwf Hne Hp.
  destruct (deleteFolder_spec p w Hp) as (w' & Hd & Hrm).
  pose proof (removes_all _ _ _ Hwf Hne Hrm) as Hall.
  destruct Hrm as (Hc & _ & Hout & _).
  exists w'. split; [done |]. split; [done |]. split.
  - apply map_eq. intros q. rewrite map_lookup_filter.
    destruct (decide (p `prefix_of` q)) as [Hpq | Hpq].
    + rewrite Hall by done. destruct (fs w !! q) as [e |]; [| done].
      cbn. by rewrite option_guard_False by (cbn; auto).
    + rewrite Hout by done. destruct (fs w !! q) as [e |]; [| done].
      cbn. by rewrite option_guard_True.
  - apply deleteFolder_absent. by apply Hall.
Qed.

(** ** What the script touches *)

Lemma createPDFsFromImages_frame (sched : list nat) (w : World) r w' :
  createPDFsFromImages sched w = (r, w') →
  ∀ q, (∀ a, q ≠ outputPDF_path a) → fs w' !! q = fs w !! q.
Proof.
  unfold createPDFsFromImages, bind at 1, readdirSync.
  destruct (fs w !! compressedFolder) as [[b | pg |] |]; try by intros [= _ <-].
  unfold bind at 1. rewrite createTasks_exact.
  set (tasks := chunk_task w <$> _).
  set (w1 := {| fs := fs w; console := _ |}).
  assert (Hshape : tasks_shape tasks) by apply tasks_shape_exact.
  unfold bind at 1, Promise_all. rewrite first_rejection_shape by done.
  unfold bind at 1.
  destruct (settle sched tasks (replicate (length tasks) None) w1) as [rs w2] eqn:Hs.
  destruct (settle_files tasks sched Hshape _ _ _ _ Hs) as (_ & Hframe & _).
  intros Hgen q Hq. transitivity (fs w2 !! q); [| by apply Hframe].
  destruct rs as [values | e | e]; [| by injection Hgen as _ <- ..].
  destruct (mapM id values); cbn in Hgen; by injection Hgen as _ <-.
Qed.

Lemma prefix_outputPDF_path (a : nat) : pdfFolder `prefix_of` outputPDF_path a.
Proof. apply prefix_path_join. Qed.

Lemma stages_frame (sched : list nat) (w : World) r w' :
  stages sched w = (r, w') →
  ∀ q, ¬ compressedFolder `prefix_of` q → ¬ pdfFolder `prefix_of` q → q ≠ finalPDF →
    fs w' !! q = fs w !! q.
Proof.
  intros Hst q Hc Hp Hf. unfold stages, bind in Hst.
  destruct (analyzeAndCompressImages w) as [rn wa] eqn:Hn.
  assert (Hwa : fs wa !! q = fs w !! q).
  { apply (analyzeAndCompressImages_frame _ _ _ Hn).
    intros f ->. apply Hc, prefix_path_join. }
  destruct rn as [[] | e | e]; [| by injection Hst as _ <- ..].
  destruct (createPDFsFromImages sched wa) as [rg wg] eqn:Hg.
  assert (Hwg : fs wg !! q = fs wa !! q).
  { apply (createPDFsFromImages_frame _ _ _ _ Hg).
    intros a ->. apply Hp, prefix_outputPDF_path. }
  destruct rg as [generated | e | e]; [| injection Hst as _ <-; congruence ..].
  rewrite (mergePDFs_frame _ _ _ _ q Hst Hf). congruence.
Qed.

Lemma cleanup_frame (w : World) r w' :
  cleanup w = (r, w') →
  console w' = console w
  ∧ (∀ q, ¬ compressedFolder `prefix_of` q → ¬ pdfFolder `prefix_of` q →
       fs w' !! q = fs w !! q)
  ∧ (∀ q, fs w' !! q = None ∨ fs w' !! q = fs w !! q).
Proof.
  unfold cleanup, bind.
  destruct (deleteFolder compressedFolder w) as [rc wc] eqn:Hc.
  destruct (deleteFolder_frame _ _ _ _ Hc) as (Hcc & Hco & Hcm).
  destruct rc as [[] | e | e]; [| intros [= _ <-]; split; [done |]; split; auto ..].
  intros Hp. destruct (deleteFolder_frame _ _ _ _ Hp) as (Hpc & Hpo & Hpm).
  split; [congruence |]. split.
  - intros q Hq1 Hq2. rewrite Hpo, Hco; done.
  - intros q. destruct (Hpm q) as [-> | ->]; [by left | apply Hcm].
Qed.

Lemma main_frame (sched : list nat) (w : World) r w' :
  main sched w = (r, w') →
  ∀ q, ¬ compressedFolder `prefix_of` q → ¬ pdfFolder `prefix_of` q → q ≠ finalPDF →
    fs w' !! q = fs w !! q.
Proof.
  intros Hmain q Hc Hp Hf.
  unfold main, try_catch, bind at 1, console_log at 1 in Hmain.
  unfold bind at 1 in Hmain.
  destruct (stages sched _) as [rs ws] eqn:Hs.
  apply stages_frame with (q := q) in Hs; [| done ..]. cbn [fs] in Hs.
  destruct rs as [[] | e | e]; cbn in Hmain;
    [| injection Hmain as _ <-; exact Hs ..].
  unfold bind at 1 in Hmain.
  destruct (cleanup ws) as [rc wc] eqn:Hcl.
  destruct (cleanup_frame _ _ _ Hcl) as (_ & Hout & _).
  specialize (Hout q Hc Hp).
  destruct rc as [[] | e | e]; cbn in Hmain; injection Hmain as _ <-; cbn [fs]; congruence.
Qed.

Lemma inputFolder_ne_finalPDF : inputFolder ≠ finalPDF.
Proof.
  unfold inputFolder, finalPDF. intros [= Heq].
  destruct formattedDate as [|c1 [|c2 [|c3 [|c4 [|c5 [|c6 d]]]]]]; discriminate Heq.
Qed.

Lemma under_inputFolder (q : path) :
  inputFolder `prefix_of` q →
  ¬ compressedFolder `prefix_of` q ∧ ¬ pdfFolder `prefix_of` q ∧ q ≠ finalPDF.
Proof.
  intros [k ->]. split; [| split].
  - intros [k' Hk']. discriminate Hk'.
  - intros [k' Hk']. discriminate Hk'.
  - destruct k as [|name k]; [apply inputFolder_ne_finalPDF | discriminate].
Qed.

(** X18: whatever the outcome of the script, success, failure or crash, and
    whatever the order in which the streams finish, the only paths whose
    content can differ afterwards are the two working folders, what they
    hold, and the final document; in particular the source folder and its
    images are never modified nor removed. *)
Theorem X18_script_footprint (sched : list nat) (w : World) (q : path) :
  (¬ compressedFolder `prefix_of` q ∧ ¬ pdfFolder `prefix_of` q ∧ q ≠ finalPDF)
  ∨ inputFolder `prefix_of` q →
  fs (script sched w).2 !! q = fs w !! q.
Proof.
  intros Hq.
  assert (Hout : ¬ compressedFolder `prefix_of` q ∧ ¬ pdfFolder `prefix_of` q
                 ∧ q ≠ finalPDF).
  { destruct Hq as [Hq | Hq]; [done | by apply under_inputFolder]. }
  destruct Hout as (Hc & Hp & Hf).
  destruct (create_folders_lookup w) as (w1 & Hrun & _ & Hlookup).
  assert (Hw1 : fs w1 !! q = fs w !! q).
  { rewrite Hlookup. destruct (fs w !! q); [done |].
    rewrite bool_decide_eq_false_2; [done |].
    intros [-> | ->]; [by apply Hc | by apply Hp]. }
  unfold script. rewrite Hrun.
  destruct (main sched w1) as [r w'] eqn:Hmain. cbn [snd].
  rewrite (main_frame _ _ _ _ Hmain q Hc Hp Hf). exact Hw1.
Qed.

(** ** A run that completes *)

Lemma finish_Ok (t : Task) (a : nat) (w : World) :
  outputPDF t = outputPDF_path a →
  fs w !! pdfFolder = Some Directory →
  fs w !! outputPDF_path a ≠ Some Directory →
  finish t w =
    (Ok (outputPDF_path a),
     set_fs (<[outputPDF_path a := PdfFile (document t)]> (fs w)) w).
Proof.
  intros Ht Hp Ha. apply finish_Ok_inv. rewrite Ht, parent_outputPDF_path.
  split; [done |]. split; [| done].
  apply is_directory_Some; [apply pdfFolder_not_nil | done].
Qed.

(** Every stream can finish when the folder of the documents is there. *)
Lemma settle_total (tasks : list promise) (sched : list nat) :
  tasks_shape tasks →
  ∀ values w,
    fs w !! pdfFolder = Some Directory →
    (∀ a, fs w !! outputPDF_path a ≠ Some Directory) →
    ∃ v w', settle sched tasks values w = (Ok v, w').
Proof.
  intros Hshape. induction sched as [|j sched IH]; intros values w Hp Hnodir.
  - by eexists _, _.
  - cbn [settle]. destruct (tasks !! j) as [pj |] eqn:Hj; [| by apply IH].
    destruct (Hshape j pj Hj) as (tj & -> & Hpj).
    unfold bind. rewrite (finish_Ok tj (S j)) by done.
    apply IH; cbn [fs set_fs].
    + rewrite lookup_insert_ne; [done | apply outputPDF_path_ne_pdfFolder].
    + intros a. destruct (decide (outputPDF_path (S j) = outputPDF_path a)) as [<- | Hne].
      * by rewrite lookup_insert_eq.
      * by rewrite lookup_insert_ne.
Qed.

(** The value of a stream that finished is in its place. *)
Lemma settle_covers (tasks : list promise) (sched : list nat) :
  tasks_shape tasks →
  ∀ values w v w',
    settle sched tasks values w = (Ok v, w') →
    ∀ i, i ∈ sched → i < length tasks → i < length values →
      v !! i = Some (Some (outputPDF_path (S i))).
Proof.
  intros Hshape. induction sched as [|j sched IH]; intros values w v w' Hs i Hi Hit Hiv.
  - by apply elem_of_nil in Hi.
  - cbn [settle] in Hs. destruct (tasks !! j) as [pj |] eqn:Hj.
    2:{ apply elem_of_cons in Hi as [-> | Hi]; [| by eapply IH].
        apply lookup_ge_None in Hj. lia. }
    destruct (Hshape j pj Hj) as (tj & -> & Hpj).
    unfold bind in Hs. destruct (finish tj w) as [[p | e | e] w1] eqn:Hf; [| done ..].
    apply finish_Ok_inv in Hf as (-> & _).
    destruct (decide (i ∈ sched)) as [Hin | Hnin].
    { eapply IH; [exact Hs | done | done |]. by rewrite length_insert. }
    apply elem_of_cons in Hi as [-> | Hi]; [| done].
    destruct (settle_values tasks sched Hshape _ _ _ _ Hs) as [_ Hval].
    destruct (Hval j) as [Hv | [? ?]]; [| done].
    rewrite Hv, list_lookup_insert_eq by done. by rewrite Hpj.
Qed.

Lemma Promise_all_total (tasks : list promise) (sched : list nat) (w : World) :
  tasks_shape tasks →
  fs w !! pdfFolder = Some Directory →
  (∀ a, fs w !! outputPDF_path a ≠ Some Directory) →
  (∀ i, i < length tasks → i ∈ sched) →
  ∃ r w', Promise_all sched tasks w = (Ok r, w').
Proof.
  intros Hshape Hp Hnodir Hsched. unfold Promise_all.
  rewrite first_rejection_shape by done. unfold bind.
  destruct (settle_total tasks sched Hshape (replicate (length tasks) None) w Hp Hnodir)
    as (v & w' & Hs).
  rewrite Hs.
  destruct (settle_values tasks sched Hshape _ _ _ _ Hs) as [Hlen _].
  rewrite length_replicate in Hlen.
  assert (Hall : is_Some (mapM id v)).
  { apply mapM_is_Some, Forall_lookup. intros i o Hi.
    assert (Hlt : i < length tasks) by (rewrite <- Hlen; by eapply lookup_lt_Some).
    rewrite (settle_covers tasks sched Hshape _ _ _ _ Hs i) in Hi;
      [| by apply Hsched | done | by rewrite length_replicate].
    injection Hi as <-. by eexists. }
  destruct Hall as [generated ->]. by eexists _, _.
Qed.

Lemma createPDFsFromImages_total (sched : list nat) (w : World) :
  fs w !! compressedFolder = Some Directory →
  fs w !! pdfFolder = Some Directory →
  (∀ a, fs w !! outputPDF_path a ≠ Some Directory) →
  (∀ i, i < length (chunks (normalized_files (fs w)) 0) → i ∈ sched) →
  ∃ r w', createPDFsFromImages sched w = (Ok r, w').
Proof.
  intros Hc Hp Hnodir Hsched.
  unfold createPDFsFromImages, bind at 1, readdirSync. rewrite Hc.
  fold (normalized_files (fs w)). unfold bind at 1. rewrite createTasks_exact.
  set (tasks := chunk_task w <$> _).
  set (w1 := {| fs := fs w; console := _ |}).
  destruct (Promise_all_total tasks sched w1) as (r & w2 & Hall).
  - apply tasks_shape_exact.
  - done.
  - done.
  - intros i Hi. apply Hsched. unfold tasks in Hi. by rewrite length_fmap in Hi.
  - unfold bind. rewrite Hall. by eexists _, _.
Qed.

Lemma copy_ne_folder (f : string) (p : path) :
  length p = 1 → p ≠ path_join compressedFolder f.
Proof. intros Hlen ->. unfold path_join, compressedFolder in Hlen. cbn in Hlen. lia. Qed.

Lemma outputPDF_path_ne_copy (a : nat) (f : string) :
  outputPDF_path a ≠ path_join compressedFolder f.
Proof.
  unfold outputPDF_path, path_join, pdfFolder, compressedFolder. intros [= Heq _].
Qed.

(** The three stages complete when the folders are in place, nothing but
    files is where files are written, and every stream finishes. *)
Lemma stages_total (sched : list nat) (w : World) :
  fs w !! inputFolder = Some Directory →
  fs w !! compressedFolder = Some Directory →
  fs w !! pdfFolder = Some Directory →
  (∀ f, f ∈ source_files (fs w) → fs w !! path_join compressedFolder f ≠ Some Directory) →
  (∀ a, fs w !! outputPDF_path a ≠ Some Directory) →
  fs w !! finalPDF ≠ Some Directory →
  (∀ wa, analyzeAndCompressImages w = (Ok tt, wa) →
     ∀ i, i < length (chunks (normalized_files (fs wa)) 0) → i ∈ sched) →
  ∃ w', stages sched w = (Ok tt, w').
Proof.
  intros Hin Hc Hp Hcopies Hdocs Hfinal Hsched.
  destruct (normalizer_spec w Hin Hc Hcopies) as (wa & Hn & _ & _ & Hframe).
  unfold stages, bind. rewrite Hn.
  destruct (createPDFsFromImages_total sched wa) as (r & wg & Hg).
  - rewrite Hframe; [done |]. intros f _. by apply copy_ne_folder.
  - rewrite Hframe; [done |]. intros f _. by apply copy_ne_folder.
  - intros a. rewrite Hframe; [done |]. intros f _. apply outputPDF_path_ne_copy.
  - by apply Hsched.
  - rewrite Hg.
    destruct (createPDFsFromImages_exact _ _ _ _ Hg) as (Hr & _ & Hfiles & Hgframe).
    unfold mergePDFs, bind.
    rewrite (mergeLoop_concat _
               ((λ c, chunk_pages wa c.1) <$> chunks (normalized_files (fs wa)) 0)).
    2:{ rewrite Hr. apply Forall2_fmap, Forall_Forall2_diag, Forall_forall.
        intros c Hcin. by apply Hfiles. }
    unfold writeFileSync, write_file. rewrite parent_finalPDF. cbn [is_directory].
    assert (Hf : fs wg !! finalPDF ≠ Some Directory).
    { rewrite Hgframe by (intros a; apply finalPDF_ne_outputPDF_path).
      rewrite Hframe; [done |]. intros f _. by apply copy_ne_folder. }
    destruct (fs wg !! finalPDF) as [[] |]; try done; by eexists.
Qed.

(** [main], by the outcome of the stages and of the cleanup. *)
Lemma main_cases (sched : list nat) (w : World) :
  main sched w =
    match stages sched (started w) with
    | (Ok _, wm) =>
        match cleanup wm with
        | (Ok _, w2) => (Ok tt, {| fs := fs w2; console := console w2 ++ [LogSuccess] |})
        | (Throw e, w2) => (Ok tt, {| fs := fs w2; console := console w2 ++ [LogFailure e] |})
        | (Crash e, w2) => (Crash e, w2)
        end
    | (Throw e, wm) => (Ok tt, {| fs := fs wm; console := console wm ++ [LogFailure e] |})
    | (Crash e, wm) => (Crash e, wm)
    end.
Proof.
  unfold main, try_catch, bind at 1. cbn. fold (started w).
  unfold bind at 1. destruct (stages sched (started w)) as [[[] | e | e] wm]; [| done ..].
  unfold bind. destruct (cleanup wm) as [[[] | e | e] w2]; done.
Qed.

Lemma NoDup_source_files (m : gmap path entry) : NoDup (source_files m).
Proof. apply NoDup_filter, NoDup_children. Qed.

Lemma NoDup_normalized_files (m : gmap path entry) : NoDup (normalized_files m).
Proof. apply NoDup_filter, NoDup_children. Qed.

Lemma elem_of_normalized_files (m : gmap path entry) (file : string) :
  file ∈ normalized_files m ↔
  isImageFile file = true ∧ is_Some (m !! path_join compressedFolder file).
Proof.
  unfold normalized_files. rewrite list_elem_of_filter, elem_of_children. done.
Qed.

Lemma source_ne_folder (f : string) (p : path) :
  length p = 1 → path_join inputFolder f ≠ p.
Proof. intros Hlen <-. unfold path_join, inputFolder in Hlen. cbn in Hlen. lia. Qed.

(** The whole script on a fresh start. *)
Lemma script_fresh_run (sched : list nat) (w : World) :
  well_formed (fs w) →
  fs w !! inputFolder = Some Directory →
  fresh (fs w) →
  fs w !! finalPDF ≠ Some Directory →
  (∀ i, i < (length (source_files (fs w)) + 14) / 15 → i ∈ sched) →
  ∃ wa w' srcs,
    script sched w = (Ok tt, w')
    ∧ (∀ f, fs wa !! path_join compressedFolder f =
         if bool_decide (f ∈ source_files (fs w))
         then normalized (fs w !! path_join inputFolder f) else None)
    ∧ (∀ q, q ≠ finalPDF → fs w' !! q = fs w !! q)
    ∧ fs w' !! finalPDF = Some (PdfFile (final_pages wa))
    ∧ srcs ≡ₚ source_files (fs w)
    ∧ console w' =
        console w
          ++ LogStart
             :: concat ((λ f, normalizer_log f (fs w !! path_join inputFolder f)) <$> srcs)
          ++ layout_log wa
          ++ [LogGenerated ((λ c, outputPDF_path c.2)
                              <$> chunks (normalized_files (fs wa)) 0);
              LogMerged finalPDF; LogSuccess].
Proof.
  intros Hwf Hin Hfresh Hfinal Hsched.
  destruct (create_folders_lookup w) as (w1 & Hcf & Hc1 & Hl1).
  assert (Hw1c : fs w1 !! compressedFolder = Some Directory).
  { rewrite Hl1, (Hfresh compressedFolder) by (by left).
    rewrite bool_decide_eq_true_2; auto. }
  assert (Hw1p : fs w1 !! pdfFolder = Some Directory).
  { rewrite Hl1, (Hfresh pdfFolder) by (by right).
    rewrite bool_decide_eq_true_2; auto. }
  assert (Hw1o : ∀ q, q ≠ compressedFolder → q ≠ pdfFolder → fs w1 !! q = fs w !! q).
  { intros q H1 H2. rewrite Hl1. destruct (fs w !! q); [done |].
    rewrite bool_decide_eq_false_2; [done |]. by intros [? | ?]. }
  assert (Hwf1 : well_formed (fs w1)).
  { intros q k Hq Hk Hkq Hk0.
    assert (Hqw : is_Some (fs w !! q)).
    { rewrite Hl1 in Hq. destruct (fs w !! q) as [e |] eqn:He; [by eexists |].
      case_bool_decide as Hor; [| by destruct Hq].
      destruct Hk as [r Hr].
      destruct Hor as [-> | ->]; destruct k as [|a [|b k]]; try done;
        destruct r; try done; by rewrite app_nil_r in Hr. }
    rewrite Hl1, (Hwf q k); done. }
  set (ws := started w1).
  assert (Hsrc : ∀ f, f ∈ source_files (fs ws) ↔ f ∈ source_files (fs w)).
  { intros f. rewrite !elem_of_source_files. cbn [fs ws started].
    rewrite Hw1o; [done | by apply source_ne_folder ..]. }
  assert (Hcopies : ∀ f, fs ws !! path_join compressedFolder f = None).
  { intros f. cbn [fs ws started].
    rewrite Hw1o; [apply Hfresh; left; apply prefix_path_join | |].
    - intros Heq. by apply (copy_ne_folder f compressedFolder).
    - intros Heq. by apply (copy_ne_folder f pdfFolder). }
  assert (Hdocs : ∀ a, fs ws !! outputPDF_path a = None).
  { intros a. cbn [fs ws started].
    rewrite Hw1o; [apply Hfresh; right; apply prefix_outputPDF_path | |].
    - intros Heq. apply (f_equal length) in Heq. done.
    - apply outputPDF_path_ne_pdfFolder. }
  assert (Hws_in : fs ws !! inputFolder = Some Directory).
  { cbn [fs ws started]. rewrite Hw1o; done. }
  assert (Hws_final : fs ws !! finalPDF ≠ Some Directory).
  { cbn [fs ws started]. rewrite Hw1o; done. }
  destruct (normalizer_spec ws Hws_in Hw1c) as (wa & Hn & Hnlog & Hcopy & Hframe).
  { intros f _. by rewrite Hcopies. }
  assert (Hwa : ∀ f, fs wa !! path_join compressedFolder f =
            if bool_decide (f ∈ source_files (fs w))
            then normalized (fs w !! path_join inputFolder f) else None).
  { intros f. case_bool_decide as Hf.
    - rewrite Hcopy by (by apply Hsrc). cbn [fs ws started].
      rewrite Hw1o by (by apply source_ne_folder).
      change (fs w1) with (fs ws). rewrite Hcopies.
      by destruct (normalized _).
    - rewrite Hframe; [apply Hcopies |].
      intros g Hg Heq. apply path_join_inj in Heq as ->. by apply Hf, Hsrc. }
  assert (Hnf : length (normalized_files (fs wa)) ≤ length (source_files (fs w))).
  { apply submseteq_length, NoDup_submseteq; [apply NoDup_normalized_files |].
    intros f [Himg Hf]%elem_of_normalized_files. rewrite Hwa in Hf.
    case_bool_decide; [done | by destruct Hf]. }
  destruct (stages_total sched ws) as (wm & Hst); try done.
  { intros f _. by rewrite Hcopies. }
  { intros a. by rewrite Hdocs. }
  { intros wa' Hn' i Hi. assert (wa' = wa) as -> by congruence.
    apply Hsched. rewrite chunks_length, Nat.sub_0_r in Hi.
    eapply Nat.lt_le_trans; [exact Hi |]. apply Nat.Div0.div_le_mono. lia. }
  destruct (stages_exact _ _ _ Hst) as (wa' & Hn' & Hfin & _ & _ & Hmlog).
  assert (wa' = wa) as -> by congruence.
  pose proof (stages_extends _ _ _ _ Hst) as Hext.
  destruct (cleanup_spec wm) as (w2 & Hclean & Hclog & Hgone & Hkept).
  { by eapply extends_well_formed. }
  { by apply (extends_directory (fs ws)). }
  { by apply (extends_directory (fs ws)). }
  exists wa, {| fs := fs w2; console := console w2 ++ [LogSuccess] |},
    (source_files (fs ws)).
  split; [| split; [done |]; split; [| split; [| split]]].
  - unfold script. rewrite Hcf, main_cases. fold ws. by rewrite Hst, Hclean.
  - intros q Hq. cbn [fs].
    destruct (decide (compressedFolder `prefix_of` q ∨ pdfFolder `prefix_of` q))
      as [Hunder | Hout].
    + by rewrite Hgone, Hfresh.
    + assert (Hqc : ¬ compressedFolder `prefix_of` q) by auto.
      assert (Hqp : ¬ pdfFolder `prefix_of` q) by auto.
      rewrite Hkept by done.
      rewrite (stages_frame _ _ _ _ Hst q Hqc Hqp Hq). cbn [fs ws started].
      apply Hw1o; intros ->; [by apply Hqc | by apply Hqp].
  - cbn [fs]. rewrite Hkept; [done | |]; intros [r Hr]; discriminate Hr.
  - apply NoDup_Permutation; [apply NoDup_source_files .. | done].
  - cbn [console]. rewrite Hclog, Hmlog, Hnlog. cbn [console ws started]. rewrite Hc1.
    assert (Hlines :
      (λ f, normalizer_log f (fs ws !! path_join inputFolder f)) <$> source_files (fs ws) =
      (λ f, normalizer_log f (fs w !! path_join inputFolder f)) <$> source_files (fs ws)).
    { apply list_fmap_ext. intros i f _. cbn [fs ws started].
      rewrite Hw1o; [done | by apply source_ne_folder ..]. }
    rewrite Hlines, <- !app_assoc. reflexivity.
Qed.

(** X13: on a fresh start (nothing at or below the two working folders), in
    a well-formed file system with the source folder in place and no
    directory at the path of the final document, and when every stream
    finishes, the script completes: it reports success, the normalized
    images were those of the source images [sharp] decodes (and re-encodes
    when above the limit), the final document holds the pages of their
    chunks as [pdf-lib] saves them (at least one page, blank when no image
    was drawn), and every other path is as it was before the run, the
    working folders gone again. *)
Theorem X13_fresh_run_succeeds (sched : list nat) (w : World) :
  well_formed (fs w) →
  fs w !! inputFolder = Some Directory →
  fresh (fs w) →
  fs w !! finalPDF ≠ Some Directory →
  (∀ i, i < (length (source_files (fs w)) + 14) / 15 → i ∈ sched) →
  ∃ wa w',
    script sched w = (Ok tt, w')
    ∧ last (console w') = Some LogSuccess
    ∧ (∀ q, q ≠ finalPDF → fs w' !! q = fs w !! q)
    ∧ is_Some (fs w' !! finalPDF)
    ∧ fs w' !! finalPDF = Some (PdfFile (final_pages wa))
    ∧ final_pages wa ≠ []
    ∧ (∀ f, fs wa !! path_join compressedFolder f =
         if bool_decide (f ∈ source_files (fs w))
         then normalized (fs w !! path_join inputFolder f) else None)
    ∧ normalized_files (fs wa) ≡ₚ
        filter (λ f, is_Some (normalized (fs w !! path_join inputFolder f)))
          (source_files (fs w)).
Proof.
  intros Hwf Hin Hfresh Hfinal Hsched.
  destruct (script_fresh_run sched w Hwf Hin Hfresh Hfinal Hsched)
    as (wa & w' & srcs & Hrun & Hwa & Hkeep & Hdoc & _ & Hlog).
  exists wa, w'. split; [done |]. split.
  { rewrite Hlog.
    change (LogStart :: ?l) with ([LogStart] ++ l).
    rewrite !app_assoc.
    change [?a; ?b; LogSuccess] with ([a; b] ++ [LogSuccess]).
    rewrite app_assoc. apply last_snoc. }
  split; [done |]. split; [by rewrite Hdoc |]. split; [done |].
  split; [apply PDFDocument_save_nonempty |].
  split; [done |].
  apply NoDup_Permutation.
  - apply NoDup_normalized_files.
  - apply NoDup_filter, NoDup_source_files.
  - intros f. rewrite elem_of_normalized_files, list_elem_of_filter, Hwa.
    case_bool_decide as Hf.
    + apply elem_of_source_files in Hf as Hf'. destruct Hf' as [Himg _]. tauto.
    + split; [by intros [_ [? ?]] | tauto].
Qed.

(** X14: a source folder without any image is not an error: on a fresh
    start the script completes and reports success, writes a final document
    in which nothing is drawn, logs an empty list of generated documents,
    and leaves every other path as it was. *)
Theorem X14_empty_source_folder (sched : list nat) (w : World) :
  well_formed (fs w) →
  fs w !! inputFolder = Some Directory →
  fresh (fs w) →
  fs w !! finalPDF ≠ Some Directory →
  source_files (fs w) = [] →
  ∃ w' pages,
    script sched w = (Ok tt, w')
    ∧ console w' = console w ++ [LogStart; LogGenerated []; LogMerged finalPDF; LogSuccess]
    ∧ (∀ q, q ≠ finalPDF → fs w' !! q = fs w !! q)
    ∧ fs w' !! finalPDF = Some (PdfFile pages)
    ∧ (∀ pg, pg ∈ pages → page_ops pg = []).
Proof.
  intros Hwf Hin Hfresh Hfinal Hempty.
  destruct (script_fresh_run sched w Hwf Hin Hfresh Hfinal)
    as (wa & w' & srcs & Hrun & Hwa & Hkeep & Hdoc & Hsrcs & Hlog).
  { rewrite Hempty. cbn. intros i Hi. lia. }
  assert (Hnf : normalized_files (fs wa) = []).
  { apply elem_of_nil_inv. intros f [_ Hf]%elem_of_normalized_files.
    rewrite Hwa, Hempty in Hf. rewrite bool_decide_eq_false_2 in Hf.
    - by destruct Hf.
    - by intros ?%elem_of_nil. }
  assert (Hchunks : chunks (normalized_files (fs wa)) 0 = []).
  { rewrite Hnf, chunks_ge by (cbn; lia). reflexivity. }
  rewrite Hempty in Hsrcs. apply Permutation_nil_r in Hsrcs as ->.
  exists w', [pdflib_default_page]. split; [done |]. split; [| split; [done |]; split].
  - rewrite Hlog. unfold layout_log. rewrite Hchunks. reflexivity.
  - rewrite Hdoc. unfold final_pages. by rewrite Hchunks.
  - by intros pg ->%list_elem_of_singleton.
Qed.

(** ** The final document when every image opens *)

Lemma placed_lookup_all (w : World) (l : list string) (k : nat) (file : string) :
  Forall (λ f, is_Some (opened w f)) l →
  l !! k = Some file →
  ∃ img, opened w file = Some img ∧ placed w l !! k = Some (file, img).
Proof.
  intros Hall. revert k. unfold placed.
  induction Hall as [|f l [img Hf] _ IH]; intros k Hk; [done |].
  csimpl. rewrite Hf. cbn [fmap option_fmap option_map].
  destruct k as [|k]; cbn in Hk |- *.
  - injection Hk as <-. by exists img.
  - by apply IH.
Qed.

Lemma concat_singletons {A B} (f : A → list B) (g : A → B) (l : list A) :
  (∀ a, a ∈ l → f a = [g a]) → concat (f <$> l) = g <$> l.
Proof.
  induction l as [|a l IH]; intros Hl; [done |].
  cbn. rewrite (Hl a) by apply list_elem_of_here. cbn. f_equal.
  apply IH. intros b Hb. by apply Hl, list_elem_of_further.
Qed.

Lemma chunks_lookup_lt (files : list string) (j : nat) :
  15 * j < length files →
  chunks files 0 !! j = Some (slice (15 * j) (15 * j + 15) files, S j).
Proof.
  intros Hj.
  destruct (lookup_lt_is_Some_2 (chunks files 0) j) as [[c idx] Hc].
  { rewrite chunks_length. lia. }
  rewrite Hc. apply chunks_lookup in Hc as (_ & -> & ->). cbn [Nat.add].
  do 2 f_equal. lia.
Qed.

Lemma slice_lookup {A} (l : list A) (i n k : nat) :
  k < n → slice i (i + n) l !! k = l !! (i + k).
Proof.
  intros Hk. unfold slice. replace (i + n - i) with n by lia.
  rewrite lookup_take_lt by done. apply lookup_drop.
Qed.

Lemma placed_lookup_inv (w : World) (l : list string) (k : nat) (file : string)
    (img : Z * Z) :
  Forall (λ f, is_Some (opened w f)) l →
  placed w l !! k = Some (file, img) →
  l !! k = Some file ∧ opened w file = Some img.
Proof.
  intros Hall Hk.
  assert (Hlen : length (placed w l) ≤ length l).
  { pose proof (chunk_counts w l). lia. }
  destruct (lookup_lt_is_Some_2 l k) as [f Hf].
  { apply lookup_lt_Some in Hk. lia. }
  destruct (placed_lookup_all w l k f Hall Hf) as (i & Hi & Hp).
  rewrite Hp in Hk. by injection Hk as -> ->.
Qed.

(** X12: when the stages complete, [pdfkit] opens every normalized image
    (there is at least one) and every caption fits on the page of its
    image, the final document has one page for every 15 images, all of 600
    by 800, and the image with number k in the enumeration of the normalized
    folder is, with its caption, in cell k mod 15 of page k / 15. *)
Theorem X12_final_layout_when_all_open (sched : list nat) (w w' : World) :
  stages sched w = (Ok tt, w') →
  ∃ wa,
    analyzeAndCompressImages w = (Ok tt, wa)
    ∧ (normalized_files (fs wa) ≠ [] →
       Forall (λ f, is_Some (opened wa f)) (normalized_files (fs wa)) →
       (∀ k file img, normalized_files (fs wa) !! k = Some file →
          opened wa file = Some img → caption_fits file img (k mod 15)) →
       ∃ pages,
         fs w' !! finalPDF = Some (PdfFile pages)
         ∧ length pages = (length (normalized_files (fs wa)) + 14) / 15
         ∧ ∀ k file, normalized_files (fs wa) !! k = Some file →
             ∃ img pg,
               opened wa file = Some img
               ∧ pages !! (k / 15) = Some pg
               ∧ page_size pg = (600, 800)%float
               ∧ take 2 (drop (2 * (k mod 15)) (page_ops pg)) =
                   cell_ops file img (cell_x (k mod 15)) (cell_y (k mod 15))).
Proof.
  intros Hst. destruct (stages_exact _ _ _ Hst) as (wa & Hn & Hfinal & _).
  exists wa. split; [done |]. intros Hne Hall Hfits.
  set (files := normalized_files (fs wa)) in *.
  set (page_of := λ c : list string * nat,
         {| page_size := PAGE_SIZE;
            page_ops := grid_ops (placed wa c.1) |}).
  assert (Hpages : final_pages wa = page_of <$> chunks files 0).
  { unfold final_pages. fold files.
    assert (Hconcat : concat ((λ c, chunk_pages wa c.1) <$> chunks files 0) =
                        page_of <$> chunks files 0); [| rewrite Hconcat].
    2:{ apply PDFDocument_save_pages. intros Hnil. apply fmap_nil_inv in Hnil.
        apply (f_equal length) in Hnil. rewrite chunks_length in Hnil.
        destruct files; [done |]. cbn [length] in Hnil.
        assert (1 ≤ (S (length files) - 0 + 14) / 15); [| cbn [length] in *; lia].
        apply Nat.div_le_lower_bound; lia. }
    apply concat_singletons.
    intros [c idx] Hc. apply list_elem_of_lookup in Hc as [j Hj].
    apply chunks_lookup in Hj as (Hlt & -> & _). cbn [fst].
    unfold chunk_pages, page_of. cbn [fst].
    assert (Hfirst : has_first wa (slice (0 + 15 * j) (0 + 15 * j + 15) files) = true).
    { destruct (lookup_lt_is_Some_2 files (0 + 15 * j) Hlt) as [f0 Hf0].
      assert (Hs : slice (0 + 15 * j) (0 + 15 * j + 15) files !! 0 = Some f0).
      { rewrite slice_lookup by lia. by rewrite Nat.add_0_r. }
      destruct (slice _ _ files) as [|f1 rest]; [done |].
      injection Hs as ->. unfold has_first. apply bool_decide_eq_true.
      rewrite Forall_forall in Hall. apply Hall.
      by eapply list_elem_of_lookup_2. }
    rewrite Hfirst. apply fill_cells_fit. intros k file img Hk.
    apply placed_lookup_inv in Hk as [Hk Himg];
      [| apply Forall_take, Forall_drop, Hall].
    assert (Hk15 : k < 15).
    { apply lookup_lt_Some in Hk. rewrite slice_length in Hk. lia. }
    rewrite slice_lookup in Hk by done.
    specialize (Hfits _ _ _ Hk Himg).
    replace ((0 + 15 * j + k) mod 15) with k in Hfits by lia. done. }
  exists (final_pages wa). split; [done |]. split.
  { rewrite Hpages, length_fmap, chunks_length. f_equal. lia. }
  intros k file Hk.
  assert (Hklt : k < length files) by (by eapply lookup_lt_Some).
  assert (Hchunk : chunks files 0 !! (k / 15) =
                     Some (slice (15 * (k / 15)) (15 * (k / 15) + 15) files, S (k / 15))).
  { apply chunks_lookup_lt. lia. }
  assert (Hin : slice (15 * (k / 15)) (15 * (k / 15) + 15) files !! (k mod 15) = Some file).
  { rewrite slice_lookup by lia. rewrite <- Hk. f_equal. lia. }
  destruct (placed_lookup_all wa _ _ _ (Forall_take _ _ _ (Forall_drop _ _ _ Hall)) Hin)
    as (img & Himg & Hplaced).
  exists img, (page_of (slice (15 * (k / 15)) (15 * (k / 15) + 15) files, S (k / 15))).
  split; [done |]. split.
  { rewrite Hpages, list_lookup_fmap, Hchunk. reflexivity. }
  split; [reflexivity |].
  cbn [page_of page_ops fst]. by apply grid_ops_lookup.
Qed.

(** ** The source folder: missing, or holding other files *)

Lemma inputFolder_ne_compressedFolder : inputFolder ≠ compressedFolder.
Proof. unfold inputFolder, compressedFolder. intros [= Heq]. Qed.

Lemma inputFolder_ne_pdfFolder : inputFolder ≠ pdfFolder.
Proof. unfold inputFolder, pdfFolder. intros [= Heq]. Qed.

(** X5: when the source folder is missing, or is not a directory, the
    script does not crash: the error of [readdirSync] is caught by the main
    process, which logs the start line and one failure line.  No image is
    treated, no document is written, and nothing is cleaned up: the only
    change is that the two working folders were created, and they stay. *)
Theorem X5_missing_source_folder (sched : list nat) (w : World) :
  fs w !! inputFolder ≠ Some Directory →
  ∃ w1,
    create_folders w = (Ok tt, w1)
    ∧ script sched w =
        (Ok tt,
         {| fs := fs w1;
            console := console w ++
              [LogStart;
               LogFailure (match fs w !! inputFolder with
                           | None => ENOENT inputFolder
                           | Some _ => ENOTDIR inputFolder
                           end)] |})
    ∧ (∀ q, q ≠ compressedFolder → q ≠ pdfFolder → fs w1 !! q = fs w !! q)
    ∧ is_Some (fs w1 !! compressedFolder) ∧ is_Some (fs w1 !! pdfFolder).
Proof.
  intros Hin.
  destruct (create_folders_lookup w) as (w1 & Hcf & Hc1 & Hl1).
  exists w1. split; [done |].
  assert (Hin1 : fs w1 !! inputFolder = fs w !! inputFolder).
  { rewrite Hl1. destruct (fs w !! inputFolder); [done |].
    rewrite bool_decide_eq_false_2; [done |].
    intros [Heq | Heq];
      [by apply inputFolder_ne_compressedFolder | by apply inputFolder_ne_pdfFolder]. }
  split; [| split; [| split]].
  - unfold script. rewrite Hcf, main_cases.
    unfold stages, bind, analyzeAndCompressImages, bind, readdirSync.
    cbn [fs started]. rewrite Hin1.
    destruct (fs w !! inputFolder) as [[b | pages |] |]; try done;
      cbn [console started]; rewrite Hc1, <- app_assoc; reflexivity.
  - intros q Hq1 Hq2. rewrite Hl1. destruct (fs w !! q); [done |].
    rewrite bool_decide_eq_false_2; [done |]. by intros [? | ?].
  - rewrite Hl1. destruct (fs w !! compressedFolder); [by eexists |].
    rewrite bool_decide_eq_true_2 by auto. by eexists.
  - rewrite Hl1. destruct (fs w !! pdfFolder); [by eexists |].
    rewrite bool_decide_eq_true_2 by auto. by eexists.
Qed.

(** X6: the Normalizer treats the image files of the source folder and
    nothing else: an entry whose name the filter does not keep (a text file,
    a sub-folder, a hidden file) gets no copy in the working folder, and no
    line of the log is about it. *)
Theorem X6_other_files_ignored (w : World) (name : string) :
  fs w !! inputFolder = Some Directory →
  fs w !! compressedFolder = Some Directory →
  (∀ f, f ∈ source_files (fs w) →
     fs w !! path_join compressedFolder f ≠ Some Directory) →
  isImageFile name = false →
  ∃ w' new,
    analyzeAndCompressImages w = (Ok tt, w')
    ∧ fs w' !! path_join compressedFolder name = fs w !! path_join compressedFolder name
    ∧ console w' = console w ++ new
    ∧ ∀ l, l ∈ new →
        ∃ f, f ≠ name ∧ isImageFile f = true
             ∧ l ∈ normalizer_log f (fs w !! path_join inputFolder f).
Proof.
  intros Hin Hc Hcopies Hname.
  destruct (normalizer_spec w Hin Hc Hcopies) as (w' & Hn & Hlog & _ & Hframe).
  eexists w', _. split; [done |]. split; [| split; [exact Hlog |]].
  - apply Hframe. intros f Hf Heq. apply path_join_inj in Heq as <-.
    apply elem_of_source_files in Hf as [Himg _]. congruence.
  - intros l Hl. apply elem_of_concat_fmap in Hl as (f & Hf & Hl).
    apply elem_of_source_files in Hf as [Himg _].
    exists f. split; [congruence |]. done.
Qed.

(** ** The Normalizer run again *)

Lemma normalized_is_file (x : option entry) (e : entry) :
  normalized x = Some e → ∃ b, e = File b.
Proof.
  unfold normalized. destruct x as [[b | pages |] |]; try done.
  destruct (sharp_metadata b); [| done].
  case_bool_decide.
  - destruct (sharp_resize_jpeg _ _ _) as [b' |]; [| done]. intros [= <-]. by eexists.
  - intros [= <-]. by eexists.
Qed.

(** X7: the Normalizer is idempotent on the file system: run a second time
    over the same source folder, it rewrites every copy with the same
    content and leaves the file system exactly as the first run left it. *)
Theorem X7_normalizer_idempotent (w : World) :
  fs w !! inputFolder = Some Directory →
  fs w !! compressedFolder = Some Directory →
  (∀ f, f ∈ source_files (fs w) →
     fs w !! path_join compressedFolder f ≠ Some Directory) →
  ∃ w1 w2,
    analyzeAndCompressImages w = (Ok tt, w1)
    ∧ analyzeAndCompressImages w1 = (Ok tt, w2)
    ∧ fs w2 = fs w1.
Proof.
  intros Hin Hc Hcopies.
  destruct (normalizer_spec w Hin Hc Hcopies) as (w1 & Hn1 & _ & Hcopy1 & Hframe1).
  assert (Hsame : ∀ q, inputFolder `prefix_of` q → fs w1 !! q = fs w !! q).
  { intros q Hq. apply Hframe1. intros f _. by apply source_not_copy. }
  assert (Hsrc : ∀ f, f ∈ source_files (fs w1) ↔ f ∈ source_files (fs w)).
  { intros f. rewrite !elem_of_source_files, Hsame; [done | apply prefix_path_join]. }
  destruct (normalizer_spec w1) as (w2 & Hn2 & _ & Hcopy2 & Hframe2).
  { by rewrite Hsame. }
  { rewrite Hframe1; [done |]. intros f _. by apply copy_ne_folder. }
  { intros f Hf%Hsrc. rewrite Hcopy1 by done.
    destruct (normalized _) as [e |] eqn:He; [| by apply Hcopies].
    apply normalized_is_file in He as [b ->]. done. }
  exists w1, w2. split; [done |]. split; [done |].
  apply map_eq. intros q.
  destruct (decide (q ∈ path_join compressedFolder <$> source_files (fs w)))
    as [Hq | Hq].
  - apply list_elem_of_fmap in Hq as (f & -> & Hf).
    rewrite Hcopy2 by (by apply Hsrc).
    rewrite Hsame by apply prefix_path_join.
    rewrite Hcopy1 by done. by destruct (normalized _).
  - apply Hframe2. intros f Hf%Hsrc ->. apply Hq.
    apply list_elem_of_fmap. by exists f.
Qed.

(** ** The tasks of the orchestrator *)

(** X10: the loop of the orchestrator never fails and never sees a rejected
    promise: it leaves one pending task for every chunk, the file system
    untouched, and the tasks write to pairwise distinct files, all directly
    inside the folder of the intermediate documents. *)
Theorem X10_tasks_write_distinct_files (files : list string) (w : World) :
  ∃ tasks w',
    createTasks files 0 [] w = (Ok tasks, w')
    ∧ fs w' = fs w
    ∧ length tasks = (length files + 14) / 15
    ∧ (∀ i, i < length tasks →
         ∃ t, tasks !! i = Some (Pending t)
              ∧ outputPDF t = outputPDF_path (S i)
              ∧ parent (outputPDF t) = pdfFolder)
    ∧ (∀ i j ti tj, tasks !! i = Some (Pending ti) → tasks !! j = Some (Pending tj) →
         outputPDF ti = outputPDF tj → i = j).
Proof.
  eexists _, _. split; [apply createTasks_exact |]. split; [reflexivity |].
  pose proof (tasks_shape_exact files w) as Hshape.
  split; [| split].
  - rewrite length_fmap, chunks_length. f_equal. lia.
  - intros i Hi. destruct (lookup_lt_is_Some_2 _ i Hi) as [p Hp].
    destruct (Hshape i p Hp) as (t & -> & Ht). exists t. split; [done |].
    split; [done |]. rewrite Ht. apply parent_outputPDF_path.
  - intros i j ti tj Hi Hj Heq.
    destruct (Hshape i _ Hi) as (ti' & [= <-] & Hti).
    destruct (Hshape j _ Hj) as (tj' & [= <-] & Htj).
    rewrite Hti, Htj in Heq. apply outputPDF_path_inj in Heq. lia.
Qed.

(** ** Scaling an image (lines 107 to 109) *)

(** X19: an image that is placed is drawn, on a page of the document, at the
    size lines 107 to 109 compute in doubles: its two sizes in pixels times
    the smaller of 150 / width and 100 / height; its caption starts 5 below
    it.  An image of 3000 by 2000 pixels is drawn 150 by 100.  The rounding
    of the quotient and of the products can pass the cell by the last bit:
    an image of 132 by 176 is drawn 100.00000000000001 high.  An image of 0
    by 0 pixels is drawn with sizes that are not numbers. *)
Theorem X19_image_scaled_in_doubles (file : string) (index : nat) (s s' : Layout) :
  placeImage_body file index s = (Ok tt, s') →
  (∃ img pg x0 y0,
     openable (world s) file img
     ∧ pg ∈ doc s'
     ∧ [DrawImage (path_join compressedFolder file) x0 y0
          (Number img.1 * Math_min (150 / Number img.1) (100 / Number img.2))%float
          (Number img.2 * Math_min (150 / Number img.1) (100 / Number img.2))%float;
        DrawText file x0
          (Number y0
           + Number img.2 * Math_min (150 / Number img.1) (100 / Number img.2)
           + 5)%float
          150] `suffix_of` page_ops pg)
  ∧ scaled (3000, 2000)%Z = (150, 100)%float
  ∧ scaled (132, 176)%Z = (75, 100.00000000000001)%float
  ∧ (100 <? (scaled (132, 176)%Z).2)%float = true
  ∧ PrimFloat.is_nan (scaled (0, 0)%Z).1 = true
  ∧ PrimFloat.is_nan (scaled (0, 0)%Z).2 = true.
Proof.
  intros Hbody. split; [| repeat split; vm_compute; reflexivity].
  destruct (placeImage_body_cases _ _ _ _ _ Hbody)
    as [(e & [=] & _) | (_ & img & Hopen & [[_ ->] | (_ & ps & p & Hdoc & ->)])].
  - eexists img, _, MARGIN_X, MARGIN_Y. split; [done |].
    split; [unfold placed_on_new_page; cbn [doc]; apply elem_of_app; right; left |].
    exists []. reflexivity.
  - eexists img, _, (x s), (y s). split; [done |].
    split; [unfold placed_on_page; cbn [doc]; apply elem_of_app; right; left |].
    unfold add_ops. cbn [page_ops]. by eexists.
Qed.

(** ** How the script can end *)

Lemma deleteFolder_no_crash (p : path) (w : World) r w' :
  deleteFolder p w = (r, w') → ∀ e, r ≠ Crash e.
Proof.
  intros Hd e ->. destruct (fs w !! p) as [[b | pages |] |] eqn:Hp.
  - unfold deleteFolder in Hd. rewrite deleteFolder_fuel_S in Hd.
    unfold bind, existsSync, readdirSync in Hd. by rewrite !Hp in Hd.
  - unfold deleteFolder in Hd. rewrite deleteFolder_fuel_S in Hd.
    unfold bind, existsSync, readdirSync in Hd. by rewrite !Hp in Hd.
  - destruct (deleteFolder_spec p w Hp) as (w2 & Hd2 & _). congruence.
  - rewrite deleteFolder_absent in Hd by done. done.
Qed.

Lemma cleanup_no_crash (w : World) r w' : cleanup w = (r, w') → ∀ e, r ≠ Crash e.
Proof.
  unfold cleanup, bind.
  destruct (deleteFolder compressedFolder w) as [[[] | e1 | e1] w1] eqn:H1.
  - apply deleteFolder_no_crash.
  - by intros [= <- _].
  - by destruct (deleteFolder_no_crash _ _ _ _ H1 e1).
Qed.

Lemma settle_crash (tasks : list promise) (sched : list nat) :
  tasks_shape tasks →
  ∀ values w e w', settle sched tasks values w = (Crash e, w') → stream_failure e.
Proof.
  intros Hshape. induction sched as [|j sched IH]; intros values w e w'; [done |].
  cbn [settle]. destruct (tasks !! j) as [pj |] eqn:Hj; [| apply IH].
  destruct (Hshape j pj Hj) as (tj & -> & Hpj).
  unfold bind. destruct (finish tj w) as [[p | e1 | e1] w1] eqn:Hf.
  - apply IH.
  - by destruct (finish_not_Throw _ _ _ _ Hf).
  - intros [= <- _]. unfold finish, write_file in Hf. rewrite Hpj in Hf.
    right. exists (S j).
    destruct (is_directory _ _); [| injection Hf as <- _; by left].
    destruct (fs w !! outputPDF_path (S j)) as [[] |]; try done.
    injection Hf as <- _. by right.
Qed.

Lemma settle_no_throw (tasks : list promise) (sched : list nat) :
  ∀ values w e w', settle sched tasks values w ≠ (Throw e, w').
Proof.
  induction sched as [|j sched IH]; intros values w e w'; [done |].
  cbn [settle]. destruct (tasks !! j) as [[tj | ej] |]; [| apply IH ..].
  unfold bind. destruct (finish tj w) as [[p | e1 | e1] w1] eqn:Hf.
  - apply IH.
  - by destruct (finish_not_Throw _ _ _ _ Hf).
  - done.
Qed.

Lemma createPDFsFromImages_crash (sched : list nat) (w : World) e w' :
  createPDFsFromImages sched w = (Crash e, w') → stream_failure e.
Proof.
  unfold createPDFsFromImages, bind at 1, readdirSync.
  destruct (fs w !! compressedFolder) as [[b | pg |] |]; try done.
  unfold bind at 1. rewrite createTasks_exact.
  set (tasks := chunk_task w <$> _).
  set (w1 := {| fs := fs w; console := _ |}).
  assert (Hshape : tasks_shape tasks) by apply tasks_shape_exact.
  unfold bind at 1, Promise_all. rewrite first_rejection_shape by done.
  unfold bind at 1.
  destruct (settle sched tasks (replicate (length tasks) None) w1)
    as [[values | e1 | e1] w2] eqn:Hs.
  - destruct (mapM id values); cbn; [done |]. intros [= <- _]. by left.
  - by destruct (settle_no_throw _ _ _ _ _ _ Hs).
  - intros [= <- _]. by eapply settle_crash.
Qed.

Lemma stages_crash (sched : list nat) (w : World) e w' :
  stages sched w = (Crash e, w') → stream_failure e.
Proof.
  unfold stages, bind.
  destruct (analyzeAndCompressImages w) as [[[] | e1 | e1] wa] eqn:Hn; [| done |].
  2:{ by destruct (proj2 (analyzeAndCompressImages_frame _ _ _ Hn) e1). }
  destruct (createPDFsFromImages sched wa) as [[r | e1 | e1] wg] eqn:Hg; [| done |].
  2:{ intros [= <- _]. by eapply createPDFsFromImages_crash. }
  intros Hm.
  exfalso. revert Hm. unfold mergePDFs, bind.
  pose proof (mergeLoop_cases r [] wg) as Hl.
  destruct (mergeLoop r [] wg) as [[m | e2 | e2] wl]; [| done | done].
  cbv zeta.
  destruct (writeFileSync finalPDF (PdfFile (PDFDocument_save m)) wl)
    as [[[] | e3 | e3] wf] eqn:Hw; try done.
  by destruct (proj2 (proj2 (writeFileSync_frame _ _ _ _ _ Hw)) e3).
Qed.

Lemma deleteFolder_Ok_gone (p : path) (w w' : World) :
  deleteFolder p w = (Ok tt, w') → fs w' !! p = None.
Proof.
  intros Hd. destruct (fs w !! p) as [[b | pages |] |] eqn:Hp.
  - unfold deleteFolder in Hd. rewrite deleteFolder_fuel_S in Hd.
    unfold bind, existsSync, readdirSync in Hd. by rewrite !Hp in Hd.
  - unfold deleteFolder in Hd. rewrite deleteFolder_fuel_S in Hd.
    unfold bind, existsSync, readdirSync in Hd. by rewrite !Hp in Hd.
  - destruct (deleteFolder_spec p w Hp) as (w2 & Hd2 & _ & Hgone & _).
    assert (w2 = w') as -> by congruence.
    apply Hgone; [done |]. intros k Hpk Hkp Hne. destruct Hne.
    by apply (anti_symm prefix).
  - rewrite deleteFolder_absent in Hd by done. by injection Hd as <-.
Qed.

Lemma cleanup_Ok_gone (w w' : World) :
  cleanup w = (Ok tt, w') →
  fs w' !! compressedFolder = None ∧ fs w' !! pdfFolder = None.
Proof.
  unfold cleanup, bind.
  destruct (deleteFolder compressedFolder w) as [[[] | e1 | e1] w1] eqn:H1; [| done ..].
  intros H2. split; [| by apply deleteFolder_Ok_gone in H2].
  apply deleteFolder_Ok_gone in H1.
  destruct (deleteFolder_frame _ _ _ _ H2) as (_ & _ & Hmono).
  destruct (Hmono compressedFolder) as [-> | ->]; done.
Qed.

(** X20: the script never ends with an exception: its main process catches
    whatever the stages and the cleanup throw.  When the process does not
    die in a stream (one that cannot write its file, or never finishes), the
    last line of the log is the verdict, success or failure; and success is
    logged only when the final document is on disk and the two working
    folders are gone. *)
Theorem X20_script_verdict (sched : list nat) (w : World) :
  match script sched w with
  | (Ok _, w') =>
      (last (console w') = Some LogSuccess
       ∧ is_Some (fs w' !! finalPDF)
       ∧ fs w' !! compressedFolder = None
       ∧ fs w' !! pdfFolder = None)
      ∨ (∃ e, last (console w') = Some (LogFailure e))
  | (Throw _, _) => False
  | (Crash e, _) => stream_failure e
  end.
Proof.
  destruct (create_folders_lookup w) as (w1 & Hcf & _ & _).
  unfold script. rewrite Hcf, main_cases.
  destruct (stages sched (started w1)) as [[[] | e | e] wm] eqn:Hst.
  - destruct (cleanup wm) as [[[] | e | e] w2] eqn:Hcl.
    + left. cbn [console fs]. split; [apply last_snoc |].
      destruct (cleanup_Ok_gone _ _ Hcl) as [Hc Hp].
      split; [| done].
      destruct (stages_exact _ _ _ Hst) as (wa & _ & Hfinal & _).
      destruct (cleanup_frame _ _ _ Hcl) as (_ & Hout & _).
      rewrite Hout, Hfinal; [by eexists | |]; intros [r Hr]; discriminate Hr.
    + right. exists e. cbn [console]. apply last_snoc.
    + by destruct (cleanup_no_crash _ _ _ Hcl e).
  - right. exists e. cbn [console]. apply last_snoc.
  - by eapply stages_crash.
Qed.

(** ** What is already in the working folder *)

Lemma for_of_analyze_frame_in (files : list string) (w : World) r w' :
  for_of files analyzeAndCompressImage w = (r, w') →
  ∀ q, (∀ g, g ∈ files → q ≠ path_join compressedFolder g) → fs w' !! q = fs w !! q.
Proof.
  revert w. induction files as [|g files IH]; intros w; cbn [for_of].
  - by intros [= _ <-].
  - unfold bind. destruct (analyzeAndCompressImage g w) as [rg wg] eqn:Hg.
    destruct (analyzeAndCompressImage_frame _ _ _ _ Hg) as [Hframe _].
    intros Hrest q Hq.
    assert (Hwg : fs wg !! q = fs w !! q).
    { apply Hframe, Hq, list_elem_of_here. }
    destruct rg as [[] | e | e]; [| by injection Hrest as _ <- ..].
    rewrite (IH _ Hrest q); [done |].
    intros g' Hg'. by apply Hq, list_elem_of_further.
Qed.

(** X21: the generation lays out what it finds in the working folder, not
    what the Normalizer has just treated: an image file that an earlier run
    left there, and that the source folder no longer holds, is untouched by
    the Normalizer and is handed to [createPDF] in one of the chunks. *)
Theorem X21_stale_copy_is_laid_out (sched : list nat) (w w' : World) (f : string)
    (e : entry) :
  stages sched w = (Ok tt, w') →
  isImageFile f = true →
  fs w !! path_join compressedFolder f = Some e →
  fs w !! path_join inputFolder f = None →
  ∃ wa c idx,
    analyzeAndCompressImages w = (Ok tt, wa)
    ∧ fs wa !! path_join compressedFolder f = Some e
    ∧ (c, idx) ∈ chunks (normalized_files (fs wa)) 0
    ∧ f ∈ c
    ∧ fs w' !! outputPDF_path idx = Some (PdfFile (chunk_pages wa c)).
Proof.
  intros Hst Himg Hcopy Hsrc.
  destruct (stages_exact _ _ _ Hst) as (wa & Hn & _ & Hdocs & _).
  assert (Hwa : fs wa !! path_join compressedFolder f = Some e).
  { rewrite <- Hcopy. revert Hn.
    unfold analyzeAndCompressImages, bind, readdirSync.
    destruct (fs w !! inputFolder) as [[b | pages |] |]; try done.
    intros Hloop. apply (for_of_analyze_frame_in _ _ _ _ Hloop).
    intros g Hg Heq. apply path_join_inj in Heq as <-.
    apply list_elem_of_filter in Hg as [_ Hg]. apply elem_of_children in Hg.
    rewrite Hsrc in Hg. by destruct Hg. }
  assert (Hin : f ∈ concat (chunks (normalized_files (fs wa)) 0).*1).
  { rewrite chunks_concat. cbn [drop]. apply elem_of_normalized_files.
    split; [done |]. rewrite Hwa. by eexists. }
  apply elem_of_concat_fmap in Hin as ([c' idx] & Hc & Hfc). cbn [fst] in Hfc.
  exists wa, c', idx. split; [done |]. split; [done |]. split; [done |].
  split; [done |]. by apply (Hdocs (c', idx)).
Qed.

Lemma fresh_b_correct (m : gmap path entry) : fresh_b m = true → fresh m.
Proof.
  unfold fresh_b. rewrite forallb_forall. intros Hall q Hq.
  destruct (m !! q) as [e |] eqn:He; [| done].
  assert (Hin : In q (map_to_list m).*1).
  { apply list_elem_of_In, list_elem_of_fmap. exists (q, e). split; [done |].
    by apply elem_of_map_to_list. }
  apply Hall in Hin. apply negb_true_iff, bool_decide_eq_false in Hin. done.
Qed.

End Properties.

(** * The theorems at work on the concrete instance *)

#[local] Existing Instance demo.

Ltac compute_in H l :=
  let v := eval vm_compute in l in
  replace l with v in H by (vm_compute; reflexivity).

Ltac each_of H :=
  repeat (apply elem_of_cons in H as [-> | H]);
  [.. | by apply elem_of_nil in H].

Lemma demo_folders :
  fs demo_world !! inputFolder = Some Directory
  ∧ fs demo_world !! compressedFolder = Some Directory
  ∧ fs demo_world !! pdfFolder = Some Directory
  ∧ (∀ f, f ∈ source_files (fs demo_world) →
       fs demo_world !! path_join compressedFolder f ≠ Some Directory).
Proof.
  do 3 (split; [vm_compute; reflexivity |]).
  intros f Hf. compute_in Hf (source_files (fs demo_world)).
  each_of Hf; vm_compute; discriminate.
Defined.

Lemma C2_witness :
  let pdfPaths := [outputPDF_path 1; outputPDF_path 2] in
  let docs := [[demo_page "a.jpg"]; [demo_page "b.jpg"; demo_page "c.jpg"]] in
  Forall2 (λ pdfPath pages, fs demo_merge_world !! pdfPath = Some (PdfFile pages))
    pdfPaths docs
  ∧ fs demo_merge_world !! finalPDF ≠ Some Directory
  ∧ (0 < sum_list (length <$> docs))
  ∧ ∃ w', mergePDFs pdfPaths demo_merge_world = (Ok tt, w')
          ∧ fs w' !! finalPDF =
              Some (PdfFile [demo_page "a.jpg"; demo_page "b.jpg"; demo_page "c.jpg"]).
Proof.
  intros pdfPaths docs.
  assert (H1 : Forall2 (λ pdfPath pages,
                  fs demo_merge_world !! pdfPath = Some (PdfFile pages)) pdfPaths docs).
  { repeat constructor; vm_compute; reflexivity. }
  assert (H2 : fs demo_merge_world !! finalPDF ≠ Some Directory).
  { vm_compute. discriminate. }
  assert (H3 : 0 < sum_list (length <$> docs)) by (cbn; lia).
  split; [exact H1 |]. split; [exact H2 |]. split; [exact H3 |].
  destruct (@C2_merge_concatenates demo pdfPaths docs demo_merge_world H1 H2)
    as (w' & final & Hmerge & Hfs & _ & Hcat & _).
  destruct (Hcat H3) as [-> _].
  exists w'. split; [exact Hmerge |]. rewrite Hfs. apply lookup_insert_eq.
Defined.

(** C2 as the specification states it fails on an intermediate document
    without a page (what a chunk leaves when its first image does not open),
    and on the empty list of documents: the final document has one page, a
    blank one, where the intermediate documents have none. *)
Lemma C2_counterexample :
  let merged := mergePDFs [outputPDF_path 1] demo_pageless_world in
  let merged_none := mergePDFs [] demo_pageless_world in
  fs demo_pageless_world !! outputPDF_path 1 = Some (PdfFile [])
  ∧ merged.1 = Ok tt
  ∧ fs merged.2 !! finalPDF = Some (PdfFile [pdflib_default_page])
  ∧ length [pdflib_default_page] ≠ sum_list (length <$> [[] : list page])
  ∧ merged_none.1 = Ok tt
  ∧ fs merged_none.2 !! finalPDF = Some (PdfFile [pdflib_default_page])
  ∧ length [pdflib_default_page] ≠ sum_list (length <$> ([] : list (list page))).
Proof.
  cbv zeta. repeat split; vm_compute; first [reflexivity | discriminate].
Qed.

Lemma C3_witness :
  let s := demo_layout demo_layout_world 185 25 in
  let missing := path_join compressedFolder "b.jpg" in
  placeImage_body "b.jpg" 1 s = (Throw (ENOENT missing), s)
  ∧ placeImage "b.jpg" 1 s = (Ok tt, log_error (LogAddImageError missing (ENOENT missing)) s)
  ∧ x (log_error (LogAddImageError missing (ENOENT missing)) s) = 185%Z.
Proof.
  intros s missing.
  assert (Hnone : fs demo_layout_world !! missing = None) by (vm_compute; reflexivity).
  assert (H1 : placeImage_body "b.jpg" 1 s = (Throw (ENOENT missing), s)).
  { apply (@placeImage_body_open_fails demo "b.jpg" 1 s (ENOENT missing) s).
    unfold doc_openImage. fold missing. cbn [s demo_layout world].
    rewrite Hnone. reflexivity. }
  split; [exact H1 |].
  destruct (@C3_failed_image_skipped_in_place demo "b.jpg" 1 ["c.jpg"] s s (ENOENT missing) H1)
    as (Hplace & _ & _ & Hx & _).
  split; [exact Hplace | exact Hx].
Defined.

(** C3 as the specification states it fails on the chunk a.jpg, b.jpg,
    c.jpg when b.jpg cannot be opened: after the failure the cursor is at
    (185, 25), where b.jpg would have gone, not at (345, 25) as after a
    placement, and c.jpg is drawn at (185, 25): the grid has no gap. *)
Lemma C3_counterexample :
  let failed := forEach ["a.jpg"; "b.jpg"] placeImage (start_layout demo_layout_world) in
  let placed := forEach ["a.jpg"; "b.jpg"] placeImage (start_layout demo_layout_world_ok) in
  let whole := forEach ["a.jpg"; "b.jpg"; "c.jpg"] placeImage (start_layout demo_layout_world) in
  console (world failed.2) =
    [LogAddImageError (path_join compressedFolder "b.jpg")
       (ENOENT (path_join compressedFolder "b.jpg"))]
  ∧ (x placed.2, y placed.2) = (345, 25)%Z
  ∧ (x failed.2, y failed.2) = (185, 25)%Z
  ∧ (x failed.2, y failed.2) ≠ (x placed.2, y placed.2)
  ∧ doc whole.2 =
      [{| page_size := (600, 800)%float;
          page_ops := cell_ops "a.jpg" (3000, 2000)%Z 25 25
                      ++ cell_ops "c.jpg" (3000, 2000)%Z 185 25 |}].
Proof.
  cbv zeta. repeat split; vm_compute; first [reflexivity | discriminate].
Qed.

Lemma C4_witness :
  let images := ["a.jpg"; "c.jpg"] in
  let imgs := [(3000, 2000); (3000, 2000)]%Z in
  Forall2 (openable demo_layout_world) images imgs
  ∧ (∀ k file img, images !! k = Some file → imgs !! k = Some img →
       caption_fits file img (k mod 15))
  ∧ ∃ pages,
      createPDF images 1 demo_layout_world =
        (Ok (Pending {| outputPDF := outputPDF_path 1; document := pages |}),
         demo_layout_world)
      ∧ length pages = 1.
Proof.
  intros images imgs.
  assert (H1 : Forall2 (openable demo_layout_world) images imgs).
  { repeat constructor; exists (photo 150000); split; vm_compute; reflexivity. }
  assert (H2 : ∀ k file img, images !! k = Some file → imgs !! k = Some img →
                 caption_fits file img (k mod 15)).
  { intros [|[|k]] file img Hfile Himg; [| | discriminate Hfile];
      injection Hfile as <-; injection Himg as <-; vm_compute; reflexivity. }
  split; [exact H1 |]. split; [exact H2 |].
  destruct (@C4_page_breaks demo images imgs 1 demo_layout_world H1 H2)
    as (pages & Hcreate & _ & _ & _ & _ & Hone).
  exists pages. split; [exact Hcreate |]. apply Hone. simpl. lia.
Defined.

(** C4 as the specification states it fails on a chunk of 15 images that
    all open when the caption of the 13th, in the last row, is too long for
    what is left of the page: [pdfkit] opens a page of its own for the rest
    of the caption, before an image whose index is no multiple of 15; the
    last two images are drawn on that page, and the document has two pages. *)
Lemma C4_counterexample :
  let pages := task_document (createPDF demo_long_chunk 1 demo_long_world).1 in
  length demo_long_chunk = 15
  ∧ Forall (λ file, opened demo_long_world file = Some (3000, 2000)%Z) demo_long_chunk
  ∧ demo_long_chunk !! 12 = Some demo_long_name
  ∧ length pages = 2
  ∧ page_size <$> pages = [(600, 800)%float; (612, 792)%float]
  ∧ length ∘ page_ops <$> pages = [26; 5]
  ∧ (page_ops <$> pages !! 1) =
      Some (ContinueText demo_long_name
              :: cell_ops "img13.jpg" (3000, 2000)%Z 185 545
              ++ cell_ops "img14.jpg" (3000, 2000)%Z 345 545).
Proof.
  cbv zeta. split; [reflexivity |]. split.
  { repeat constructor; vm_compute; reflexivity. }
  repeat split; vm_compute; reflexivity.
Qed.

Lemma C5_witness :
  let s := demo_layout demo_layout_world 345 25 in
  let s' := placed_on_page "c.jpg" (3000, 2000)%Z [] (demo_page "a.jpg") s in
  placeImage_body "c.jpg" 2 s = (Ok tt, s')
  ∧ x s' = 25%Z ∧ y s' = 155%Z.
Proof.
  intros s s'.
  assert (H1 : placeImage_body "c.jpg" 2 s = (Ok tt, s')).
  { apply (@placeImage_body_same_page demo "c.jpg" 2 s (3000, 2000)%Z [] (demo_page "a.jpg")).
    - exists (photo 150000). split; [vm_compute; reflexivity | reflexivity].
    - discriminate.
    - reflexivity. }
  split; [exact H1 |].
  destruct (@C5_cursor_advance_and_wrap demo "c.jpg" 2 s s' H1) as (_ & _ & Hwrap).
  apply Hwrap. reflexivity.
Defined.

Lemma C6_witness :
  fs demo_world !! inputFolder = Some Directory
  ∧ fs demo_world !! compressedFolder = Some Directory
  ∧ (∀ f, f ∈ source_files (fs demo_world) →
       fs demo_world !! path_join compressedFolder f ≠ Some Directory)
  ∧ isImageFile "b.PNG" = true
  ∧ fs demo_world !! path_join inputFolder "b.PNG" = Some (File (photo 3500000))
  ∧ sharp_metadata (photo 3500000) = Some {| md_width := 3000; md_height := 2000 |}
  ∧ ∃ w', analyzeAndCompressImages demo_world = (Ok tt, w')
          ∧ fs w' !! path_join compressedFolder "b.PNG" =
              Some (File {| blob_size := 400000; blob_dims := Some (1920, 1280)%Z;
                            blob_shrinks := true |})
          ∧ fs w' !! path_join inputFolder "b.PNG" = Some (File (photo 3500000)).
Proof.
  destruct demo_folders as (Hin & Hcomp & _ & Hout).
  assert (H4 : isImageFile "b.PNG" = true) by (vm_compute; reflexivity).
  assert (H5 : fs demo_world !! path_join inputFolder "b.PNG" = Some (File (photo 3500000)))
    by (vm_compute; reflexivity).
  assert (H6 : sharp_metadata (photo 3500000) =
               Some {| md_width := 3000; md_height := 2000 |}) by reflexivity.
  do 6 (split; [assumption |]).
  destruct (@C6_normalizer_policy demo demo_world "b.PNG" (photo 3500000) _ Hin Hcomp Hout H4 H5 H6)
    as (w' & Hrun & Hover & _ & Hsrc).
  exists w'. split; [exact Hrun |]. split.
  - rewrite Hover by reflexivity. reflexivity.
  - rewrite Hsrc; [exact H5 |]. by exists ["b.PNG"].
Defined.

(** C6 as the specification states it fails on d.jpg, which [sharp] decodes
    and which is above 2 MB: [sharp] fails to re-encode it, and after the
    Normalizer it has no normalized copy at all; when a file of an earlier
    run is in its place, that file is still there, and it is no re-encoding
    of the source. *)
Lemma C6_counterexample :
  let fresh_run := analyzeAndCompressImages demo_world in
  let later_run := analyzeAndCompressImages demo_stale_copy_world in
  fs demo_world !! path_join inputFolder "d.jpg" = Some (File (stubborn 5000000))
  ∧ sharp_metadata (stubborn 5000000) = Some {| md_width := 4000; md_height := 3000 |}
  ∧ (byteLength (stubborn 5000000) > 2 * 1024 * 1024)%Z
  ∧ fresh_run.1 = Ok tt
  ∧ fs fresh_run.2 !! path_join compressedFolder "d.jpg" = None
  ∧ later_run.1 = Ok tt
  ∧ fs later_run.2 !! path_join compressedFolder "d.jpg" = Some (File (photo 150000)).
Proof.
  cbv zeta. repeat split; vm_compute; reflexivity.
Qed.

Lemma C7_witness :
  fs demo_world !! inputFolder = Some Directory
  ∧ fs demo_world !! compressedFolder = Some Directory
  ∧ (∀ f, f ∈ source_files (fs demo_world) →
       fs demo_world !! path_join compressedFolder f ≠ Some Directory)
  ∧ isImageFile "c.jpeg" = true
  ∧ fs demo_world !! path_join inputFolder "c.jpeg" = Some (File corrupt)
  ∧ ¬ decodable (File corrupt)
  ∧ fs demo_world !! path_join compressedFolder "c.jpeg" = None
  ∧ (∃ w', analyzeAndCompressImages demo_world = (Ok tt, w')
           ∧ fs w' !! path_join compressedFolder "c.jpeg" = None
           ∧ ∃ err, LogInvalidImage (path_join inputFolder "c.jpeg") err ∈ console w')
  ∧ last (console (main [0] demo_world).2) = Some LogSuccess.
Proof.
  destruct demo_folders as (Hin & Hcomp & _ & Hout).
  assert (H4 : isImageFile "c.jpeg" = true) by (vm_compute; reflexivity).
  assert (H5 : fs demo_world !! path_join inputFolder "c.jpeg" = Some (File corrupt))
    by (vm_compute; reflexivity).
  assert (H6 : ¬ decodable (File corrupt)).
  { intros (b & metadata & Hb & Hmd). injection Hb as <-. discriminate Hmd. }
  assert (H7 : fs demo_world !! path_join compressedFolder "c.jpeg" = None)
    by (vm_compute; reflexivity).
  do 7 (split; [assumption |]).
  split; [| vm_compute; reflexivity].
  destruct (@C7_invalid_image_contained demo demo_world "c.jpeg" (@File demo corrupt)
              Hin Hcomp Hout H4 H5 H6 H7)
    as (err & w' & w0' & _ & Hrun & Hlog & Hnone & _).
  exists w'. split; [exact Hrun |]. split; [exact Hnone |]. by exists err.
Defined.


Lemma C9_witness :
  well_formed (fs demo_world)
  ∧ fs demo_world !! compressedFolder = Some Directory
  ∧ fs demo_world !! pdfFolder = Some Directory
  ∧ (∃ w', main [0] demo_world = (Ok tt, w')
           ∧ fs w' !! compressedFolder = None
           ∧ fs w' !! pdfFolder = None
           ∧ fs w' !! path_join compressedFolder "a.jpg" = None).
Proof.
  destruct demo_folders as (_ & Hcomp & Hpdf & _).
  assert (H1 : well_formed (fs demo_world)).
  { apply well_formed_b_correct. vm_compute. reflexivity. }
  split; [exact H1 |]. split; [exact Hcomp |]. split; [exact Hpdf |].
  destruct (@C9_cleanup_gating demo [0] demo_world H1 Hcomp Hpdf)
    as (r & wm & w' & Hstages & Hmain & Hok & _).
  assert (Hr : r = Ok tt).
  { apply (f_equal fst) in Hstages. simpl in Hstages. rewrite <- Hstages.
    vm_compute. reflexivity. }
  subst r. destruct (Hok eq_refl) as (Hgone & _).
  exists w'. split; [exact Hmain |].
  split; [| split]; apply Hgone.
  - left. reflexivity.
  - right. reflexivity.
  - left. by exists ["a.jpg"].
Defined.

Lemma C10_witness :
  fs demo_world !! inputFolder = Some Directory
  ∧ fs demo_world !! compressedFolder = Some Directory
  ∧ (∀ f, f ∈ source_files (fs demo_world) →
       fs demo_world !! path_join compressedFolder f ≠ Some Directory)
  ∧ isImageFile "d.jpg" = true
  ∧ fs demo_world !! path_join inputFolder "d.jpg" = Some (File (stubborn 5000000))
  ∧ sharp_metadata (stubborn 5000000) = Some {| md_width := 4000; md_height := 3000 |}
  ∧ (byteLength (stubborn 5000000) > 2 * 1024 * 1024)%Z
  ∧ sharp_resize_jpeg (stubborn 5000000) 1920 80 = None
  ∧ fs demo_world !! path_join compressedFolder "d.jpg" = None
  ∧ (∃ w', analyzeAndCompressImages demo_world = (Ok tt, w')
           ∧ fs w' !! path_join compressedFolder "d.jpg" = None)
  ∧ last (console (main [0] demo_world).2) = Some LogSuccess.
Proof.
  destruct demo_folders as (Hin & Hcomp & _ & Hout).
  assert (H4 : isImageFile "d.jpg" = true) by (vm_compute; reflexivity).
  assert (H5 : fs demo_world !! path_join inputFolder "d.jpg" =
               Some (File (stubborn 5000000))) by (vm_compute; reflexivity).
  assert (H6 : sharp_metadata (stubborn 5000000) =
               Some {| md_width := 4000; md_height := 3000 |}) by reflexivity.
  assert (H7 : (byteLength (stubborn 5000000) > 2 * 1024 * 1024)%Z) by reflexivity.
  assert (H8 : sharp_resize_jpeg (stubborn 5000000) 1920 80 = None) by reflexivity.
  assert (H9 : fs demo_world !! path_join compressedFolder "d.jpg" = None)
    by (vm_compute; reflexivity).
  do 9 (split; [assumption |]).
  split; [| vm_compute; reflexivity].
  destruct (@C10_compression_failure_silent demo demo_world "d.jpg" (stubborn 5000000) _
              Hin Hcomp Hout H4 H5 H6 H7 H8 H9)
    as (w' & new & _ & Hrun & _ & _ & _ & Hnone & _).
  exists w'. split; [exact Hrun | exact Hnone].
Defined.

(** When the merge fails, here on a directory in the place of the final
    document, the working folders stay, with the normalized images and the
    intermediate document in them. *)
Example failed_merge_keeps_artifacts :
  let end_world := (main [0] demo_blocked_world).2 in
  last (console end_world) = Some (LogFailure (EISDIR finalPDF))
  ∧ fs end_world !! compressedFolder = Some Directory
  ∧ fs end_world !! path_join compressedFolder "a.jpg" = Some (File (photo 150000))
  ∧ is_Some (fs end_world !! outputPDF_path 1).
Proof.
  cbv zeta. repeat split; vm_compute; eauto.
Qed.

(** * The further properties at work *)

Lemma X5_witness :
  fs demo_lost_world !! inputFolder ≠ Some Directory
  ∧ ∃ w', script [] demo_lost_world = (Ok tt, w')
          ∧ console w' = [LogStart; LogFailure (ENOENT inputFolder)]
          ∧ fs w' !! finalPDF = None.
Proof.
  assert (H1 : fs demo_lost_world !! inputFolder ≠ Some Directory)
    by (vm_compute; discriminate).
  split; [exact H1 |].
  destruct (@X5_missing_source_folder demo [] demo_lost_world H1)
    as (w1 & _ & Hrun & Hkeep & _).
  eexists. split; [exact Hrun |]. split; [vm_compute; reflexivity |].
  cbn [fs]. rewrite Hkeep; [vm_compute; reflexivity | discriminate ..].
Defined.

Lemma X6_witness :
  fs demo_world !! inputFolder = Some Directory
  ∧ fs demo_world !! compressedFolder = Some Directory
  ∧ (∀ f, f ∈ source_files (fs demo_world) →
       fs demo_world !! path_join compressedFolder f ≠ Some Directory)
  ∧ isImageFile "notes.txt" = false
  ∧ ∃ w', analyzeAndCompressImages demo_world = (Ok tt, w')
          ∧ fs w' !! path_join compressedFolder "notes.txt" = None.
Proof.
  destruct demo_folders as (Hin & Hcomp & _ & Hout).
  assert (H4 : isImageFile "notes.txt" = false) by (vm_compute; reflexivity).
  do 4 (split; [assumption |]).
  destruct (@X6_other_files_ignored demo demo_world "notes.txt" Hin Hcomp Hout H4)
    as (w' & new & Hrun & Hcopy & _).
  exists w'. split; [exact Hrun |]. rewrite Hcopy. vm_compute. reflexivity.
Defined.

Lemma X7_witness :
  fs demo_world !! inputFolder = Some Directory
  ∧ fs demo_world !! compressedFolder = Some Directory
  ∧ (∀ f, f ∈ source_files (fs demo_world) →
       fs demo_world !! path_join compressedFolder f ≠ Some Directory)
  ∧ ∃ w1 w2, analyzeAndCompressImages demo_world = (Ok tt, w1)
             ∧ analyzeAndCompressImages w1 = (Ok tt, w2)
             ∧ fs w2 = fs w1.
Proof.
  destruct demo_folders as (Hin & Hcomp & _ & Hout).
  do 3 (split; [assumption |]).
  exact (@X7_normalizer_idempotent demo demo_world Hin Hcomp Hout).
Defined.

Lemma X8_witness :
  let images := ["a.jpg"; "b.jpg"; "c.jpg"] in
  length images ≤ 15
  ∧ placed demo_layout_world images = [("a.jpg", (3000, 2000)%Z); ("c.jpg", (3000, 2000)%Z)]
  ∧ captions_fit demo_layout_world images
  ∧ ∃ pg w',
      createPDF images 1 demo_layout_world =
        (Ok (Pending {| outputPDF := outputPDF_path 1; document := [pg] |}), w')
      ∧ take 2 (drop 2 (page_ops pg)) = cell_ops "c.jpg" (3000, 2000)%Z 185 25.
Proof.
  intros images.
  assert (H1 : length images ≤ 15) by (cbn; lia).
  assert (H2 : placed demo_layout_world images =
               [("a.jpg", (3000, 2000)%Z); ("c.jpg", (3000, 2000)%Z)])
    by (vm_compute; reflexivity).
  assert (H3 : captions_fit demo_layout_world images).
  { unfold captions_fit. rewrite H2.
    intros [|[|k]] file img Hk; [| | discriminate Hk];
      injection Hk as <- <-; vm_compute; reflexivity. }
  assert (H4 : has_first demo_layout_world images = true) by (vm_compute; reflexivity).
  split; [exact H1 |]. split; [exact H2 |]. split; [exact H3 |].
  destruct (@X8_chunk_layout demo images 1 demo_layout_world H1)
    as (Hrun & _ & Hfirst & Hfit).
  destruct (Hfirst H4) as ((pg0 & pages & Hsome & _) & _).
  destruct (Hfit H3) as [Hone Hpage].
  destruct (chunk_pages demo_layout_world images) as [|pg [|pg' rest]] eqn:Hpages;
    [discriminate Hsome | | cbn in Hone; lia].
  destruct (Hpage pg) as (_ & _ & Hcell); [apply list_elem_of_here |].
  eexists pg, _. split; [exact Hrun |].
  apply (Hcell 1 "c.jpg" (3000, 2000)%Z). rewrite H2. reflexivity.
Defined.

Lemma X9_witness :
  length ["b.jpg"; "a.jpg"] ≤ 15
  ∧ opened demo_layout_world "b.jpg" = None
  ∧ ∃ w', createPDF ["b.jpg"; "a.jpg"] 1 demo_layout_world =
            (Ok (Pending {| outputPDF := outputPDF_path 1; document := [] |}), w')
          ∧ LogAddImageError (path_join compressedFolder "a.jpg") NoCurrentPage
              ∈ console w'.
Proof.
  assert (H1 : length ["b.jpg"; "a.jpg"] ≤ 15) by (cbn; lia).
  assert (H2 : opened demo_layout_world "b.jpg" = None) by (vm_compute; reflexivity).
  split; [exact H1 |]. split; [exact H2 |].
  destruct (@X9_first_image_fails demo "b.jpg" ["a.jpg"] 1 demo_layout_world H1 H2)
    as (w' & Hrun & _ & Hlog & _ & Hno_page).
  exists w'. split; [exact Hrun |]. rewrite Hlog. apply elem_of_app. right.
  apply Hno_page; [apply list_elem_of_here |]. vm_compute. eauto.
Defined.

Lemma X11_witness :
  (stages [0] demo_world).1 = Ok tt
  ∧ ∃ pages, fs (stages [0] demo_world).2 !! finalPDF = Some (PdfFile pages)
             ∧ length pages = 1.
Proof.
  assert (H1 : (stages [0] demo_world).1 = Ok tt) by (vm_compute; reflexivity).
  split; [exact H1 |].
  destruct (stages [0] demo_world) as [r w'] eqn:Hst. cbn [fst snd] in *. subst r.
  destruct (@X11_final_document_of_normalized_folder demo [0] demo_world w' Hst)
    as (wa & Hn & Hfinal & _).
  assert (Hwa : wa = (analyzeAndCompressImages demo_world).2) by (by rewrite Hn).
  assert (Hlen : length (final_pages wa) = 1) by (rewrite Hwa; vm_compute; reflexivity).
  exists (final_pages wa). split; [exact Hfinal | exact Hlen].
Defined.

Lemma X12_witness :
  (stages [0] demo_world).1 = Ok tt
  ∧ ∃ pages pg, fs (stages [0] demo_world).2 !! finalPDF = Some (PdfFile pages)
                ∧ length pages = 1
                ∧ pages !! 0 = Some pg
                ∧ page_size pg = (600, 800)%float.
Proof.
  assert (H1 : (stages [0] demo_world).1 = Ok tt) by (vm_compute; reflexivity).
  split; [exact H1 |].
  destruct (stages [0] demo_world) as [r w'] eqn:Hst. cbn [fst snd] in *. subst r.
  destruct (@X12_final_layout_when_all_open demo [0] demo_world w' Hst)
    as (wa & Hn & Hlayout).
  assert (Hwa : wa = (analyzeAndCompressImages demo_world).2) by (by rewrite Hn).
  assert (Hfiles : normalized_files (fs wa) = ["a.jpg"; "b.PNG"]).
  { rewrite Hwa. vm_compute. reflexivity. }
  assert (Hopen : Forall (λ f, is_Some (opened wa f)) (normalized_files (fs wa))).
  { apply Forall_forall. intros h Hh.
    assert (Hb : bool_decide (is_Some (opened wa h)) = true); [| by apply bool_decide_eq_true in Hb].
    revert h Hh. apply Forall_forall.
    assert (Hall : forallb (λ h, bool_decide (is_Some (opened wa h)))
                     (normalized_files (fs wa)) = true)
      by (rewrite Hwa; vm_compute; reflexivity).
    apply Forall_forall. intros h Hh. rewrite forallb_forall in Hall.
    apply Hall. by apply list_elem_of_In. }
  assert (Hfits : ∀ k file img, normalized_files (fs wa) !! k = Some file →
                    opened wa file = Some img → caption_fits file img (k mod 15)).
  { rewrite Hfiles, Hwa.
    intros [|[|k]] file img Hk Ho; [| | discriminate Hk]; injection Hk as <-;
      vm_compute in Ho; injection Ho as <-; vm_compute; reflexivity. }
  destruct Hlayout as (pages & Hfinal & Hlen & Hcells);
    [by rewrite Hfiles | exact Hopen | exact Hfits |].
  rewrite Hfiles in Hlen, Hcells.
  destruct (Hcells 0 "a.jpg" eq_refl) as (img & pg & _ & Hpg & Hsize & _).
  exists pages, pg. split; [exact Hfinal |]. split; [exact Hlen |].
  split; [exact Hpg | exact Hsize].
Defined.

Lemma X13_witness :
  well_formed (fs demo_fresh_world)
  ∧ fs demo_fresh_world !! inputFolder = Some Directory
  ∧ fresh (fs demo_fresh_world)
  ∧ fs demo_fresh_world !! finalPDF ≠ Some Directory
  ∧ (∀ i, i < (length (source_files (fs demo_fresh_world)) + 14) / 15 → i ∈ [0])
  ∧ ∃ w', script [0] demo_fresh_world = (Ok tt, w')
          ∧ last (console w') = Some LogSuccess
          ∧ is_Some (fs w' !! finalPDF)
          ∧ fs w' !! compressedFolder = None
          ∧ fs w' !! path_join inputFolder "a.jpg" = Some (File (photo 150000)).
Proof.
  assert (H1 : well_formed (fs demo_fresh_world)).
  { apply well_formed_b_correct. vm_compute. reflexivity. }
  assert (H2 : fs demo_fresh_world !! inputFolder = Some Directory)
    by (vm_compute; reflexivity).
  assert (H3 : fresh (fs demo_fresh_world)).
  { apply fresh_b_correct. vm_compute. reflexivity. }
  assert (H4 : fs demo_fresh_world !! finalPDF ≠ Some Directory)
    by (vm_compute; discriminate).
  assert (H5 : ∀ i, i < (length (source_files (fs demo_fresh_world)) + 14) / 15 → i ∈ [0]).
  { intros i Hi.
    compute_in Hi ((length (source_files (fs demo_fresh_world)) + 14) / 15).
    assert (i = 0) as -> by lia. apply list_elem_of_here. }
  do 5 (split; [assumption |]).
  destruct (@X13_fresh_run_succeeds demo [0] demo_fresh_world H1 H2 H3 H4 H5)
    as (wa & w' & Hrun & Hlast & Hkeep & Hdoc & _).
  exists w'. split; [exact Hrun |]. split; [exact Hlast |]. split; [exact Hdoc |].
  split; rewrite Hkeep by discriminate; vm_compute; reflexivity.
Defined.

Lemma X14_witness :
  well_formed (fs demo_empty_world)
  ∧ fs demo_empty_world !! inputFolder = Some Directory
  ∧ fresh (fs demo_empty_world)
  ∧ fs demo_empty_world !! finalPDF ≠ Some Directory
  ∧ source_files (fs demo_empty_world) = []
  ∧ ∃ w', script [] demo_empty_world = (Ok tt, w')
          ∧ console w' = [LogStart; LogGenerated []; LogMerged finalPDF; LogSuccess]
          ∧ is_Some (fs w' !! finalPDF).
Proof.
  assert (H1 : well_formed (fs demo_empty_world)).
  { apply well_formed_b_correct. vm_compute. reflexivity. }
  assert (H2 : fs demo_empty_world !! inputFolder = Some Directory)
    by (vm_compute; reflexivity).
  assert (H3 : fresh (fs demo_empty_world)).
  { apply fresh_b_correct. vm_compute. reflexivity. }
  assert (H4 : fs demo_empty_world !! finalPDF ≠ Some Directory)
    by (vm_compute; discriminate).
  assert (H5 : source_files (fs demo_empty_world) = []) by (vm_compute; reflexivity).
  do 5 (split; [assumption |]).
  destruct (@X14_empty_source_folder demo [] demo_empty_world H1 H2 H3 H4 H5)
    as (w' & pages & Hrun & Hlog & _ & Hdoc & _).
  exists w'. split; [exact Hrun |]. split; [exact Hlog |]. rewrite Hdoc. by eexists.
Defined.

Lemma X17_witness :
  well_formed (fs demo_tree_world)
  ∧ ["tmp"] ≠ []
  ∧ fs demo_tree_world !! ["tmp"] = Some Directory
  ∧ ∃ w', deleteFolder ["tmp"] demo_tree_world = (Ok tt, w')
          ∧ fs w' !! ["tmp"; "sub"; "b.txt"] = None
          ∧ fs w' !! ["keep.txt"] = Some (File corrupt).
Proof.
  assert (H1 : well_formed (fs demo_tree_world)).
  { apply well_formed_b_correct. vm_compute. reflexivity. }
  assert (H2 : ["tmp"] ≠ ([] : list string)) by discriminate.
  assert (H3 : fs demo_tree_world !! ["tmp"] = Some Directory)
    by (vm_compute; reflexivity).
  do 3 (split; [assumption |]).
  destruct (@X17_deleteFolder_removes_subtree demo ["tmp"] demo_tree_world H1 H2 H3)
    as (w' & Hrun & _ & Hfs & _).
  exists w'. split; [exact Hrun |]. rewrite Hfs. split; vm_compute; reflexivity.
Defined.

Lemma X18_witness :
  inputFolder `prefix_of` path_join inputFolder "a.jpg"
  ∧ fs (script [0] demo_world).2 !! path_join inputFolder "a.jpg" =
      Some (File (photo 150000)).
Proof.
  assert (H1 : inputFolder `prefix_of` path_join inputFolder "a.jpg")
    by (by exists ["a.jpg"]).
  split; [exact H1 |].
  rewrite (@X18_script_footprint demo [0] demo_world (path_join inputFolder "a.jpg")
             (or_intror H1)).
  vm_compute. reflexivity.
Defined.

Lemma X19_witness :
  let s := demo_layout demo_layout_world 345 25 in
  let s' := placed_on_page "c.jpg" (3000, 2000)%Z [] (demo_page "a.jpg") s in
  placeImage_body "c.jpg" 2 s = (Ok tt, s')
  ∧ scaled (132, 176)%Z = (75, 100.00000000000001)%float.
Proof.
  intros s s'.
  assert (H1 : placeImage_body "c.jpg" 2 s = (Ok tt, s')).
  { apply (@placeImage_body_same_page demo "c.jpg" 2 s (3000, 2000)%Z [] (demo_page "a.jpg")).
    - exists (photo 150000). split; [vm_compute; reflexivity | reflexivity].
    - discriminate.
    - reflexivity. }
  split; [exact H1 |].
  destruct (@X19_image_scaled_in_doubles demo "c.jpg" 2 s s' H1) as (_ & _ & H2 & _).
  exact H2.
Defined.

Lemma X21_witness :
  (stages [0] demo_stale_world).1 = Ok tt
  ∧ isImageFile "old.jpg" = true
  ∧ fs demo_stale_world !! path_join compressedFolder "old.jpg" = Some (File (photo 150000))
  ∧ fs demo_stale_world !! path_join inputFolder "old.jpg" = None
  ∧ ∃ wa c idx,
      analyzeAndCompressImages demo_stale_world = (Ok tt, wa)
      ∧ (c, idx) ∈ chunks (normalized_files (fs wa)) 0
      ∧ "old.jpg" ∈ c.
Proof.
  assert (H1 : (stages [0] demo_stale_world).1 = Ok tt) by (vm_compute; reflexivity).
  assert (H2 : isImageFile "old.jpg" = true) by (vm_compute; reflexivity).
  assert (H3 : fs demo_stale_world !! path_join compressedFolder "old.jpg" =
               Some (File (photo 150000))) by (vm_compute; reflexivity).
  assert (H4 : fs demo_stale_world !! path_join inputFolder "old.jpg" = None)
    by (vm_compute; reflexivity).
  split; [exact H1 |]. split; [exact H2 |]. split; [exact H3 |]. split; [exact H4 |].
  destruct (stages [0] demo_stale_world) as [r w'] eqn:Hst. cbn [fst] in H1. subst r.
  destruct (@X21_stale_copy_is_laid_out demo [0] demo_stale_world w' "old.jpg"
              (@File demo (photo 150000)) Hst H2 H3 H4)
    as (wa & c & idx & Hn & _ & Hc & Hin & _).
  exists wa, c, idx. split; [exact Hn |]. split; [exact Hc | exact Hin].
Defined.
